(** * Analise_Fotometrica: the streak photometry core of FotometriaV1.py

    A shallow embedding of the numeric core of [SatellitePhotometry]
    (src/FotometriaV1.py): sample-point generation, the per-point photometry
    and noise model, outlier flags, the streak endpoint resolver and the
    continuous time axis; then the streak geometry, the variability and
    robust statistics, the totals of the temporal summary, the settings
    dialog, the zoom window and the moves through the image list.

    Conventions.
    - Python floats are read as real numbers ([R]); [nan] is [None] in an
      [option R].  Where a statement is about exact equality of computed
      floats the same definition is also instantiated at binary64
      ([PrimFloat.float]), the arithmetic Python really runs.
    - A Python exception is [Raise e]; the value [None] of a bare [return]
      after a message box is the [None] of an [option].
    - Results of calls into numpy, scipy, astropy and photutils whose inputs
      are pixel data are inputs of the model. *)

From Stdlib Require Import Floats.
From Stdlib Require Import Reals Lra Lia ZArith List Bool Sorted.
From stdpp Require Import base decidable option list gmap strings.

#[local] Set Warnings "-inexact-float".

(** ** Python outcomes *)

Inductive exn : Type :=
| TypeError
| ZeroDivisionError.

Inductive result (A : Type) : Type :=
| Ok (a : A)
| Raise (e : exn).

Arguments Ok {A} a.
Arguments Raise {A} e.

#[export] Instance result_ret : MRet result := fun A a => Ok a.

#[export] Instance result_bind : MBind result := fun A B k r =>
  match r with
  | Ok a => k a
  | Raise e => Raise e
  end.

(** ** Arithmetic the sample-point generator is run on *)

(** [confirm_streak] only adds, subtracts and multiplies floats and divides
    one Python [int] by another.  [Number] is that signature; it has an exact
    instance and a binary64 instance. *)
Class Number (A : Type) := {
  nadd : A -> A -> A;
  nsub : A -> A -> A;
  nmul : A -> A -> A;
  (* Python's [i / m] on ints, [m <> 0] *)
  int_truediv : nat -> nat -> A
}.

#[export] Instance Number_R : Number R := {
  nadd := Rplus;
  nsub := Rminus;
  nmul := Rmult;
  int_truediv i m := (INR i / INR m)%R
}.

(** An [int] below 2^53 converts to binary64 exactly, and then Python's true
    division is the IEEE division of the two converted values. *)
Definition float_of_nat (n : nat) : float :=
  PrimFloat.of_uint63 (Uint63.of_Z (Z.of_nat n)).

#[export] Instance Number_binary64 : Number float := {
  nadd := PrimFloat.add;
  nsub := PrimFloat.sub;
  nmul := PrimFloat.mul;
  int_truediv i m := PrimFloat.div (float_of_nat i) (float_of_nat m)
}.

(** ** confirm_streak (src/FotometriaV1.py, 695-714) *)

Section ConfirmStreak.
Context {A : Type} `{Number A}.

(** The body of the loop, at index [i]. *)
Definition analysis_point (n_points : nat) (p1 p2 : A * A) (i : nat) : A * A :=
  let '(x1, y1) := p1 in
  let '(x2, y2) := p2 in
  let t := int_truediv i (n_points - 1) in
  (nadd x1 (nmul t (nsub x2 x1)), nadd y1 (nmul t (nsub y2 y1))).

(** [Ok None]: the warning box, no points; [Raise ZeroDivisionError]: one
    point asked for, [0 / 0] at the first index. *)
Definition confirm_streak (n_points : nat) (streak_points : list (A * A))
  : result (option (list (A * A))) :=
  match streak_points with
  | [p1; p2] =>
      if Nat.eqb n_points 1 then Raise ZeroDivisionError
      else Ok (Some (map (analysis_point n_points p1 p2) (seq 0 n_points)))
  | _ => Ok None
  end.
End ConfirmStreak.

(** ** Float comparisons, as Python evaluates them *)

#[export] Instance Rlt_decision : RelDecision Rlt := Rlt_dec.
#[export] Instance Rle_decision : RelDecision Rle := Rle_dec.
#[export] Instance Rgt_decision : RelDecision Rgt := Rgt_dec.
#[export] Instance Rge_decision : RelDecision Rge := Rge_dec.
#[export] Instance R_eq_decision : EqDecision R := Req_dec_T.

(** ** FITS header *)

(** The numeric cards of a header.  [hdr.get(key, default)]. *)
Definition hdr_get (hdr : gmap string R) (key : string) (default : R) : R :=
  match hdr !! key with
  | Some v => v
  | None => default
  end.

(** The header parameters of [analyze_photometry] (829-835). *)
Record HeaderParams : Type := {
  gain : R;
  readnoise : R;
  zp : R;
  exptime : R;
  saturation_limit : R
}.

Definition read_header (hdr : gmap string R) : HeaderParams :=
  {| gain := hdr_get hdr "GAIN" (hdr_get hdr "EGAIN" 1);
     readnoise := hdr_get hdr "RDNOISE" (hdr_get hdr "READNOISE" 10);
     zp := hdr_get hdr "ZEROPT" (hdr_get hdr "MAGZERO" 25);
     exptime := hdr_get hdr "EXPTIME" (9 / 10);
     saturation_limit := hdr_get hdr "SATURATE" 65535 |}.

(** ** Photometry of one exposure: analyze_photometry (795-961) *)

Section Photometry.
Local Open Scope R_scope.

Definition log10 (x : R) : R := ln x / ln 10.

(** [CircularAperture.area] and [CircularAnnulus.area] of photutils. *)
Definition circle_area (r : R) : R := PI * r ^ 2.
Definition annulus_area (r_in r_out : R) : R := PI * (r_out ^ 2 - r_in ^ 2).

(** What [ap.to_mask(method='exact').cutout(data)] gives in the FWHM block:
    an exception, Python's [None] (no overlap with the image), or pixels. *)
Inductive cutout_result : Type :=
| CutoutRaised
| CutoutNone
| Cutout (pixels : list (list R)).

(** What photutils and astropy measure at one analysis point. *)
Record PointObs : Type := {
  ap_sum : R;                   (* ft['aperture_sum'][0] *)
  an_sum : R;                   (* bt['aperture_sum'][0] *)
  annulus_std : option R;       (* sigma-clipped std of the annulus cutout;
                                   [None]: the try block raised *)
  ap_cutout : cutout_result
}.

(** One exposure as the analysis sees it. *)
Record Exposure : Type := {
  header : gmap string R;
  background2d : option (R * R);  (* (median, rms median); [None]: raised *)
  clipped_stats : R * R;          (* (median, std) of sigma_clipped_stats *)
  observe : R * R -> PointObs
}.

(** The attributes of the object that [analyze_photometry] reads.
    [analysis_points] is created by [confirm_streak] and deleted by
    [reset_streak]; the others are set by the constructor. *)
Record Photometer : Type := {
  analysis_points : option (list (R * R));
  aperture_radius : R;
  annulus_inner : R;
  annulus_outer : R;
  exposure : Exposure
}.

(** *** estimate_fwhm_from_cutout (1107-1128) *)

Definition Rsum (l : list R) : R := foldr Rplus 0 l.

(** [np.sum(w(y, x) * cutout)] with [y, x = np.mgrid[...]]: [y] is the row
    index and [x] the column index. *)
Definition weighted_sum (w : nat -> nat -> R) (cutout : list (list R)) : R :=
  Rsum (imap (fun y row => Rsum (imap (fun x c => w y x * c) row)) cutout).

Definition all_zero (cutout : list (list R)) : bool :=
  forallb (forallb (fun c => bool_decide (c = 0))) cutout.

(** [np.sqrt]: [nan] below zero. *)
Definition np_sqrt (v : R) : option R :=
  if decide (v < 0) then None else Some (sqrt v).

Definition estimate_fwhm_from_cutout (cutout : option (list (list R))) : option R :=
  match cutout with
  | None => None
  | Some c =>
      if all_zero c then None
      else
        let total := weighted_sum (fun _ _ => 1) c in
        if decide (total <= 0) then None
        else
          let x_mean := weighted_sum (fun _ x => INR x) c / total in
          let y_mean := weighted_sum (fun y _ => INR y) c / total in
          let x_var := weighted_sum (fun _ x => (INR x - x_mean) ^ 2) c / total in
          let y_var := weighted_sum (fun y _ => (INR y - y_mean) ^ 2) c / total in
          v ← np_sqrt ((x_var + y_var) / 2);
          Some (2355 / 1000 * v)
  end.

(** *** The loop body (857-924) *)

Record Sample : Type := {
  bkg_mean : R;
  raw_adu : R;
  rate : R;             (* flux rate, ADU/s *)
  err_rate : R;
  snr : R;
  mag : option R;
  mag_err : option R;
  is_saturated : bool;
  fwhm : option R;
  contrast : option R
}.

(** The noise model (886-897). *)
Definition flux_rate_error
  (raw gain_ exptime_ std_local area readnoise_ : R) : R :=
  let var_source_e := Rmax 0 (raw * gain_) in
  let var_bkg_e := area * std_local ^ 2 * gain_ in
  let var_read_e := area * readnoise_ ^ 2 in
  let total_var_e := var_source_e + var_bkg_e + var_read_e in
  let noise_e := sqrt total_var_e in
  let noise_adu := noise_e / gain_ in
  noise_adu / exptime_.

Definition fwhm_block (c : cutout_result) : option R :=
  match c with
  | CutoutRaised => None
  | CutoutNone => None
  | Cutout pixels => estimate_fwhm_from_cutout (Some pixels)
  end.

Definition measure_point
  (hp : HeaderParams) (r_ap r_in r_out global_bkg_std : R) (o : PointObs) : Sample :=
  let bkg_mean_ := an_sum o / annulus_area r_in r_out in
  let raw := ap_sum o - bkg_mean_ * circle_area r_ap in
  let rate_ := raw / exptime hp in
  let sat := bool_decide (raw > saturation_limit hp * (8 / 10)) in
  let std_local := match annulus_std o with
                   | Some s => s
                   | None => global_bkg_std
                   end in
  let err := flux_rate_error raw (gain hp) (exptime hp) std_local
               (circle_area r_ap) (readnoise hp) in
  let snr_ := if decide (err > 0) then rate_ / err else 0 in
  let mags :=
    if bool_decide (rate_ > 0) && negb sat
    then (Some (-(25 / 10) * log10 rate_ + zp hp),
          if decide (rate_ > 0) then Some (25 / 10 / ln 10 * (err / rate_)) else None)
    else (None, None) in
  {| bkg_mean := bkg_mean_;
     raw_adu := raw;
     rate := rate_;
     err_rate := err;
     snr := snr_;
     mag := mags.1;
     mag_err := mags.2;
     is_saturated := sat;
     fwhm := fwhm_block (ap_cutout o);
     contrast := if decide (bkg_mean_ > 0) then Some (rate_ / bkg_mean_) else None |}.

(** *** Outliers (953-961) *)

Definition mean (l : list R) : R := Rsum l / INR (length l).

(** [scipy.stats.zscore]: population standard deviation; a zero deviation
    divides [0] by [0] at every entry. *)
Definition pstd (l : list R) : R :=
  sqrt (mean (map (fun x => (x - mean l) ^ 2) l)).

Definition zscore (l : list R) : list (option R) :=
  let m := mean l in
  let s := pstd l in
  map (fun x => if decide (s = 0) then None else Some ((x - m) / s)) l.

Fixpoint insert_sorted (x : R) (l : list R) : list R :=
  match l with
  | [] => [x]
  | h :: t => if decide (x <= h) then x :: h :: t else h :: insert_sorted x t
  end.

Definition sort_R (l : list R) : list R := foldr insert_sorted [] l.

(** [np.percentile(a, q)], linear interpolation between the two order
    statistics around position [(n - 1) * q / 100]. *)
Definition percentile (l : list R) (q : nat) : R :=
  let s := sort_R l in
  let n := length s in
  let k := ((n - 1) * q)%nat in
  let lo := (k / 100)%nat in
  let hi := Nat.min (lo + 1) (n - 1) in
  let g := INR (k mod 100) / 100 in
  let a := nth lo s 0 in
  let b := nth hi s 0 in
  a + (b - a) * g.

(** [np.where(mask)[0]]. *)
Fixpoint np_where_from (i : nat) (mask : list bool) : list nat :=
  match mask with
  | [] => []
  | b :: rest =>
      if b then i :: np_where_from (S i) rest else np_where_from (S i) rest
  end.

Definition np_where (mask : list bool) : list nat := np_where_from 0 mask.

(** [a[mask]]. *)
Fixpoint select {A} (mask : list bool) (a : list A) : list A :=
  match mask, a with
  | b :: mask', x :: a' => if b then x :: select mask' a' else select mask' a'
  | _, _ => []
  end.

Definition is_valid (s : Sample) : bool :=
  bool_decide (rate s > 0) && bool_decide (is_Some (mag s)) && negb (is_saturated s).

Definition z_flag (z : option R) : bool :=
  match z with
  | Some v => bool_decide (Rabs v > 3)
  | None => false
  end.

Definition iqr_flag (q1 q3 x : R) : bool :=
  let iqr := q3 - q1 in
  bool_decide (x < q1 - 15 / 10 * iqr) || bool_decide (x > q3 + 15 / 10 * iqr).

(** [np.sum(mask)]. *)
Definition np_sum (mask : list bool) : nat := length (filter (fun b => b = true) mask).

Definition outliers (n_valid : nat) (valid_fluxes : list R) : list nat * list nat :=
  if decide (2 <= n_valid)%nat then
    (np_where (map z_flag (zscore valid_fluxes)),
     np_where (map (iqr_flag (percentile valid_fluxes 25)
                             (percentile valid_fluxes 75)) valid_fluxes))
  else ([], []).

(** *** analyze_photometry *)

Inductive abort_reason : Type :=
| MissingAttributes   (* "Faltando atributos" *)
| InvalidExptime      (* "Tempo de exposicao invalido" *)
| InvalidGain.        (* "Ganho invalido" *)

Record Analysis : Type := {
  samples : list Sample;
  valid : list bool;
  out_z : list nat;
  out_iqr : list nat
}.

Inductive outcome : Type :=
| Aborted (why : abort_reason)
| Analysed (a : Analysis).

Definition global_background (e : Exposure) : R * R :=
  match background2d e with
  | Some b => b
  | None => clipped_stats e
  end.

Definition analyze_photometry (p : Photometer) : outcome :=
  match analysis_points p with
  | None => Aborted MissingAttributes
  | Some points =>
      let e := exposure p in
      let global_bkg_std := (global_background e).2 in
      let hp := read_header (header e) in
      if decide (exptime hp <= 0) then Aborted InvalidExptime
      else if decide (gain hp <= 0) then Aborted InvalidGain
      else
        let ss := map (fun pt => measure_point hp (aperture_radius p)
                                   (annulus_inner p) (annulus_outer p)
                                   global_bkg_std (observe e pt)) points in
        let v := map is_valid ss in
        let o := outliers (np_sum v) (select v (map rate ss)) in
        Analysed {| samples := ss; valid := v; out_z := o.1; out_iqr := o.2 |}
  end.

End Photometry.

(** ** Streak endpoint resolver: detect_streak_endpoints (1841-1999) *)

(** A fragment returned by the detector ([StreakCoordinates], declared in
    the module [detect_streak]). *)
Module Streak.
Record t : Type := {
  x_start : R;
  y_start : R;
  x_end : R;
  y_end : R;
  x_coords : list R;
  y_coords : list R;
  length : R
}.
End Streak.

Definition point : Type := R * R.

Definition min_length : R := 3.
Definition max_distance : R := 300.
Definition angle_tolerance : R := 2.

(** [enumerate(l, start)] and [enumerate(l)]. *)
Fixpoint enumerate_from {A} (start : nat) (l : list A) : list (nat * A) :=
  match l with
  | [] => []
  | x :: l' => (start, x) :: enumerate_from (S start) l'
  end.

Definition enumerate {A} (l : list A) : list (nat * A) := enumerate_from 0 l.

Section Resolver.
Local Open Scope R_scope.

(** [==] on two fragments.  The class is declared outside this file, so its
    equality is a parameter: identity for a plain class, field-wise for a
    dataclass. *)
Variable streak_eqb : Streak.t -> Streak.t -> bool.

(** [np.arctan2(dy, dx)], in radians. *)
Definition arctan2 (y x : R) : R :=
  if decide (0 < x) then atan (y / x)
  else if decide (x < 0) then
    (if decide (0 <= y) then atan (y / x) + PI else atan (y / x) - PI)
  else if decide (0 < y) then PI / 2
  else if decide (y < 0) then - (PI / 2)
  else 0.

Definition get_angle (streak : Streak.t) : R :=
  let dx := Streak.x_end streak - Streak.x_start streak in
  let dy := Streak.y_end streak - Streak.y_start streak in
  let angle := arctan2 dy dx * 180 / PI in
  if decide (angle < 0) then angle + 180 else angle.

Definition angle_diff (angle1 angle2 : R) : R :=
  Rmin (Rabs (angle1 - angle2)) (180 - Rabs (angle1 - angle2)).

Definition dist (p1 p2 : point) : R :=
  sqrt ((p1.1 - p2.1) ^ 2 + (p1.2 - p2.2) ^ 2).

(** [min(...)] of a non-empty sequence. *)
Definition list_min (l : list R) : R :=
  match l with
  | [] => 0
  | d :: ds => foldl Rmin d ds
  end.

Definition endpoints (s : Streak.t) : list point :=
  [(Streak.x_start s, Streak.y_start s); (Streak.x_end s, Streak.y_end s)].

Definition min_dist (existing_streak streak : Streak.t) : R :=
  list_min (e1 ← endpoints existing_streak; e2 ← endpoints streak; [dist e1 e2]).

(** The second inner loop: [final_group] grows by the fragments of
    [current_group[1:]] that connect to a fragment already in it. *)
Fixpoint stitch (max_d : R) (final_group rest : list (nat * Streak.t))
  : list (nat * Streak.t) :=
  match rest with
  | [] => final_group
  | streak :: rest' =>
      if existsb (fun existing => bool_decide (min_dist existing.2 streak.2 <= max_d))
           final_group
      then stitch max_d (final_group ++ [streak]) rest'
      else stitch max_d final_group rest'
  end.

(** The first inner loop: [current_group[1:]]. *)
Definition similar_angle
  (tol : R) (valid_streaks : list Streak.t) (used_indices : gset nat)
  (i : nat) (streak1 : Streak.t) : list (nat * Streak.t) :=
  filter (fun js => js.1 <> i /\ (js.1 ∉ used_indices)
                    /\ angle_diff (get_angle streak1) (get_angle js.2) <= tol)
         (enumerate valid_streaks).

(** [valid_streaks.index(streak)], where [streak] is the object at position
    [js.1]: the first position holding the same object or an equal one. *)
Definition list_index (valid_streaks : list Streak.t) (js : nat * Streak.t) : nat :=
  match list_find (fun ks => ks.1 = js.1 \/ streak_eqb ks.2 js.2 = true)
          (enumerate valid_streaks) with
  | Some (k, _) => k
  | None => js.1
  end.

Definition final_indices
  (valid_streaks : list Streak.t) (i : nat) (final_group : list (nat * Streak.t))
  : gset nat :=
  {[i]} ∪ list_to_set (map (list_index valid_streaks) (tail final_group)).

(** The outer loop over [enumerate(valid_streaks)], from the seeds still to
    visit and the indices used so far. *)
Fixpoint group_loop
  (tol max_d : R) (valid_streaks : list Streak.t)
  (seeds : list (nat * Streak.t)) (used_indices : gset nat)
  : list (list (nat * Streak.t)) :=
  match seeds with
  | [] => []
  | (i, streak1) :: seeds' =>
      if decide (i ∈ used_indices)
      then group_loop tol max_d valid_streaks seeds' used_indices
      else
        let final_group :=
          stitch max_d [(i, streak1)]
            (similar_angle tol valid_streaks used_indices i streak1) in
        final_group ::
          group_loop tol max_d valid_streaks seeds'
            (used_indices ∪ final_indices valid_streaks i final_group)
  end.

Definition streak_groups (tol max_d : R) (valid_streaks : list Streak.t)
  : list (list (nat * Streak.t)) :=
  group_loop tol max_d valid_streaks (enumerate valid_streaks) ∅.

(** [all_coords] of a group. *)
Definition all_coords (group : list (nat * Streak.t)) : list point :=
  js ← group; zip (Streak.x_coords js.2) (Streak.y_coords js.2).

(** The pairs [(l[i], l[j])], [i < j], in the order of the two nested loops. *)
Fixpoint index_pairs {A} (l : list A) : list (A * A) :=
  match l with
  | [] => []
  | p :: rest => map (pair p) rest ++ index_pairs rest
  end.

(** The nested loops over a coordinate list: the running maximum and the
    pair that set it. *)
Definition farthest_step (acc : R * option (point * point)) (pq : point * point)
  : R * option (point * point) :=
  if decide (dist pq.1 pq.2 > acc.1) then (dist pq.1 pq.2, Some pq) else acc.

Definition farthest (coords : list point) : R * option (point * point) :=
  foldl farthest_step (0, None) (index_pairs coords).

(** The score a group is given; groups with fewer than two coordinates are
    skipped. *)
Definition score (group : list (nat * Streak.t)) : option R :=
  if decide (2 <= length (all_coords group))%nat
  then Some (farthest (all_coords group)).1
  else None.

(** The loop choosing [best_group]: [(max_total_length, best_group)]. *)
Definition best_step (acc : R * option (list point)) (group : list (nat * Streak.t))
  : R * option (list point) :=
  match score group with
  | Some m => if decide (m > acc.1) then (m, Some (all_coords group)) else acc
  | None => acc
  end.

Definition best_group (groups : list (list (nat * Streak.t)))
  : R * option (list point) :=
  foldl best_step (0, None) groups.

(** [max(valid_streaks, key=lambda s: s.length)]: the first maximum. *)
Definition longest_streak (first : Streak.t) (rest : list Streak.t) : Streak.t :=
  foldl (fun best s => if decide (Streak.length s > Streak.length best) then s else best)
        first rest.

Definition own_endpoints (s : Streak.t) : point * point :=
  ((Streak.x_start s, Streak.y_start s), (Streak.x_end s, Streak.y_end s)).

(** The grouping, scoring and fallback, for two or more surviving
    fragments [first :: rest]. *)
Definition resolve_groups (first : Streak.t) (rest : list Streak.t) : point * point :=
  let valid_streaks := first :: rest in
  let groups0 := streak_groups angle_tolerance max_distance valid_streaks in
  let groups := match groups0 with
                | [] => map (fun js => [js]) (enumerate valid_streaks)
                | _ => groups0
                end in
  let fallback := own_endpoints (longest_streak first rest) in
  match (best_group groups).2 with
  | Some coords =>
      if decide (2 <= length coords)%nat then
        match (farthest coords).2 with
        | Some best_endpoints => best_endpoints
        | None => fallback
        end
      else fallback
  | None => fallback
  end.

(** [None] is Python's [None]: the function returned after a warning box. *)
Definition detect_streak_endpoints (streaks : list Streak.t) : option (point * point) :=
  match streaks with
  | [] => None
  | _ =>
      match filter (fun s => Streak.length s >= min_length) streaks with
      | [] => None
      | [streak] => Some (own_endpoints streak)
      | first :: rest => Some (resolve_groups first rest)
      end
  end.

(** find_streak (2001-2004): [p1, p2 = self.detect_streak_endpoints(...)],
    then [self.streak_points = [p1, p2]].  Unpacking [None] raises. *)
Definition find_streak (streaks : list Streak.t) : result (list point) :=
  match detect_streak_endpoints streaks with
  | None => Raise TypeError
  | Some (p1, p2) => Ok [p1; p2]
  end.

End Resolver.

(** ** Temporal aggregation (1506-1598) *)

Section Temporal.
Local Open Scope R_scope.

(** A FITS file as [extrair_tempo_fits] reads it.  [date_obs]: [None] when
    the card is absent, [Some None] when [pd.to_datetime] rejects it,
    [Some (Some t)] when it parses to the instant [t] (in nanoseconds). *)
Record FitsFile : Type := {
  cards : gmap string R;
  date_obs : option (option Z)
}.

(** [fits_file = None]: the file cannot be opened. *)
Definition extrair_tempo_fits (fits_file : option FitsFile) : option Z * R :=
  match fits_file with
  | None => (None, 1)
  | Some f =>
      match date_obs f with
      | Some None => (None, 1)
      | Some (Some t) => (Some t, hdr_get (cards f) "EXPTIME" 1)
      | None => (None, hdr_get (cards f) "EXPTIME" 1)
      end
  end.

(** One entry of [dados_temporais_satelite]. *)
Record Dados : Type := {
  timestamp : option Z;
  tempo_relativo : R;
  exp_time : R;
  positions : list nat;
  fluxes : list R
}.

Record Temporal : Type := {
  tempo_base_satelite : option Z;
  dados_temporais_satelite : list Dados
}.

(** [(a - b).total_seconds()]. *)
Definition total_seconds (a b : Z) : R := IZR (a - b) / 1000000000.

Definition adicionar_dados_temporais
  (st : Temporal) (fits_file : option FitsFile)
  (positions_ : list nat) (fluxes_ : list R) : Temporal :=
  let '(timestamp_, exp_time_) := extrair_tempo_fits fits_file in
  let base := match tempo_base_satelite st, timestamp_ with
              | None, Some t => Some t
              | b, _ => b
              end in
  let rel := match timestamp_, base with
             | Some t, Some b => total_seconds t b
             | _, _ => INR (length (dados_temporais_satelite st)) * 30
             end in
  {| tempo_base_satelite := base;
     dados_temporais_satelite :=
       dados_temporais_satelite st ++
         [{| timestamp := timestamp_; tempo_relativo := rel; exp_time := exp_time_;
             positions := positions_; fluxes := fluxes_ |}] |}.

(** The sort key of [criar_eixo_temporal_continuo]: a [Timestamp] or a
    float. *)
Inductive sort_key : Type :=
| KeyTime (t : Z)
| KeyRel (r : R).

Definition key_of (x : Dados) : sort_key :=
  match timestamp x with
  | Some t => KeyTime t
  | None => KeyRel (tempo_relativo x)
  end.

(** [a < b] on two keys; a [Timestamp] and a float do not compare. *)
Definition key_lt (a b : sort_key) : option bool :=
  match a, b with
  | KeyTime s, KeyTime t => Some (bool_decide (s < t)%Z)
  | KeyRel r, KeyRel q => Some (bool_decide (r < q))
  | _, _ => None
  end.

Definition has_timestamp (x : Dados) : bool := bool_decide (is_Some (timestamp x)).

(** Keys of both kinds in one list: [sorted] compares a [Timestamp] with a
    float and raises [TypeError]. *)
Definition mixed_keys (l : list Dados) : bool :=
  existsb has_timestamp l && existsb (fun x => negb (has_timestamp x)) l.

Definition key_ltb (a b : Dados) : bool :=
  match key_lt (key_of a) (key_of b) with
  | Some c => c
  | None => false
  end.

(** Stable insertion: [x] came before every element of [l]. *)
Fixpoint insert_by_key (x : Dados) (l : list Dados) : list Dados :=
  match l with
  | [] => [x]
  | h :: t => if key_ltb h x then h :: insert_by_key x t else x :: h :: t
  end.

(** [sorted(l, key=...)]: stable. *)
Definition sorted_by_key (l : list Dados) : result (list Dados) :=
  if mixed_keys l then Raise TypeError
  else Ok (foldr insert_by_key [] l).

(** [np.linspace(start, stop, num)], endpoint included. *)
Definition linspace (start stop : R) (num : nat) : list R :=
  match num with
  | O => []
  | 1%nat => [start]
  | _ =>
      let step := (stop - start) / INR (num - 1) in
      map (fun i => if decide (i = num - 1)%nat then stop else INR i * step + start)
          (seq 0 num)
  end.

(** The loop of [criar_eixo_temporal_continuo], from [tempo_acumulado]. *)
Fixpoint eixo_from (tempo_acumulado : R) (dados_ordenados : list Dados) : list (list R) :=
  match dados_ordenados with
  | [] => []
  | dados :: rest =>
      let n_pontos := length (positions dados) in
      linspace tempo_acumulado (tempo_acumulado + exp_time dados) n_pontos
        :: eixo_from (tempo_acumulado + exp_time dados) rest
  end.

(** [Ok None] is the pair [(None, None)] returned when nothing was
    accumulated. *)
Definition criar_eixo_temporal_continuo (dados_temporais : list Dados)
  : result (option (list (list R) * list Dados)) :=
  match dados_temporais with
  | [] => Ok None
  | _ =>
      dados_ordenados ← sorted_by_key dados_temporais;
      Ok (Some (eixo_from 0 dados_ordenados, dados_ordenados))
  end.

End Temporal.

(** ** Streak geometry (1130-1150) *)

Section Geometry.
Local Open Scope R_scope.

(** [np.diff(points, axis=0)]. *)
Definition np_diff (points : list point) : list point :=
  zip_with (fun p q => (q.1 - p.1, q.2 - p.2)) points (tail points).

(** [None] is [nan]. *)
Definition calculate_trail_length (points : list point) : option R :=
  if decide (length points < 2)%nat then None
  else Some (Rsum (map (fun d => sqrt (d.1 ^ 2 + d.2 ^ 2)) (np_diff points))).

Definition calculate_angular_velocity (points : list point) (exptime_ : R) : option R :=
  if decide (exptime_ > 0)
  then trail_length ← calculate_trail_length points; Some (trail_length / exptime_)
  else None.

(** [np.degrees(np.arctan2(dy, dx))] between the first and the last point. *)
Definition calculate_position_angle (points : list point) : option R :=
  if decide (length points < 2)%nat then None
  else
    first ← head points;
    final ← last points;
    Some (arctan2 (final.2 - first.2) (final.1 - first.1) * 180 / PI).

End Geometry.

(** ** Variability and robust statistics (976-1018) *)

Section Variability.
Local Open Scope R_scope.

(** [np.nanstd(f) / np.nanmean(f)] on three or more valid fluxes; [None]
    stands for [nan] and for the division by a zero mean. *)
Definition coefficient_variation (n_valid : nat) (valid_fluxes : list R) : option R :=
  if decide (3 <= n_valid)%nat then
    if decide (mean valid_fluxes = 0) then None
    else Some (pstd valid_fluxes / mean valid_fluxes)
  else None.

(** [np.nanmedian] of a list without [nan]. *)
Definition np_median (l : list R) : R := percentile l 50.

(** [(median_flux, mad_flux, robust_std)]. *)
Definition robust_stats (n_valid : nat) (valid_fluxes : list R) : option (R * R * R) :=
  if decide (3 <= n_valid)%nat then
    let median_flux := np_median valid_fluxes in
    let mad_flux := np_median (map (fun x => Rabs (x - median_flux)) valid_fluxes) in
    Some (median_flux, mad_flux, 14826 / 10000 * mad_flux)
  else None.

(** The masks of [plot_results] (2042-2043). *)
Definition valid_points (s : Sample) : bool :=
  negb (is_saturated s) && bool_decide (rate s > 0).

Definition valid_mags (s : Sample) : bool :=
  bool_decide (is_Some (mag s)) && valid_points s.

End Variability.

(** ** Totals of the temporal summary (1813-1815) *)

Section TemporalSummary.
Local Open Scope R_scope.

(** [max(l)]; [None] is the [ValueError] of an empty sequence. *)
Definition py_max (l : list R) : option R :=
  match l with
  | [] => None
  | x :: rest => Some (foldl Rmax x rest)
  end.

(** [max([max(t) for t in eixo_temporal])]. *)
Definition tempo_total (eixo_temporal : list (list R)) : option R :=
  maxima ← mapM py_max eixo_temporal; py_max maxima.

(** [sum(len(d['positions']) for d in dados_ordenados)]. *)
Definition total_pontos (dados_ordenados : list Dados) : nat :=
  foldr Nat.add 0%nat (map (fun d => length (positions d)) dados_ordenados).

End TemporalSummary.

(** ** The view and the image list (468-513, 587-663, 1198-1252) *)

Section View.
Local Open Scope R_scope.

(** zoom_to_point (613-630): the new [(xlim, ylim)]. *)
Definition zoom_to_point
  (zoom_factor : R) (current_xlim current_ylim : R * R) (img_width img_height : nat)
  (x y : R) : (R * R) * (R * R) :=
  let x_range := (current_xlim.2 - current_xlim.1) / zoom_factor in
  let y_range := (current_ylim.2 - current_ylim.1) / zoom_factor in
  let new_xlim := (x - x_range / 3, x + x_range / 4) in
  let new_ylim := (y - y_range / 2, y + y_range / 2) in
  ((Rmax 0 new_xlim.1, Rmin (INR img_width) new_xlim.2),
   (Rmax 0 new_ylim.1, Rmin (INR img_height) new_ylim.2)).

End View.


(** The attributes of the object that the navigation callbacks touch. *)
Module App.
Record t : Type := {
  fits_files : list string;
  current_file_index : Z;
  current_data : option string;     (* the file whose pixels are loaded *)
  streak_points : list (R * R);
  analysis_points : option (list (R * R));
  zoom_active : bool
}.

(** A callback returns, or raises [IndexError] in the state it reached. *)
Inductive outcome : Type :=
| Done (s : t)
| IndexError (s : t).


Section Callbacks.
(** Whether [fits.open] succeeds on a file. *)
Variable opens : string -> bool.





(** on_click (650-664), for an event inside or outside the axes. *)
Definition on_click (s : t) (inaxes : bool) (x y : R) : t :=
  if negb inaxes then s
  else if zoom_active s then s
  else if decide (length (streak_points s) < 2)%nat
       then {| fits_files := fits_files s;
               current_file_index := current_file_index s;
               current_data := current_data s;
               streak_points := streak_points s ++ [(x, y)];
               analysis_points := analysis_points s;
               zoom_active := zoom_active s |}
       else s.

End Callbacks.
End App.

(** ** The settings dialog: apply_config (1402-1463) *)

Module Config.
Local Open Scope R_scope.

(** The five attributes the dialog edits; [__init__] (38-49) sets
    [defaults]. *)
Record t : Type := {
  n_points : Z;
  aperture_radius : R;
  annulus_inner : R;
  annulus_outer : R;
  zoom_factor : R
}.

Definition defaults : t :=
  {| n_points := 10; aperture_radius := 5; annulus_inner := 8;
     annulus_outer := 12; zoom_factor := 2 |}.

(** The messages appended to [errors], in the order of the checks. *)
Inductive error : Type :=
| PointsOutOfRange     (* "Numero de pontos deve estar entre 3 e 50" *)
| ApertureOutOfRange   (* "Raio da abertura deve estar entre 1.0 e 20.0" *)
| InnerNotAboveAperture
| OuterNotAboveInner
| ZoomOutOfRange.

Definition errors (new : t) : list error :=
  (if decide ((n_points new < 3)%Z \/ (n_points new > 50)%Z)
   then [PointsOutOfRange] else [])
  ++ (if decide (aperture_radius new < 1 \/ aperture_radius new > 20)
      then [ApertureOutOfRange] else [])
  ++ (if decide (annulus_inner new <= aperture_radius new)
      then [InnerNotAboveAperture] else [])
  ++ (if decide (annulus_outer new <= annulus_inner new)
      then [OuterNotAboveInner] else [])
  ++ (if decide (zoom_factor new < 11 / 10 \/ zoom_factor new > 10)
      then [ZoomOutOfRange] else []).

(** What the dialog shows, with the attributes it leaves. *)
Inductive outcome : Type :=
| Applied (c : t)                          (* "Configuracoes aplicadas" *)
| Rejected (why : list error) (c : t)      (* "Erro de Validacao" *)
| Failed (c : t).                          (* a [.get()] raised *)

(** [entries]: the values the five Tk variables hold, [None] when reading
    one of them raises. *)
Definition apply_config (self : t) (entries : option t) : outcome :=
  match entries with
  | None => Failed self
  | Some new =>
      match errors new with
      | [] => Applied new
      | errs => Rejected errs self
      end
  end.

Definition settings (o : outcome) : t :=
  match o with
  | Applied c => c
  | Rejected _ c => c
  | Failed c => c
  end.

End Config.

(** ** Vocabulary of the statements *)

Section Vocabulary.
Local Open Scope R_scope.

(** A preferred key, an alternative key and a default. *)
Definition prefers (hdr : gmap string R) (key alt : string) (d v : R) : Prop :=
  (forall x, hdr !! key = Some x -> v = x)
  /\ (forall x, hdr !! key = None -> hdr !! alt = Some x -> v = x)
  /\ (hdr !! key = None -> hdr !! alt = None -> v = d).

(** The time accumulated before the exposure at position [k]. *)
Definition elapsed (ds : list Dados) (k : nat) : R := Rsum (map exp_time (take k ds)).

(** [a] does not sort after [b]. *)
Definition key_le (a b : Dados) : Prop := key_ltb b a = false.

(** The number of rejected entries among the first [j] of a mask. *)
Definition rejected_before (mask : list bool) (j : nat) : nat :=
  length (filter (fun b => b = false) (take j mask)).

(** The angle [get_angle] computes, on the differences [dy] and [dx]. *)
Definition fold_angle (dy dx : R) : R :=
  let angle := arctan2 dy dx * 180 / PI in
  if decide (angle < 0) then angle + 180 else angle.

(** The state after [adicionar_dados_temporais] ran once per analysed
    exposure, in the order of [inputs], from the initial state of the
    constructor. *)
Definition accumulate (inputs : list (option FitsFile * list nat * list R)) : Temporal :=
  foldl (fun st x => adicionar_dados_temporais st x.1.1 x.1.2 x.2)
        {| tempo_base_satelite := None; dados_temporais_satelite := [] |} inputs.



(** The settings the checks of the dialog accept. *)
Definition accepted (c : Config.t) : Prop :=
  (3 <= Config.n_points c <= 50)%Z
  /\ 1 <= Config.aperture_radius c <= 20
  /\ Config.aperture_radius c < Config.annulus_inner c
  /\ Config.annulus_inner c < Config.annulus_outer c
  /\ 11 / 10 <= Config.zoom_factor c <= 10.

(** The same fragment reported from its other end. *)
Definition reversed (s : Streak.t) : Streak.t :=
  {| Streak.x_start := Streak.x_end s; Streak.y_start := Streak.y_end s;
     Streak.x_end := Streak.x_start s; Streak.y_end := Streak.y_start s;
     Streak.x_coords := reverse (Streak.x_coords s);
     Streak.y_coords := reverse (Streak.y_coords s);
     Streak.length := Streak.length s |}.

End Vocabulary.

(** Order of two enumerated items by position. *)
Definition idx_lt {A} (a b : nat * A) : Prop := a.1 < b.1.

(** ** Concrete inputs *)

Section Inputs.
Local Open Scope R_scope.

(** An exposure with an empty header seen through one point. *)
Definition demo_obs : PointObs :=
  {| ap_sum := 100; an_sum := 0; annulus_std := None; ap_cutout := CutoutRaised |}.

Definition demo_exposure : Exposure :=
  {| header := ∅; background2d := None; clipped_stats := (0, 1);
     observe := fun _ => demo_obs |}.

Definition demo_photometer (points : option (list (R * R))) : Photometer :=
  {| analysis_points := points; aperture_radius := 5; annulus_inner := 8;
     annulus_outer := 12; exposure := demo_exposure |}.

(** Two exposures of three samples: the first file carries DATE-OBS, the
    second does not. *)
Definition fits_with_date : FitsFile := {| cards := ∅; date_obs := Some (Some 0%Z) |}.
Definition fits_without_date : FitsFile := {| cards := ∅; date_obs := None |}.

Definition two_exposures : Temporal :=
  adicionar_dados_temporais
    (adicionar_dados_temporais
       {| tempo_base_satelite := None; dados_temporais_satelite := [] |}
       (Some fits_with_date) [0; 1; 2]%nat [1; 1; 1]%R)
    (Some fits_without_date) [0; 1; 2]%nat [1; 1; 1]%R.

(** A fragment of length 2, below [min_length]. *)
Definition short_streak : Streak.t :=
  {| Streak.x_start := 0; Streak.y_start := 0; Streak.x_end := 2; Streak.y_end := 0;
     Streak.x_coords := [0; 1; 2]%R; Streak.y_coords := [0; 0; 0]%R;
     Streak.length := 2 |}.

(** Two collinear fragments on the x axis. *)
Definition streak_a : Streak.t :=
  {| Streak.x_start := 0; Streak.y_start := 0; Streak.x_end := 10; Streak.y_end := 0;
     Streak.x_coords := [0; 10]%R; Streak.y_coords := [0; 0]%R; Streak.length := 10 |}.

Definition streak_b : Streak.t :=
  {| Streak.x_start := 110; Streak.y_start := 0; Streak.x_end := 120; Streak.y_end := 0;
     Streak.x_coords := [110; 120]%R; Streak.y_coords := [0; 0]%R; Streak.length := 10 |}.



(** Two exposures with timestamps, accumulated latest first. *)
Definition dados_late : Dados :=
  {| timestamp := Some 10%Z; tempo_relativo := 5; exp_time := 2;
     positions := [0; 1; 2]%nat; fluxes := [7; 8; 9] |}.

Definition dados_early : Dados :=
  {| timestamp := Some 5%Z; tempo_relativo := 0; exp_time := 1;
     positions := [0; 1]%nat; fluxes := [3; 4] |}.

End Inputs.

(** * Theorems *)

Section ConfirmStreakExact.
Open Scope R_scope.

Lemma INR_pred_pos (n : nat) : (2 <= n)%nat -> 0 < INR (n - 1).
Proof.
  intros Hn. apply lt_0_INR. lia.
Qed.

Lemma analysis_point_first (n : nat) (p1 p2 : R * R) :
  (2 <= n)%nat -> analysis_point n p1 p2 0 = p1.
Proof.
  intros Hn. destruct p1 as [x1 y1], p2 as [x2 y2]. cbn.
  pose proof (INR_pred_pos n Hn). f_equal; field; lra.
Qed.

Lemma analysis_point_last (n : nat) (p1 p2 : R * R) :
  (2 <= n)%nat -> analysis_point n p1 p2 (n - 1) = p2.
Proof.
  intros Hn. destruct p1 as [x1 y1], p2 as [x2 y2]. cbn.
  pose proof (INR_pred_pos n Hn). f_equal; field; lra.
Qed.

Lemma analysis_point_step (n : nat) (x1 y1 x2 y2 : R) (i : nat) :
  (2 <= n)%nat ->
  let a := analysis_point n (x1, y1) (x2, y2) i in
  let b := analysis_point n (x1, y1) (x2, y2) (S i) in
  b.1 - a.1 = (x2 - x1) / INR (n - 1) /\ b.2 - a.2 = (y2 - y1) / INR (n - 1).
Proof.
  intros Hn. cbn -[INR]. pose proof (INR_pred_pos n Hn).
  rewrite S_INR. split; field; lra.
Qed.
End ConfirmStreakExact.




(** ** Photometry *)

Section PhotometryFacts.
Local Open Scope R_scope.

Lemma analyze_photometry_inv (p : Photometer) (a : Analysis) :
  analyze_photometry p = Analysed a ->
  exists points,
    analysis_points p = Some points
    /\ exptime (read_header (header (exposure p))) > 0
    /\ gain (read_header (header (exposure p))) > 0
    /\ samples a =
         map (fun pt => measure_point (read_header (header (exposure p)))
                          (aperture_radius p) (annulus_inner p) (annulus_outer p)
                          (global_background (exposure p)).2
                          (observe (exposure p) pt)) points
    /\ valid a = map is_valid (samples a)
    /\ (out_z a, out_iqr a) =
         outliers (np_sum (valid a)) (select (valid a) (map rate (samples a))).
Proof.
  unfold analyze_photometry. intros Ha.
  destruct (analysis_points p) as [points|]; [|discriminate].
  destruct (decide (exptime _ <= 0)) as [|He]; [discriminate|].
  destruct (decide (gain _ <= 0)) as [|Hg]; [discriminate|].
  injection Ha as <-. exists points. cbn [samples valid out_z out_iqr].
  repeat split; try lra. symmetry. apply surjective_pairing.
Qed.

Lemma measure_point_saturated hp r_ap r_in r_out g o :
  is_saturated (measure_point hp r_ap r_in r_out g o) = true
  <-> raw_adu (measure_point hp r_ap r_in r_out g o) > 8 / 10 * saturation_limit hp.
Proof.
  cbn. rewrite bool_decide_eq_true. split; intros; lra.
Qed.

Lemma measure_point_mag hp r_ap r_in r_out g o :
  let s := measure_point hp r_ap r_in r_out g o in
  (rate s > 0 /\ is_saturated s = false ->
     mag s = Some (- (25 / 10) * log10 (rate s) + zp hp)
     /\ mag_err s = Some (25 / 10 / ln 10 * (err_rate s / rate s)))
  /\ (~ (rate s > 0 /\ is_saturated s = false) -> mag s = None /\ mag_err s = None).
Proof.
  cbn.
  set (raw := ap_sum o - an_sum o / annulus_area r_in r_out * circle_area r_ap).
  destruct (bool_decide_reflect (raw / exptime hp > 0)) as [Hr|Hr];
    destruct (bool_decide (raw > saturation_limit hp * (8 / 10))) eqn:Hs; cbn.
  - split; [intros [_ ?]; discriminate|auto].
  - split; [|intros []; auto]. intros _. now rewrite decide_True by assumption.
  - split; [intros [? _]; contradiction|auto].
  - split; [intros [? _]; contradiction|auto].
Qed.

End PhotometryFacts.

(** C1.  For every sample of an analysed exposure: the raw count is the
    aperture sum minus the annulus mean times the aperture area, the flux
    rate is the raw count over the exposure time; the saturation flag is set
    iff the raw count exceeds 0.8 times the header saturation limit; the
    magnitude is defined iff the flux rate is positive and the flag is
    unset, and is then [-2.5 * log10 rate + zp]; otherwise magnitude and
    magnitude error are both undefined. *)
Theorem saturation_flag_and_magnitude
  (p : Photometer) (a : Analysis) (i : nat) (s : Sample) :
  analyze_photometry p = Analysed a ->
  samples a !! i = Some s ->
  let hp := read_header (header (exposure p)) in
  (exists points pt,
     analysis_points p = Some points /\ points !! i = Some pt
     /\ let o := observe (exposure p) pt in
        (raw_adu s = ap_sum o - an_sum o / annulus_area (annulus_inner p) (annulus_outer p)
                               * circle_area (aperture_radius p))%R
        /\ (rate s = raw_adu s / exptime hp)%R)
  /\ (is_saturated s = true <-> (raw_adu s > 8 / 10 * saturation_limit hp)%R)
  /\ (is_Some (mag s) <-> (rate s > 0)%R /\ is_saturated s = false)
  /\ ((rate s > 0)%R /\ is_saturated s = false ->
        mag s = Some (- (25 / 10) * log10 (rate s) + zp hp)%R)
  /\ (~ ((rate s > 0)%R /\ is_saturated s = false) -> mag s = None /\ mag_err s = None).
Proof.
  intros Ha Hs hp.
  destruct (analyze_photometry_inv p a Ha) as (points & Hpts & _ & _ & Hss & _).
  rewrite Hss in Hs. apply list_lookup_fmap_Some in Hs as (pt & -> & Hpt).
  pose proof (measure_point_mag hp (aperture_radius p) (annulus_inner p)
                (annulus_outer p) (global_background (exposure p)).2
                (observe (exposure p) pt)) as [Hdef Hundef].
  split; [exists points, pt; repeat split; assumption|].
  split; [apply measure_point_saturated|].
  set (s := measure_point _ _ _ _ _ _) in *.
  split; [|split; [intros H; now apply Hdef in H|exact Hundef]].
  split.
  - intros Hsome.
    destruct (decide (rate s > 0)%R) as [Hr|Hr], (is_saturated s) eqn:Hsat;
      try (split; [assumption|reflexivity]);
      destruct Hundef as [Hnone _]; try (intros [? ?]; (discriminate || contradiction));
      rewrite Hnone in Hsome; now destruct Hsome.
  - intros H. apply Hdef in H as [-> _]. eauto.
Qed.

Section PhotometryRuns.
Local Open Scope R_scope.

Lemma analyze_photometry_runs (p : Photometer) (points : list (R * R)) :
  analysis_points p = Some points ->
  exptime (read_header (header (exposure p))) > 0 ->
  gain (read_header (header (exposure p))) > 0 ->
  exists a,
    analyze_photometry p = Analysed a
    /\ samples a =
         map (fun pt => measure_point (read_header (header (exposure p)))
                          (aperture_radius p) (annulus_inner p) (annulus_outer p)
                          (global_background (exposure p)).2
                          (observe (exposure p) pt)) points.
Proof.
  intros Hp He Hg. unfold analyze_photometry. rewrite Hp.
  rewrite decide_False by lra. rewrite decide_False by lra.
  eexists. split; reflexivity.
Qed.

Lemma read_header_empty :
  read_header ∅ =
    {| gain := 1; readnoise := 10; zp := 25; exptime := 9 / 10;
       saturation_limit := 65535 |}.
Proof.
  unfold read_header, hdr_get. now rewrite !lookup_empty.
Qed.

Lemma demo_photometer_runs (points : list (R * R)) :
  exists a,
    analyze_photometry (demo_photometer (Some points)) = Analysed a
    /\ samples a =
         map (fun pt => measure_point (read_header ∅) 5 8 12 1 demo_obs) points.
Proof.
  apply (analyze_photometry_runs (demo_photometer (Some points)) points);
    [reflexivity| |]; cbn [demo_photometer exposure demo_exposure header];
    rewrite read_header_empty; cbn; lra.
Qed.

End PhotometryRuns.

Lemma saturation_flag_and_magnitude_witness :
  exists a s,
    analyze_photometry (demo_photometer (Some [(0, 0)%R])) = Analysed a
    /\ samples a !! 0%nat = Some s
    /\ (is_saturated s = true
        <-> (raw_adu s > 8 / 10 * saturation_limit (read_header ∅))%R).
Proof.
  destruct (demo_photometer_runs [(0, 0)%R]) as (a & Ha & Hs).
  exists a, (measure_point (read_header ∅) 5 8 12 1 demo_obs).
  assert (Hl : samples a !! 0%nat
               = Some (measure_point (read_header ∅) 5 8 12 1 demo_obs))
    by now rewrite Hs.
  split; [exact Ha|]. split; [exact Hl|].
  exact (proj1 (proj2 (saturation_flag_and_magnitude _ a 0 _ Ha Hl))).
Defined.



(** C6, as stated: when the annulus statistic fails at a point, no field of
    that point's sample is undefined on that account: the error is computed
    from the global background noise. *)
Lemma annulus_failure_keeps_fields_defined :
  annulus_std demo_obs = None
  /\ ap_cutout demo_obs = CutoutRaised
  /\ let s := measure_point (read_header ∅) 5 8 12 1 demo_obs in
     fwhm s = None
     /\ err_rate s = flux_rate_error (raw_adu s) 1 (9 / 10) 1 (circle_area 5) 10.
Proof.
  rewrite read_header_empty. cbn. repeat split.
Qed.

Section NoiseModel.
Local Open Scope R_scope.


End NoiseModel.




(** ** Outliers *)

Section OutlierFacts.
Local Open Scope R_scope.

Lemma elem_of_np_where_from (k : nat) (mask : list bool) (i : nat) :
  i ∈ np_where_from k mask <-> exists j, i = (k + j)%nat /\ mask !! j = Some true.
Proof.
  revert k. induction mask as [|b mask IH]; intros k; cbn.
  - split; [intros H; inversion H|intros (j & _ & H); discriminate].
  - assert (Hrest : i ∈ np_where_from (S k) mask
                    <-> exists j, i = (k + S j)%nat /\ mask !! j = Some true).
    { rewrite IH. split; intros (j & -> & Hj); exists j; split; (lia || assumption). }
    destruct b.
    + rewrite elem_of_cons, Hrest. split.
      * intros [->|(j & -> & Hj)]; [exists 0%nat|exists (S j)]; split;
          (lia || assumption || reflexivity).
      * intros ([|j] & -> & Hj); [left; lia|right; exists j; split; [lia|exact Hj]].
    + rewrite Hrest. split.
      * intros (j & -> & Hj). exists (S j). split; [lia|exact Hj].
      * intros ([|j] & -> & Hj); [discriminate|]. exists j. split; [lia|exact Hj].
Qed.

Lemma elem_of_np_where (mask : list bool) (i : nat) :
  i ∈ np_where mask <-> mask !! i = Some true.
Proof.
  unfold np_where. rewrite elem_of_np_where_from. split.
  - intros (j & -> & Hj). exact Hj.
  - intros Hi. exists i. split; [reflexivity|exact Hi].
Qed.

Lemma elem_of_np_where_map {A} (f : A -> bool) (l : list A) (i : nat) :
  i ∈ np_where (map f l) <-> exists x, l !! i = Some x /\ f x = true.
Proof.
  rewrite elem_of_np_where, list_lookup_fmap_Some. split.
  - intros (x & Hf & Hx). eauto.
  - intros (x & Hx & Hf). eauto.
Qed.

Lemma select_length {A} (mask : list bool) (a : list A) :
  length mask = length a -> length (select mask a) = np_sum mask.
Proof.
  unfold np_sum. revert a. induction mask as [|b mask IH]; intros [|x a] Hlen;
    try discriminate; [reflexivity|].
  cbn in Hlen. injection Hlen as Hlen. cbn [select]. rewrite filter_cons.
  destruct b.
  - rewrite decide_True by reflexivity. cbn. now rewrite IH.
  - rewrite decide_False by discriminate. now apply IH.
Qed.

Lemma z_flag_zscore (l : list R) (i : nat) :
  i ∈ np_where (map z_flag (zscore l))
  <-> exists x, l !! i = Some x /\ pstd l <> 0
                /\ Rabs ((x - mean l) / pstd l) > 3.
Proof.
  rewrite elem_of_np_where_map. unfold zscore. split.
  - intros (z & Hz & Hflag). apply list_lookup_fmap_Some in Hz as (x & -> & Hx).
    exists x. split; [exact Hx|].
    destruct (decide (pstd l = 0)); [discriminate|].
    cbn in Hflag. apply bool_decide_eq_true in Hflag. now split.
  - intros (x & Hx & Hs & Hz). eexists. split.
    + rewrite list_lookup_fmap, Hx. reflexivity.
    + rewrite decide_False by assumption. cbn. now apply bool_decide_eq_true.
Qed.

Lemma iqr_flag_spec (q1 q3 x : R) :
  iqr_flag q1 q3 x = true
  <-> x < q1 - 15 / 10 * (q3 - q1) \/ x > q3 + 15 / 10 * (q3 - q1).
Proof.
  unfold iqr_flag. rewrite orb_true_iff, !bool_decide_eq_true. reflexivity.
Qed.

End OutlierFacts.

(** C8.  With [n] valid samples (positive flux rate, magnitude defined, not
    saturated) and [vf] their flux rates: if [n >= 2] the Z-score set is
    exactly the positions of [vf] whose z (over [vf]) has [|z| > 3] and the
    IQR set exactly the positions of [vf] whose value is below
    [Q1 - 1.5 IQR] or above [Q3 + 1.5 IQR]; if [n < 2] both sets are empty; in
    both cases every index returned is below [n]. *)
Theorem outlier_sets (p : Photometer) (a : Analysis) :
  analyze_photometry p = Analysed a ->
  let vf := select (valid a) (map rate (samples a)) in
  let q1 := percentile vf 25 in
  let q3 := percentile vf 75 in
  (forall i s, samples a !! i = Some s ->
     (valid a !! i = Some true
      <-> (rate s > 0)%R /\ is_Some (mag s) /\ is_saturated s = false))
  /\ length vf = np_sum (valid a)
  /\ ((2 <= np_sum (valid a))%nat ->
        (forall i, i ∈ out_z a
           <-> exists x, vf !! i = Some x /\ pstd vf <> 0%R
                         /\ (Rabs ((x - mean vf) / pstd vf) > 3)%R)
        /\ (forall i, i ∈ out_iqr a
              <-> exists x, vf !! i = Some x
                            /\ ((x < q1 - 15 / 10 * (q3 - q1))%R
                                \/ (x > q3 + 15 / 10 * (q3 - q1))%R)))
  /\ ((np_sum (valid a) < 2)%nat -> out_z a = [] /\ out_iqr a = [])
  /\ (forall i, i ∈ out_z a \/ i ∈ out_iqr a -> (i < np_sum (valid a))%nat).
Proof.
  intros Ha vf q1 q3.
  destruct (analyze_photometry_inv p a Ha) as (points & _ & _ & _ & _ & Hv & Ho).
  assert (Hlen : length vf = np_sum (valid a)).
  { apply select_length. now rewrite Hv, !length_map. }
  fold vf in Ho. unfold outliers in Ho.
  assert (Hrun : (2 <= np_sum (valid a))%nat ->
            (forall i, i ∈ out_z a
               <-> exists x, vf !! i = Some x /\ pstd vf <> 0%R
                             /\ (Rabs ((x - mean vf) / pstd vf) > 3)%R)
            /\ (forall i, i ∈ out_iqr a
                  <-> exists x, vf !! i = Some x
                                /\ ((x < q1 - 15 / 10 * (q3 - q1))%R
                                    \/ (x > q3 + 15 / 10 * (q3 - q1))%R))).
  { intros Hn. rewrite decide_True in Ho by assumption.
    injection Ho as -> ->. split; intros i.
    - apply z_flag_zscore.
    - rewrite elem_of_np_where_map. fold q1 q3.
      split; intros (x & Hx & Hf); exists x; (split; [exact Hx|]);
        now apply iqr_flag_spec. }
  assert (Hskip : (np_sum (valid a) < 2)%nat -> out_z a = [] /\ out_iqr a = []).
  { intros Hn. rewrite decide_False in Ho by lia. now injection Ho as -> ->. }
  split; [|split; [exact Hlen|split; [exact Hrun|split; [exact Hskip|]]]].
  - intros i s Hs. rewrite Hv, list_lookup_fmap, Hs. cbn.
    unfold is_valid. split.
    + intros Hi. injection Hi as Hi.
      apply andb_true_iff in Hi as [Hi Hsat]. apply andb_true_iff in Hi as [Hr Hm].
      apply bool_decide_eq_true in Hr, Hm. apply negb_true_iff in Hsat. auto.
    + intros (Hr & Hm & Hsat). f_equal.
      rewrite !andb_true_iff, !bool_decide_eq_true, negb_true_iff. auto.
  - intros i Hi. rewrite <- Hlen.
    destruct (decide (2 <= np_sum (valid a))%nat) as [Hn|Hn].
    + destruct (Hrun Hn) as [Hz Hq].
      destruct Hi as [Hi|Hi]; [apply Hz in Hi as (x & Hx & _)|apply Hq in Hi as (x & Hx & _)];
        now apply lookup_lt_Some in Hx.
    + destruct (Hskip ltac:(lia)) as [Hz Hq]. rewrite Hz, Hq in Hi.
      destruct Hi as [Hi|Hi]; inversion Hi.
Qed.

Lemma outlier_sets_witness :
  exists a,
    analyze_photometry (demo_photometer (Some [(0, 0); (1, 1); (2, 2)]%R)) = Analysed a
    /\ length (select (valid a) (map rate (samples a))) = np_sum (valid a)
    /\ (forall i, i ∈ out_z a \/ i ∈ out_iqr a -> (i < np_sum (valid a))%nat).
Proof.
  destruct (demo_photometer_runs [(0, 0); (1, 1); (2, 2)]%R) as (a & Ha & _).
  exists a. split; [exact Ha|].
  pose proof (outlier_sets _ a Ha) as (_ & Hlen & _ & _ & Hrange).
  split; [exact Hlen|exact Hrange].
Defined.

(** ** Header defaults *)

Section HeaderFacts.
Local Open Scope R_scope.

Lemma hdr_get_present (hdr : gmap string R) (key : string) (d v : R) :
  hdr !! key = Some v -> hdr_get hdr key d = v.
Proof.
  unfold hdr_get. now intros ->.
Qed.

Lemma hdr_get_absent (hdr : gmap string R) (key : string) (d : R) :
  hdr !! key = None -> hdr_get hdr key d = d.
Proof.
  unfold hdr_get. now intros ->.
Qed.

Lemma hdr_get_prefers (hdr : gmap string R) (key alt : string) (d : R) :
  prefers hdr key alt d (hdr_get hdr key (hdr_get hdr alt d)).
Proof.
  unfold prefers, hdr_get. repeat split.
  - now intros x ->.
  - now intros x -> ->.
  - now intros -> ->.
Qed.

Lemma adicionar_appends (st : Temporal) (f : option FitsFile) ps fs :
  exists d,
    dados_temporais_satelite (adicionar_dados_temporais st f ps fs)
    = dados_temporais_satelite st ++ [d]
    /\ timestamp d = (extrair_tempo_fits f).1
    /\ exp_time d = (extrair_tempo_fits f).2
    /\ positions d = ps
    /\ ((extrair_tempo_fits f).1 = None ->
          tempo_relativo d = INR (length (dados_temporais_satelite st)) * 30).
Proof.
  unfold adicionar_dados_temporais.
  destruct (extrair_tempo_fits f) as [ts et]. eexists. cbn.
  split; [reflexivity|]. repeat split. now intros ->.
Qed.

End HeaderFacts.

(** C10 (as amended).  The analysis reads GAIN else EGAIN else 1.0, RDNOISE
    else READNOISE else 10.0, ZEROPT else MAGZERO else 25.0, EXPTIME else
    0.9 and SATURATE else 65535.  The temporal aggregator reads EXPTIME
    else 1.0 (and 1.0 when the file or its date cannot be read); when
    DATE-OBS is absent the record has no timestamp and its relative time is
    the number of records accumulated so far times 30 s. *)
Theorem header_defaults (hdr : gmap string R) :
  let hp := read_header hdr in
  prefers hdr "GAIN" "EGAIN" 1 (gain hp)
  /\ prefers hdr "RDNOISE" "READNOISE" 10 (readnoise hp)
  /\ prefers hdr "ZEROPT" "MAGZERO" 25 (zp hp)
  /\ (forall x, hdr !! "EXPTIME" = Some x -> exptime hp = x)
  /\ (hdr !! "EXPTIME" = None -> exptime hp = (9 / 10)%R)
  /\ (forall x, hdr !! "SATURATE" = Some x -> saturation_limit hp = x)
  /\ (hdr !! "SATURATE" = None -> saturation_limit hp = 65535%R)
  /\ (forall date x, hdr !! "EXPTIME" = Some x -> date <> Some None ->
        (extrair_tempo_fits (Some {| cards := hdr; date_obs := date |})).2 = x)
  /\ (forall date, hdr !! "EXPTIME" = None ->
        (extrair_tempo_fits (Some {| cards := hdr; date_obs := date |})).2 = 1%R)
  /\ (extrair_tempo_fits (Some {| cards := hdr; date_obs := Some None |})).2 = 1%R
  /\ (extrair_tempo_fits None).2 = 1%R
  /\ (forall st ps fs,
        exists d,
          dados_temporais_satelite
            (adicionar_dados_temporais st (Some {| cards := hdr; date_obs := None |}) ps fs)
          = dados_temporais_satelite st ++ [d]
          /\ timestamp d = None
          /\ tempo_relativo d = (INR (length (dados_temporais_satelite st)) * 30)%R).
Proof.
  intros hp. unfold hp, read_header. cbn [gain readnoise zp exptime saturation_limit].
  split; [apply hdr_get_prefers|]. split; [apply hdr_get_prefers|].
  split; [apply hdr_get_prefers|].
  split; [intros x; apply hdr_get_present|]. split; [apply hdr_get_absent|].
  split; [intros x; apply hdr_get_present|]. split; [apply hdr_get_absent|].
  split.
  { intros date x Hx Hd. cbn.
    destruct date as [[t|]|]; cbn; try (now apply hdr_get_present). now destruct Hd. }
  split.
  { intros date Hx. cbn.
    destruct date as [[t|]|]; cbn; try (now apply hdr_get_absent). reflexivity. }
  split; [reflexivity|]. split; [reflexivity|].
  intros st ps fs.
  destruct (adicionar_appends st (Some {| cards := hdr; date_obs := None |}) ps fs)
    as (d & Hd & Hts & _ & _ & Hrel).
  exists d. split; [exact Hd|]. split; [exact Hts|]. now apply Hrel.
Qed.

(** C10, as stated: for a header without EXPTIME the analysis takes 0.9 s and
    the temporal aggregator takes 1 s. *)
Lemma exptime_default_differs :
  exptime (read_header ∅) = (9 / 10)%R
  /\ (extrair_tempo_fits (Some {| cards := ∅; date_obs := None |})).2 = 1%R
  /\ (extrair_tempo_fits (Some {| cards := ∅; date_obs := None |})).2
     <> exptime (read_header ∅).
Proof.
  rewrite read_header_empty. cbn. unfold hdr_get. rewrite lookup_empty.
  repeat split. lra.
Qed.

(** ** Time axis *)

Section TemporalFacts.
Local Open Scope R_scope.

Lemma linspace_length (a b : R) (n : nat) : length (linspace a b n) = n.
Proof.
  destruct n as [|[|n]]; [reflexivity..|].
  unfold linspace. now rewrite length_map, length_seq.
Qed.

Lemma linspace_lookup (a b : R) (n i : nat) :
  (2 <= n)%nat -> (i < n)%nat ->
  linspace a b n !! i
  = Some (if decide (i = n - 1)%nat then b else INR i * ((b - a) / INR (n - 1)) + a).
Proof.
  intros Hn Hi. destruct n as [|[|n]]; [lia..|].
  unfold linspace. rewrite list_lookup_fmap, lookup_seq_lt by lia. reflexivity.
Qed.

Lemma linspace_head (a b : R) (n : nat) : (1 <= n)%nat -> head (linspace a b n) = Some a.
Proof.
  intros Hn. destruct n as [|[|n]]; [lia|reflexivity|].
  rewrite head_lookup, linspace_lookup by lia.
  rewrite decide_False by lia. f_equal. cbn [INR]. lra.
Qed.

Lemma linspace_last (a b : R) (n : nat) : (2 <= n)%nat -> last (linspace a b n) = Some b.
Proof.
  intros Hn. rewrite last_lookup, linspace_length.
  rewrite linspace_lookup by lia. now rewrite decide_True by lia.
Qed.

Lemma eixo_from_length (acc : R) (ds : list Dados) :
  length (eixo_from acc ds) = length ds.
Proof.
  revert acc. induction ds as [|d ds IH]; intros acc; cbn; [reflexivity|].
  now rewrite IH.
Qed.

Lemma eixo_from_lookup (acc : R) (ds : list Dados) (k : nat) (d : Dados) :
  ds !! k = Some d ->
  eixo_from acc ds !! k
  = Some (linspace (acc + elapsed ds k) (acc + elapsed ds k + exp_time d)
            (length (positions d))).
Proof.
  revert acc k. induction ds as [|d0 ds IH]; intros acc k Hk; [discriminate|].
  destruct k as [|k]; cbn in Hk |- *.
  - injection Hk as ->. unfold elapsed. cbn. now rewrite Rplus_0_r.
  - rewrite (IH _ _ Hk). unfold elapsed, Rsum. cbn. f_equal. f_equal; lra.
Qed.

Lemma Rsum_app (l1 l2 : list R) : Rsum (l1 ++ l2) = Rsum l1 + Rsum l2.
Proof.
  unfold Rsum. induction l1 as [|x l1 IH]; cbn; [lra|]. rewrite IH. lra.
Qed.

Lemma elapsed_S (ds : list Dados) (k : nat) (d : Dados) :
  ds !! k = Some d -> elapsed ds (S k) = elapsed ds k + exp_time d.
Proof.
  intros Hk. unfold elapsed. rewrite (take_S_r _ _ _ Hk), map_app, Rsum_app.
  unfold Rsum. cbn. lra.
Qed.

(** Asymmetry of the key comparison. *)
Lemma key_ltb_asym (a b : Dados) : key_ltb a b = true -> key_ltb b a = false.
Proof.
  unfold key_ltb, key_lt.
  destruct (key_of a) as [s|r], (key_of b) as [t|q]; try discriminate;
    rewrite bool_decide_eq_true, bool_decide_eq_false; [lia|lra].
Qed.

Lemma insert_by_key_perm (x : Dados) (l : list Dados) : insert_by_key x l ≡ₚ x :: l.
Proof.
  induction l as [|h t IH]; cbn; [reflexivity|].
  destruct (key_ltb h x); [|reflexivity].
  rewrite IH. apply Permutation_swap.
Qed.

Lemma insert_by_key_sorted (x : Dados) (l : list Dados) :
  Sorted key_le l -> Sorted key_le (insert_by_key x l).
Proof.
  induction 1 as [|h t Hs IH Hhd]; cbn; [repeat constructor|].
  destruct (key_ltb h x) eqn:Hlt.
  - constructor; [exact IH|].
    destruct Hhd as [|h' t' Hle]; cbn.
    + constructor. unfold key_le. now apply key_ltb_asym.
    + destruct (key_ltb h' x); constructor; [exact Hle|].
      unfold key_le. now apply key_ltb_asym.
  - repeat constructor; assumption.
Qed.

Lemma sorted_by_key_ok (l : list Dados) :
  mixed_keys l = false ->
  exists ord, sorted_by_key l = Ok ord /\ ord ≡ₚ l /\ Sorted key_le ord.
Proof.
  intros Hmix. unfold sorted_by_key. rewrite Hmix. eexists. split; [reflexivity|].
  clear Hmix. induction l as [|x l [IHp IHs]]; cbn.
  - split; [reflexivity|constructor].
  - split; [now rewrite insert_by_key_perm, IHp|now apply insert_by_key_sorted].
Qed.

End TemporalFacts.

(** C4, what holds.  When no [Timestamp] key meets a float key, the records
    are sorted (stably) by timestamp, or by relative time when no record has
    a timestamp; the axis of the exposure at sorted position [k] is
    [linspace] over [[T, T + exp_time]] with [T] the sum of the exposure
    times before it; and for two consecutive exposures of at least two and
    at least one samples the last time of the first is the first time of the
    second. *)
Theorem time_axis_continuous (dados : list Dados) :
  dados <> [] -> mixed_keys dados = false ->
  exists eixo ord,
    criar_eixo_temporal_continuo dados = Ok (Some (eixo, ord))
    /\ ord ≡ₚ dados
    /\ Sorted key_le ord
    /\ length eixo = length ord
    /\ (forall k d, ord !! k = Some d ->
          eixo !! k = Some (linspace (elapsed ord k) (elapsed ord k + exp_time d)
                              (length (positions d))))
    /\ (forall k d1 d2 t1 t2,
          ord !! k = Some d1 -> ord !! S k = Some d2 ->
          eixo !! k = Some t1 -> eixo !! S k = Some t2 ->
          (2 <= length (positions d1))%nat -> (1 <= length (positions d2))%nat ->
          last t1 = Some (elapsed ord (S k)) /\ head t2 = Some (elapsed ord (S k))).
Proof.
  intros Hne Hmix.
  destruct (sorted_by_key_ok dados Hmix) as (ord & Hord & Hperm & Hsorted).
  assert (Hlk : forall k d, ord !! k = Some d ->
            eixo_from 0 ord !! k
            = Some (linspace (elapsed ord k) (elapsed ord k + exp_time d)
                      (length (positions d)))).
  { intros k d Hk. rewrite (eixo_from_lookup 0 ord k d Hk). do 2 f_equal; lra. }
  exists (eixo_from 0 ord), ord.
  split.
  { unfold criar_eixo_temporal_continuo. destruct dados; [contradiction|].
    now rewrite Hord. }
  split; [exact Hperm|]. split; [exact Hsorted|].
  split; [apply eixo_from_length|]. split; [exact Hlk|].
  intros k d1 d2 t1 t2 H1 H2 Ht1 Ht2 Hn1 Hn2.
  rewrite (Hlk _ _ H1) in Ht1. rewrite (Hlk _ _ H2) in Ht2.
  injection Ht1 as <-. injection Ht2 as <-.
  rewrite linspace_last, linspace_head by assumption.
  now rewrite (elapsed_S ord k d1 H1).
Qed.

Lemma mixed_keys_raise (dados : list Dados) :
  mixed_keys dados = true -> criar_eixo_temporal_continuo dados = Raise TypeError.
Proof.
  intros Hmix. unfold criar_eixo_temporal_continuo, sorted_by_key.
  destruct dados; [discriminate|]. now rewrite Hmix.
Qed.

(** C4, the failing input.  After an exposure with DATE-OBS and one without,
    the second record has no timestamp and the relative time [1 * 30]; the
    sort then compares a [Timestamp] key with a float key, and building the
    axis raises [TypeError] instead of falling back to the relative time. *)
Theorem time_axis_mixed_keys_raises :
  map timestamp (dados_temporais_satelite two_exposures) = [Some 0%Z; None]
  /\ map key_of (dados_temporais_satelite two_exposures)
     = [KeyTime 0; KeyRel (INR 1 * 30)]
  /\ criar_eixo_temporal_continuo (dados_temporais_satelite two_exposures)
     = Raise TypeError.
Proof.
  split; [reflexivity|]. split; [reflexivity|].
  apply mixed_keys_raise. reflexivity.
Qed.

(** ** Endpoint resolver *)

Section ResolverNoFragment.
Local Open Scope R_scope.

Lemma filter_all_short (streaks : list Streak.t) :
  Forall (fun s => Streak.length s < min_length) streaks ->
  filter (fun s => Streak.length s >= min_length) streaks = [].
Proof.
  induction 1 as [|s l Hs _ IH]; [reflexivity|].
  rewrite filter_cons, decide_False by lra. exact IH.
Qed.

End ResolverNoFragment.

(** C7, the failing inputs.  When the detector returns no fragment, or only
    fragments shorter than [min_length], [detect_streak_endpoints] returns
    [None] after its warning and [find_streak], which unpacks the result
    into two points, raises [TypeError]. *)
Theorem find_streak_raises_without_fragment
  (streak_eqb : Streak.t -> Streak.t -> bool) (streaks : list Streak.t) :
  Forall (fun s => (Streak.length s < min_length)%R) streaks ->
  detect_streak_endpoints streak_eqb streaks = None
  /\ find_streak streak_eqb streaks = Raise TypeError.
Proof.
  intros Hshort.
  assert (Hnone : detect_streak_endpoints streak_eqb streaks = None).
  { unfold detect_streak_endpoints. destruct streaks; [reflexivity|].
    now rewrite (filter_all_short _ Hshort). }
  split; [exact Hnone|]. unfold find_streak. now rewrite Hnone.
Qed.

Lemma find_streak_raises_without_fragment_witness :
  find_streak (fun _ _ => false) [] = Raise TypeError
  /\ find_streak (fun _ _ => false) [short_streak] = Raise TypeError.
Proof.
  split.
  - apply (find_streak_raises_without_fragment (fun _ _ => false) []). constructor.
  - apply (find_streak_raises_without_fragment (fun _ _ => false) [short_streak]).
    repeat constructor. unfold short_streak, min_length. cbn. lra.
Defined.

Section EnumerateFacts.
Context {A : Type}.

Lemma elem_of_enumerate_from (n : nat) (l : list A) (j : nat) (x : A) :
  (j, x) ∈ enumerate_from n l <-> n <= j /\ l !! (j - n) = Some x.
Proof.
  revert n. induction l as [|y l IH]; intros n; cbn.
  - split; [intros H; inversion H|intros [_ H]; discriminate].
  - rewrite elem_of_cons, IH. split.
    + intros [Heq|[Hle Hl]].
      * injection Heq as -> ->. split; [lia|]. now rewrite Nat.sub_diag.
      * split; [lia|]. replace (j - n) with (S (j - S n)) by lia. exact Hl.
    + intros [Hle Hl]. destruct (decide (j = n)) as [->|Hne].
      * left. rewrite Nat.sub_diag in Hl. cbn in Hl. now injection Hl as ->.
      * right. split; [lia|]. replace (j - n) with (S (j - S n)) in Hl by lia.
        exact Hl.
Qed.

Lemma elem_of_enumerate (l : list A) (j : nat) (x : A) :
  (j, x) ∈ enumerate l <-> l !! j = Some x.
Proof.
  unfold enumerate. rewrite elem_of_enumerate_from, Nat.sub_0_r.
  split; [now intros [_ H]|intros H; split; [lia|exact H]].
Qed.

Lemma enumerate_from_lookup (n : nat) (l : list A) (k : nat) (x : A) :
  l !! k = Some x -> enumerate_from n l !! k = Some (n + k, x).
Proof.
  revert n k. induction l as [|y l IH]; intros n k Hk; [discriminate|].
  destruct k as [|k]; simpl in *.
  - injection Hk as ->. now rewrite Nat.add_0_r.
  - rewrite (IH (S n) k Hk). do 2 f_equal. lia.
Qed.

Lemma enumerate_from_lookup_inv (n : nat) (l : list A) (k j : nat) (x : A) :
  enumerate_from n l !! k = Some (j, x) -> j = n + k /\ l !! k = Some x.
Proof.
  revert n k. induction l as [|y l IH]; intros n k Hk; [discriminate|].
  destruct k as [|k]; simpl in *.
  - injection Hk as -> ->. split; [lia|reflexivity].
  - apply IH in Hk as [-> Hk]. split; [lia|exact Hk].
Qed.

Lemma enumerate_from_sorted (n : nat) (l : list A) :
  StronglySorted idx_lt (enumerate_from n l).
Proof.
  revert n. induction l as [|y l IH]; intros n; cbn; constructor; [apply IH|].
  apply Forall_forall. intros [j x] Hj.
  apply elem_of_enumerate_from in Hj as [Hle _].
  unfold idx_lt. cbn. lia.
Qed.

Lemma StronglySorted_idx_filter (P : nat * A -> Prop) `{!forall x, Decision (P x)}
  (l : list (nat * A)) :
  StronglySorted idx_lt l -> StronglySorted idx_lt (filter P l).
Proof.
  induction 1 as [|x l Hs IH Hx]; [constructor|].
  rewrite filter_cons. destruct (decide (P x)); [|exact IH].
  constructor; [exact IH|].
  apply Forall_forall. intros y Hy. rewrite Forall_forall in Hx. apply Hx.
  now apply list_elem_of_filter in Hy as [_ Hy].
Qed.

Lemma StronglySorted_idx_NoDup (l : list (nat * A)) :
  StronglySorted idx_lt l -> NoDup l.*1.
Proof.
  induction 1 as [|x l Hs IH Hx]; cbn; constructor; [|exact IH].
  intros Hin. apply list_elem_of_fmap in Hin as (y & Hy1 & Hy).
  rewrite Forall_forall in Hx. apply Hx in Hy.
  unfold idx_lt in Hy. lia.
Qed.

End EnumerateFacts.

Section GroupingFacts.
Local Open Scope R_scope.
Variable max_d : R.

#[local] Abbreviation fragment := (nat * Streak.t)%type.

Lemma existsb_elem_of {A} (f : A -> bool) (l : list A) :
  existsb f l = true <-> exists x, x ∈ l /\ f x = true.
Proof.
  rewrite existsb_exists. split; intros (x & Hx & Hf); exists x;
    (split; [now apply list_elem_of_In|exact Hf]).
Qed.

(** [stitch] keeps the group it starts from and appends a selection of the
    candidates, in their order. *)
Lemma stitch_app (final_group rest : list fragment) :
  exists acc,
    stitch max_d final_group rest = final_group ++ acc /\ acc `sublist_of` rest.
Proof.
  revert final_group. induction rest as [|c rest IH]; intros fg; cbn.
  - exists []. split; [now rewrite app_nil_r|constructor].
  - destruct (existsb _ fg).
    + destruct (IH (fg ++ [c])) as (acc & -> & Hsub). exists (c :: acc).
      split; [now rewrite <- app_assoc|now constructor].
    + destruct (IH fg) as (acc & -> & Hsub). exists acc.
      split; [reflexivity|now constructor].
Qed.

Lemma stitch_elem_of (final_group rest : list fragment) (x : fragment) :
  x ∈ stitch max_d final_group rest -> x ∈ final_group \/ x ∈ rest.
Proof.
  destruct (stitch_app final_group rest) as (acc & -> & Hsub).
  rewrite elem_of_app. intros [H|H]; [now left|right].
  eapply elem_of_sublist; eassumption.
Qed.

Lemma stitch_keeps (final_group rest : list fragment) (x : fragment) :
  x ∈ final_group -> x ∈ stitch max_d final_group rest.
Proof.
  destruct (stitch_app final_group rest) as (acc & -> & _).
  rewrite elem_of_app. now left.
Qed.

(** A candidate is in the stitched group iff it connects to a member
    accepted before it. *)
Lemma stitch_spec (final_group rest : list fragment) :
  StronglySorted idx_lt rest ->
  (forall y x, y ∈ final_group -> x ∈ rest -> (y.1 < x.1)%nat) ->
  forall x,
    x ∈ stitch max_d final_group rest
    <-> x ∈ final_group
        \/ (x ∈ rest
            /\ exists y, y ∈ stitch max_d final_group rest /\ (y.1 < x.1)%nat
                         /\ min_dist y.2 x.2 <= max_d).
Proof.
  revert final_group. induction rest as [|c rest IH]; intros fg Hsorted Hlt x.
  - cbn. split; [now left|]. intros [H|[H _]]; [exact H|inversion H].
  - apply StronglySorted_inv in Hsorted as [Hsorted Hc].
    rewrite Forall_forall in Hc. cbn [stitch].
    destruct (existsb _ fg) eqn:Hex.
    + apply existsb_elem_of in Hex as (y0 & Hy0 & Hcon).
      apply bool_decide_eq_true in Hcon.
      assert (Hlt' : forall y x, y ∈ fg ++ [c] -> x ∈ rest -> (y.1 < x.1)%nat).
      { intros y z Hy Hz. apply elem_of_app in Hy as [Hy|Hy].
        - apply Hlt; [exact Hy|now right].
        - apply list_elem_of_singleton in Hy as ->. now apply Hc. }
      rewrite (IH _ Hsorted Hlt' x), elem_of_app, list_elem_of_singleton, elem_of_cons.
      split.
      * intros [[H| ->]|H]; [now left| |right; split; [now right|apply H]].
        right. split; [now left|]. exists y0.
        split; [apply stitch_keeps, elem_of_app; now left|].
        split; [apply Hlt; [exact Hy0|now left]|exact Hcon].
      * intros [H|[[->|H] HE]]; [now left; left|now left; right|now right].
    + rewrite (IH _ Hsorted (fun y z Hy Hz => Hlt y z Hy (list_elem_of_further _ _ _ Hz)) x).
      rewrite elem_of_cons. split.
      * intros [H|[H HE]]; [now left|right; split; [now right|exact HE]].
      * intros [H|[[->|H] HE]]; [now left| |now right].
        exfalso. destruct HE as (y & Hy & Hyc & Hcon).
        apply stitch_elem_of in Hy as [Hy|Hy].
        -- assert (Hex' : existsb (fun existing : fragment =>
                     bool_decide (min_dist existing.2 c.2 <= max_d)) fg = true).
           { apply existsb_elem_of. exists y. split; [exact Hy|].
             now apply bool_decide_eq_true. }
           rewrite Hex' in Hex. discriminate.
        -- apply Hc in Hy. unfold idx_lt in Hy. lia.
Qed.

End GroupingFacts.

Section GroupLoopFacts.
Local Open Scope R_scope.
Variable streak_eqb : Streak.t -> Streak.t -> bool.
Variables tol max_d : R.
Variable valid_streaks : list Streak.t.

(** No fragment compares equal to a later one: [list.index] finds every
    fragment at its own position. *)
Hypothesis distinct :
  forall k j sk sj,
    (k < j)%nat -> valid_streaks !! k = Some sk -> valid_streaks !! j = Some sj ->
    streak_eqb sk sj = false.

#[local] Abbreviation fragment := (nat * Streak.t)%type.

Lemma list_index_self (j : nat) (sj : Streak.t) :
  valid_streaks !! j = Some sj -> list_index streak_eqb valid_streaks (j, sj) = j.
Proof.
  intros Hj. unfold list_index.
  assert (Hfind : list_find (fun ks : fragment => ks.1 = j \/ streak_eqb ks.2 sj = true)
                    (enumerate valid_streaks) = Some (j, (j, sj))).
  { apply list_find_Some. split; [exact (enumerate_from_lookup 0 _ j sj Hj)|].
    split; [now left|]. intros k [k' sk] Hk Hlt.
    apply enumerate_from_lookup_inv in Hk as [-> Hk]. cbn.
    intros [Heq|Heq]; [lia|]. rewrite (distinct k j sk sj Hlt Hk Hj) in Heq.
    discriminate. }
  cbn [fst snd]. now rewrite Hfind.
Qed.

Lemma similar_angle_spec (used : gset nat) (i : nat) (s1 : Streak.t) (j : nat) (s2 : Streak.t) :
  (j, s2) ∈ similar_angle tol valid_streaks used i s1
  <-> valid_streaks !! j = Some s2 /\ j <> i /\ (j ∉ used)
      /\ angle_diff (get_angle s1) (get_angle s2) <= tol.
Proof.
  unfold similar_angle. rewrite list_elem_of_filter, elem_of_enumerate. cbn. tauto.
Qed.

Lemma similar_angle_sorted (used : gset nat) (i : nat) (s1 : Streak.t) :
  StronglySorted idx_lt (similar_angle tol valid_streaks used i s1).
Proof.
  apply StronglySorted_idx_filter, enumerate_from_sorted.
Qed.

(** The group formed at a seed [i] that is not used, when every earlier
    index is. *)
Lemma seed_group_spec (used : gset nat) (i : nat) (s1 : Streak.t) :
  valid_streaks !! i = Some s1 -> i ∉ used ->
  (forall k, (k < i)%nat -> k ∈ used) ->
  let group := stitch max_d [(i, s1)] (similar_angle tol valid_streaks used i s1) in
  head group = Some (i, s1)
  /\ NoDup group.*1
  /\ (forall k, k ∈ group.*1 -> k ∉ used)
  /\ (forall k, k ∈ final_indices streak_eqb valid_streaks i group <-> k ∈ group.*1)
  /\ (forall j s2,
        valid_streaks !! j = Some s2 -> j <> i -> j ∉ used ->
        (i < j)%nat
        /\ ((j, s2) ∈ group
            <-> angle_diff (get_angle s1) (get_angle s2) <= tol
                /\ exists k sk, (k, sk) ∈ group /\ (k < j)%nat
                                /\ min_dist sk s2 <= max_d)).
Proof.
  intros Hi Hused Hbefore group.
  set (cands := similar_angle tol valid_streaks used i s1) in *.
  assert (Hcand : forall j s2, (j, s2) ∈ cands ->
            valid_streaks !! j = Some s2 /\ (i < j)%nat /\ j ∉ used).
  { intros j s2 Hj. apply similar_angle_spec in Hj as (Hv & Hne & Hu & _).
    split; [exact Hv|]. split; [|exact Hu].
    destruct (decide (j < i)%nat) as [Hlt|]; [|lia]. now apply Hbefore in Hlt. }
  destruct (stitch_app max_d [(i, s1)] cands) as (acc & Hg & Hsub).
  fold group in Hg. cbn in Hg.
  assert (Hacc : forall j s2, (j, s2) ∈ acc -> (j, s2) ∈ cands).
  { intros j s2 Hj. eapply elem_of_sublist; eassumption. }
  split; [now rewrite Hg|].
  split.
  { rewrite Hg. cbn. constructor.
    - intros Hin. apply list_elem_of_fmap in Hin as ([j s2] & Hj1 & Hj).
      cbn in Hj1. subst j. apply Hacc, Hcand in Hj. lia.
    - eapply sublist_NoDup; [|apply fmap_sublist, Hsub].
      apply StronglySorted_idx_NoDup, similar_angle_sorted. }
  split.
  { intros k Hk. rewrite Hg in Hk. cbn in Hk. apply elem_of_cons in Hk as [->|Hk];
      [exact Hused|].
    apply list_elem_of_fmap in Hk as ([j s2] & -> & Hj). now apply Hacc, Hcand in Hj. }
  split.
  { intros k. unfold final_indices. rewrite Hg. cbn [tail fmap list_fmap].
    rewrite elem_of_union, elem_of_singleton, elem_of_list_to_set, elem_of_cons.
    rewrite !list_elem_of_fmap. cbn.
    split; (intros [->|([j s2] & -> & Hj)]; [now left|right; exists (j, s2)]);
      (split; [|exact Hj]); cbn;
      apply Hacc, Hcand in Hj as (Hv & _); now rewrite (list_index_self j s2 Hv). }
  intros j s2 Hj Hne Hju.
  assert (Hij : (i < j)%nat).
  { destruct (decide (j < i)%nat) as [Hlt|]; [|lia]. now apply Hbefore in Hlt. }
  split; [exact Hij|].
  unfold group. rewrite stitch_spec.
  - rewrite list_elem_of_singleton. fold cands. fold group. split.
    + intros [Heq|[Hc (y & Hy & Hlt & Hcon)]]; [injection Heq as -> _; lia|].
      apply similar_angle_spec in Hc as (_ & _ & _ & Hang).
      split; [exact Hang|]. exists y.1, y.2. now destruct y.
    + intros [Hang (k & sk & Hk & Hlt & Hcon)]. right. split.
      * apply similar_angle_spec. auto.
      * exists (k, sk). auto.
  - apply similar_angle_sorted.
  - intros y x Hy Hx. apply list_elem_of_singleton in Hy as ->. destruct x as [j' s'].
    apply Hcand in Hx. cbn. lia.
Qed.

Lemma group_loop_spec (l : list Streak.t) :
  forall (pre : list Streak.t) (used : gset nat),
    valid_streaks = pre ++ l ->
    (forall k, (k < length pre)%nat -> k ∈ used) ->
    let groups :=
      group_loop streak_eqb tol max_d valid_streaks (enumerate_from (length pre) l) used in
    NoDup (concat groups).*1
    /\ (forall k, k ∈ (concat groups).*1 -> k ∉ used)
    /\ forall before group after,
         groups = before ++ group :: after ->
         exists i s1,
           head group = Some (i, s1) /\ valid_streaks !! i = Some s1
           /\ (i ∉ used) /\ (i ∉ (concat before).*1)
           /\ forall j s2,
                valid_streaks !! j = Some s2 -> j <> i -> j ∉ used ->
                j ∉ (concat before).*1 ->
                (i < j)%nat
                /\ ((j, s2) ∈ group
                    <-> angle_diff (get_angle s1) (get_angle s2) <= tol
                        /\ exists k sk, (k, sk) ∈ group /\ (k < j)%nat
                                        /\ min_dist sk s2 <= max_d).
Proof.
  induction l as [|s1 l IH]; intros pre used Hv Hpre; cbn zeta.
  - cbn. split; [constructor|]. split; [intros k Hk; inversion Hk|].
    intros [|? ?] ? ? Heq; discriminate.
  - cbn [enumerate_from group_loop].
    assert (Hv' : valid_streaks = (pre ++ [s1]) ++ l) by now rewrite <- app_assoc.
    assert (Hlen : length (pre ++ [s1]) = S (length pre))
      by (rewrite length_app; cbn; lia).
    destruct (decide (length pre ∈ used)) as [Hin|Hnin].
    + specialize (IH (pre ++ [s1]) used Hv'). rewrite Hlen in IH. apply IH.
      intros k Hk. destruct (decide (k = length pre)) as [->|]; [exact Hin|].
      apply Hpre. lia.
    + assert (Hs1 : valid_streaks !! length pre = Some s1).
      { rewrite Hv. now rewrite list_lookup_middle. }
      destruct (seed_group_spec used (length pre) s1 Hs1 Hnin Hpre)
        as (Hhead & Hnodup & Hfresh & Hfinal & Hmem).
      set (g0 := stitch max_d [(length pre, s1)]
                   (similar_angle tol valid_streaks used (length pre) s1)) in *.
      set (used' := used ∪ final_indices streak_eqb valid_streaks (length pre) g0).
      assert (Hused' : forall k, k ∈ used' <-> k ∈ used \/ k ∈ g0.*1).
      { intros k. unfold used'. now rewrite elem_of_union, Hfinal. }
      assert (Hseed : length pre ∈ g0.*1).
      { destruct g0 as [|x g0']; [discriminate|]. cbn in Hhead.
        injection Hhead as ->. now left. }
      specialize (IH (pre ++ [s1]) used' Hv'). rewrite Hlen in IH.
      destruct IH as (IHnodup & IHfresh & IHmem).
      { intros k Hk. apply Hused'.
        destruct (decide (k = length pre)) as [->|]; [now right|].
        left. apply Hpre. lia. }
      set (rest := group_loop streak_eqb tol max_d valid_streaks
                     (enumerate_from (S (length pre)) l) used') in *.
      split; [|split].
      * cbn. rewrite fmap_app. apply NoDup_app. split; [exact Hnodup|].
        split; [|exact IHnodup].
        intros k Hk Hk'. apply IHfresh in Hk'. apply Hk', Hused'. now right.
      * intros k Hk. cbn in Hk. rewrite fmap_app in Hk.
        apply elem_of_app in Hk as [Hk|Hk]; [now apply Hfresh|].
        apply IHfresh in Hk. intros Hu. apply Hk, Hused'. now left.
      * intros before group after Heq. destruct before as [|b before].
        -- cbn in Heq. injection Heq as <- _.
           exists (length pre), s1. split; [exact Hhead|]. split; [exact Hs1|].
           split; [exact Hnin|]. split; [intros H; inversion H|].
           intros j s2 Hj Hne Hju _. now apply Hmem.
        -- cbn in Heq. injection Heq as <- Heq.
           destruct (IHmem before group after Heq)
             as (i & si & Hh & Hvi & Hiu & Hib & Hchar).
           exists i, si. split; [exact Hh|]. split; [exact Hvi|].
           split; [intros Hu; apply Hiu, Hused'; now left|].
           split.
           { cbn. rewrite fmap_app, elem_of_app. intros [Hg|Hb]; [|now apply Hib].
             apply Hiu, Hused'. now right. }
           intros j s2 Hj Hne Hju Hjb. cbn in Hjb.
           rewrite fmap_app, elem_of_app in Hjb.
           apply Hchar; [exact Hj|exact Hne| |tauto].
           intros Hu. apply Hused' in Hu. tauto.
Qed.

End GroupLoopFacts.



Section ScoringFacts.
Local Open Scope R_scope.

Lemma dist_nonneg (p q : point) : 0 <= dist p q.
Proof. apply sqrt_pos. Qed.

Lemma dist_sym (p q : point) : dist p q = dist q p.
Proof. unfold dist. f_equal. ring. Qed.

Lemma dist_self (p : point) : dist p p = 0.
Proof.
  unfold dist. replace ((p.1 - p.1) ^ 2 + (p.2 - p.2) ^ 2) with 0 by ring.
  apply sqrt_0.
Qed.

Lemma elem_of_index_pairs {A} (l : list A) (p q : A) :
  (p, q) ∈ index_pairs l -> p ∈ l /\ q ∈ l.
Proof.
  induction l as [|x l IH]; cbn; [intros H; inversion H|].
  rewrite elem_of_app, list_elem_of_fmap. intros [(y & Heq & Hy)|H].
  - injection Heq as -> ->. split; [now left|now right].
  - apply IH in H as [Hp Hq]. split; now right.
Qed.

Lemma index_pairs_complete {A} `{EqDecision A} (l : list A) (p q : A) :
  p ∈ l -> q ∈ l -> p <> q -> (p, q) ∈ index_pairs l \/ (q, p) ∈ index_pairs l.
Proof.
  induction l as [|x l IH]; intros Hp Hq Hne; [inversion Hp|].
  cbn. rewrite !elem_of_app, !list_elem_of_fmap.
  apply elem_of_cons in Hp as [->|Hp], Hq as [->|Hq].
  - contradiction.
  - left. left. eauto.
  - right. left. eauto.
  - destruct (IH Hp Hq Hne); [left|right]; now right.
Qed.

Lemma farthest_fold (pairs : list (point * point)) (acc : R * option (point * point)) :
  let r := foldl farthest_step acc pairs in
  acc.1 <= r.1
  /\ (forall pq, pq ∈ pairs -> dist pq.1 pq.2 <= r.1)
  /\ (r = acc
      \/ exists pq, pq ∈ pairs /\ r = (dist pq.1 pq.2, Some pq) /\ dist pq.1 pq.2 > acc.1).
Proof.
  revert acc. induction pairs as [|x pairs IH]; intros acc; cbn.
  - split; [lra|]. split; [intros pq H; inversion H|now left].
  - destruct (IH (farthest_step acc x)) as (Hle & Hmax & Hwho).
    assert (Hstep : acc.1 <= (farthest_step acc x).1
                    /\ dist x.1 x.2 <= (farthest_step acc x).1).
    { unfold farthest_step. destruct (decide (dist x.1 x.2 > acc.1)); cbn; lra. }
    split; [lra|]. split.
    + intros pq Hpq. apply elem_of_cons in Hpq as [->|Hpq]; [lra|now apply Hmax].
    + destruct Hwho as [Heq|(pq & Hpq & Heq & Hgt)].
      * rewrite Heq. unfold farthest_step.
        destruct (decide (dist x.1 x.2 > acc.1)); [right|now left].
        exists x. split; [now left|]. split; [reflexivity|assumption].
      * right. exists pq. split; [now right|]. split; [exact Heq|lra].
Qed.

(** [farthest] returns the largest pairwise distance of the list and, when it
    is positive, a pair at that distance. *)
Lemma farthest_spec (coords : list point) :
  0 <= (farthest coords).1
  /\ (forall q1 q2, q1 ∈ coords -> q2 ∈ coords -> dist q1 q2 <= (farthest coords).1)
  /\ ((farthest coords).2 = None -> (farthest coords).1 = 0)
  /\ (forall p1 p2, (farthest coords).2 = Some (p1, p2) ->
        p1 ∈ coords /\ p2 ∈ coords /\ dist p1 p2 = (farthest coords).1
        /\ (farthest coords).1 > 0).
Proof.
  unfold farthest.
  destruct (farthest_fold (index_pairs coords) (0, None)) as (Hle & Hmax & Hwho).
  cbn in Hle. split; [exact Hle|]. split.
  - intros q1 q2 H1 H2. destruct (decide (q1 = q2)) as [->|Hne].
    + rewrite dist_self. exact Hle.
    + destruct (index_pairs_complete coords q1 q2 H1 H2 Hne) as [H|H];
        apply Hmax in H; cbn in H; [exact H|]. now rewrite dist_sym.
  - destruct Hwho as [Heq|(pq & Hpq & Heq & Hgt)]; rewrite Heq; cbn.
    + split; [reflexivity|]. intros ? ? H. discriminate.
    + split; [intros H; discriminate|]. intros p1 p2 H. injection H as ->.
      apply elem_of_index_pairs in Hpq as [H1 H2]. cbn in Hgt.
      repeat split; assumption.
Qed.

(** The score of a group is the largest distance between two of its pixel
    coordinates. *)
Lemma score_spec (group : list (nat * Streak.t)) (m : R) :
  score group = Some m ->
  (forall q1 q2, q1 ∈ all_coords group -> q2 ∈ all_coords group -> dist q1 q2 <= m)
  /\ exists p1 p2, p1 ∈ all_coords group /\ p2 ∈ all_coords group /\ dist p1 p2 = m.
Proof.
  unfold score. destruct (decide (2 <= length (all_coords group))%nat) as [Hlen|];
    [|discriminate].
  intros H. injection H as <-.
  destruct (farthest_spec (all_coords group)) as (_ & Hmax & Hnone & Hsome).
  split; [exact Hmax|].
  destruct ((farthest (all_coords group)).2) as [[p1 p2]|] eqn:Hbest.
  - destruct (Hsome p1 p2 eq_refl) as (H1 & H2 & Hd & _). eauto.
  - destruct (all_coords group) as [|p l] eqn:Hc; [cbn in Hlen; lia|].
    exists p, p. rewrite dist_self, (Hnone eq_refl).
    repeat split; now left.
Qed.

Lemma best_group_fold (groups : list (list (nat * Streak.t))) (acc : R * option (list point)) :
  let r := foldl best_step acc groups in
  acc.1 <= r.1
  /\ (forall g m, g ∈ groups -> score g = Some m -> m <= r.1)
  /\ (r = acc
      \/ exists g, g ∈ groups /\ score g = Some r.1 /\ r.2 = Some (all_coords g)
                   /\ r.1 > acc.1).
Proof.
  revert acc. induction groups as [|x groups IH]; intros acc; cbn.
  - split; [lra|]. split; [intros g m H; inversion H|now left].
  - destruct (IH (best_step acc x)) as (Hle & Hmax & Hwho).
    assert (Hstep : acc.1 <= (best_step acc x).1
                    /\ forall m, score x = Some m -> m <= (best_step acc x).1).
    { unfold best_step. destruct (score x) as [m|]; [|split; [lra|discriminate]].
      destruct (decide (m > acc.1)); cbn;
        (split; [lra|intros ? H; injection H as <-; lra]). }
    destruct Hstep as [Hs1 Hs2].
    split; [lra|]. split.
    + intros g m Hg Hm. apply elem_of_cons in Hg as [->|Hg];
        [apply Hs2 in Hm; lra|now apply (Hmax g)].
    + destruct Hwho as [Heq|(g & Hg & Hsc & Hco & Hgt)].
      * rewrite Heq. unfold best_step. destruct (score x) as [m|] eqn:Hm; [|now left].
        destruct (decide (m > acc.1)); [right|now left].
        exists x. split; [now left|]. cbn. repeat split; assumption.
      * right. exists g. split; [now right|]. repeat split; try assumption. lra.
Qed.

End ScoringFacts.

Section ResolveFacts.
Local Open Scope R_scope.
Variable streak_eqb : Streak.t -> Streak.t -> bool.

Lemma streak_groups_cons (tol max_d : R) (first : Streak.t) (rest : list Streak.t) :
  exists g gs, streak_groups streak_eqb tol max_d (first :: rest) = g :: gs.
Proof.
  unfold streak_groups, enumerate. cbn [enumerate_from group_loop].
  rewrite decide_False by apply not_elem_of_empty. eauto.
Qed.

(** Every member of a group is a surviving fragment at its position. *)
Lemma group_loop_members (tol max_d : R) (valid_streaks : list Streak.t)
  (seeds : list (nat * Streak.t)) (used : gset nat) :
  (forall js, js ∈ seeds -> js ∈ enumerate valid_streaks) ->
  forall g js,
    g ∈ group_loop streak_eqb tol max_d valid_streaks seeds used -> js ∈ g ->
    js ∈ enumerate valid_streaks.
Proof.
  revert used. induction seeds as [|[i s1] seeds IH]; intros used Hseeds g js Hg Hjs.
  - inversion Hg.
  - cbn [group_loop] in Hg.
    assert (Hrest : forall x, x ∈ seeds -> x ∈ enumerate valid_streaks)
      by (intros x Hx; apply Hseeds; now right).
    destruct (decide (i ∈ used)); [now apply (IH used Hrest g)|].
    apply elem_of_cons in Hg as [->|Hg]; [|now eapply IH; eauto].
    apply stitch_elem_of in Hjs as [Hjs|Hjs].
    + apply list_elem_of_singleton in Hjs as ->. apply Hseeds. now left.
    + unfold similar_angle in Hjs. now apply list_elem_of_filter in Hjs as [_ Hjs].
Qed.

Lemma resolve_groups_spec (first : Streak.t) (rest : list Streak.t) :
  let groups := streak_groups streak_eqb angle_tolerance max_distance (first :: rest) in
  ((exists g m, g ∈ groups /\ score g = Some m /\ m > 0) ->
   exists g p1 p2,
     resolve_groups streak_eqb first rest = (p1, p2)
     /\ g ∈ groups /\ score g = Some (dist p1 p2)
     /\ (forall g' m', g' ∈ groups -> score g' = Some m' -> m' <= dist p1 p2)
     /\ p1 ∈ all_coords g /\ p2 ∈ all_coords g)
  /\ ((forall g m, g ∈ groups -> score g = Some m -> m <= 0) ->
      resolve_groups streak_eqb first rest = own_endpoints (longest_streak first rest)).
Proof.
  intros groups. unfold resolve_groups. fold groups.
  destruct (streak_groups_cons angle_tolerance max_distance first rest) as (g0 & gs & Hg0).
  fold groups in Hg0. rewrite Hg0. rewrite <- Hg0.
  unfold best_group.
  destruct (best_group_fold groups (0, None)) as (Hle & Hmax & Hwho). cbn in Hle.
  split.
  - intros (g & m & Hg & Hm & Hpos).
    pose proof (Hmax g m Hg Hm) as Hbig.
    destruct Hwho as [Heq|(gb & Hgb & Hsc & Hco & Hgt)].
    { rewrite Heq in Hbig. cbn in Hbig. lra. }
    rewrite Hco.
    assert (Hlen : (2 <= length (all_coords gb))%nat).
    { unfold score in Hsc. now destruct (decide (2 <= length (all_coords gb))%nat). }
    rewrite decide_True by exact Hlen.
    assert (Hfar : (farthest (all_coords gb)).1 = (foldl best_step (0, None) groups).1).
    { unfold score in Hsc. rewrite decide_True in Hsc by exact Hlen.
      now injection Hsc. }
    destruct (farthest_spec (all_coords gb)) as (_ & _ & Hnone & Hsome).
    destruct ((farthest (all_coords gb)).2) as [[p1 p2]|].
    + destruct (Hsome p1 p2 eq_refl) as (H1 & H2 & Hd & _).
      exists gb, p1, p2. split; [reflexivity|]. split; [exact Hgb|].
      rewrite Hd, Hfar. split; [exact Hsc|]. split; [exact Hmax|]. now split.
    + specialize (Hnone eq_refl). lra.
  - intros Hzero. destruct Hwho as [Heq|(gb & Hgb & Hsc & _ & Hgt)].
    + now rewrite Heq.
    + apply (Hzero gb _ Hgb) in Hsc. cbn [fst] in Hgt. lra.
Qed.

End ResolveFacts.





(** ** Worked examples *)

Section Examples.
Local Open Scope R_scope.

(** Decide the real comparisons of a goal built from numerals. *)
Ltac decide_reals :=
  repeat first
    [ rewrite decide_True by (cbn; first [lra | lia])
    | rewrite decide_False by (cbn; first [lra | lia])
    | rewrite bool_decide_eq_true_2 by (cbn; lra)
    | rewrite bool_decide_eq_false_2 by (cbn; lra) ].

Example linspace_three : linspace 0 1 3 = [0; 1 / 2; 1].
Proof.
  unfold linspace. cbn. decide_reals. repeat f_equal; lra.
Qed.

Example sort_R_four : sort_R [4; 1; 3; 2] = [1; 2; 3; 4].
Proof.
  unfold sort_R. cbn [foldr insert_sorted]. decide_reals. cbn [insert_sorted].
  decide_reals. cbn [insert_sorted]. decide_reals. cbn [insert_sorted]. decide_reals.
  reflexivity.
Qed.

Example percentile_quartiles :
  percentile [1; 1; 1; 10] 25 = 1 /\ percentile [1; 1; 1; 10] 75 = 13 / 4.
Proof.
  assert (Hs : sort_R [1; 1; 1; 10] = [1; 1; 1; 10]).
  { unfold sort_R. cbn [foldr insert_sorted]. decide_reals. cbn [insert_sorted].
    decide_reals. cbn [insert_sorted]. decide_reals. reflexivity. }
  unfold percentile. rewrite Hs. cbn. split; lra.
Qed.

Lemma not_z_flag (d s : R) : 3 <= s -> Rabs d <= 9 -> z_flag (Some (d / s)) = false.
Proof.
  intros Hs Hd. cbn. apply bool_decide_eq_false. unfold Rdiv.
  rewrite Rabs_mult, (Rabs_right (/ s)).
  - assert (0 < / s <= / 3).
    { split; [apply Rinv_0_lt_compat; lra|apply Rinv_le_contravar; lra]. }
    pose proof (Rabs_pos d). nra.
  - apply Rle_ge, Rlt_le, Rinv_0_lt_compat. lra.
Qed.

(** A series of four with one value ten times the others: the IQR rule
    flags it, the Z-score rule cannot (no z of four samples exceeds 3). *)
Example outliers_injected_point : outliers 4 [1; 1; 1; 10] = ([], [3%nat]).
Proof.
  destruct percentile_quartiles as [Hq1 Hq3].
  assert (Hm : mean [1; 1; 1; 10] = 13 / 4) by (unfold mean, Rsum; cbn; lra).
  assert (Hs : 3 <= pstd [1; 1; 1; 10]).
  { unfold pstd. rewrite Hm. rewrite <- (sqrt_square 3) by lra.
    apply sqrt_le_1_alt. unfold mean, Rsum. cbn. lra. }
  unfold outliers. rewrite decide_True by lia. rewrite Hq1, Hq3. f_equal.
  - unfold zscore. rewrite Hm. cbn [map].
    rewrite !decide_False by lra.
    rewrite !not_z_flag by (try exact Hs; unfold Rabs; destruct (Rcase_abs _); lra).
    reflexivity.
  - cbn [map]. unfold iqr_flag. decide_reals. reflexivity.
Qed.

Lemma dist_x (a b : R) : a <= b -> dist (a, 0) (b, 0) = b - a.
Proof.
  intros Hab. unfold dist. cbn [fst snd].
  replace ((a - b) ^ 2 + (0 - 0) ^ 2) with ((b - a) * (b - a)) by ring.
  apply sqrt_square. lra.
Qed.

Lemma arctan2_rightwards (dx : R) : 0 < dx -> arctan2 0 dx = 0.
Proof.
  intros Hdx. unfold arctan2. rewrite decide_True by exact Hdx.
  unfold Rdiv. now rewrite Rmult_0_l, atan_0.
Qed.

Lemma get_angle_rightwards (s : Streak.t) :
  Streak.y_end s = Streak.y_start s -> Streak.x_start s < Streak.x_end s ->
  get_angle s = 0.
Proof.
  intros Hy Hx. unfold get_angle. rewrite Hy.
  replace (Streak.y_start s - Streak.y_start s) with 0 by ring.
  rewrite arctan2_rightwards by lra.
  replace (0 * 180 / PI) with 0 by (unfold Rdiv; ring).
  now rewrite decide_False by lra.
Qed.

Lemma angle_diff_0_0 : angle_diff 0 0 = 0.
Proof.
  unfold angle_diff. replace (0 - 0) with 0 by ring. rewrite Rabs_R0.
  apply Rmin_left. lra.
Qed.

Lemma farthest_step_gt (acc : R * option (point * point)) (pq : point * point) :
  dist pq.1 pq.2 > acc.1 -> farthest_step acc pq = (dist pq.1 pq.2, Some pq).
Proof.
  intros H. unfold farthest_step. now rewrite decide_True.
Qed.

Lemma farthest_step_le (acc : R * option (point * point)) (pq : point * point) :
  dist pq.1 pq.2 <= acc.1 -> farthest_step acc pq = acc.
Proof.
  intros H. unfold farthest_step. now rewrite decide_False by lra.
Qed.

Lemma min_dist_a_b : min_dist streak_a streak_b = 100.
Proof.
  unfold min_dist, endpoints, list_min. cbn.
  rewrite !dist_x by lra.
  rewrite (Rmin_left (110 - 0)), (Rmin_right (110 - 0)), Rmin_left by lra. lra.
Qed.

(** Two collinear fragments 100 px apart are stitched (the stitch distance
    is 300): the resolved endpoints span both. *)
Example resolver_stitches_collinear :
  detect_streak_endpoints (fun _ _ => false) [streak_a; streak_b]
  = Some ((0, 0), (120, 0)).
Proof.
  unfold detect_streak_endpoints, min_length.
  rewrite filter_cons, decide_True by (cbn; lra).
  rewrite filter_cons, decide_True by (cbn; lra).
  rewrite filter_nil. f_equal.
  assert (Hgroups : streak_groups (fun _ _ => false) angle_tolerance max_distance
                      [streak_a; streak_b] = [[(0%nat, streak_a); (1%nat, streak_b)]]).
  { unfold streak_groups, enumerate. cbn [enumerate_from group_loop].
    rewrite decide_False by apply not_elem_of_empty.
    assert (Hsim : similar_angle angle_tolerance [streak_a; streak_b] ∅ 0 streak_a
                   = [(1%nat, streak_b)]).
    { unfold similar_angle, enumerate. cbn [enumerate_from].
      rewrite filter_cons, decide_False by (intros [H _]; now apply H).
      rewrite filter_cons, decide_True; [reflexivity|].
      split; [discriminate|]. split; [apply not_elem_of_empty|]. cbn [snd].
      rewrite !get_angle_rightwards by (cbn; lra).
      rewrite angle_diff_0_0. unfold angle_tolerance. lra. }
    rewrite Hsim. cbn [stitch existsb snd].
    rewrite min_dist_a_b, bool_decide_eq_true_2 by (unfold max_distance; lra).
    cbn [orb app].
    rewrite decide_True; [reflexivity|].
    unfold final_indices. cbn [tail map].
    rewrite (list_index_self (fun _ _ => false) [streak_a; streak_b]
               ltac:(reflexivity) 1 streak_b eq_refl).
    set_solver. }
  assert (Hfar : farthest [(0, 0); (10, 0); (110, 0); (120, 0)]
                 = (120 - 0, Some ((0, 0), (120, 0)))).
  { unfold farthest. cbn [index_pairs map app foldl].
    repeat match goal with
    | |- context [farthest_step (?m, ?b) ?pq] =>
        first
          [ rewrite (farthest_step_gt (m, b) pq)
              by (cbn [fst snd]; rewrite ?dist_x by lra; lra)
          | rewrite (farthest_step_le (m, b) pq)
              by (cbn [fst snd]; rewrite ?dist_x by lra; lra) ]
    end.
    cbn [fst snd]. now rewrite dist_x by lra. }
  unfold resolve_groups. rewrite Hgroups.
  unfold best_group. cbn [foldl]. unfold best_step, score.
  change (all_coords [(0%nat, streak_a); (1%nat, streak_b)])
    with [(0, 0); (10, 0); (110, 0); (120, 0)].
  rewrite decide_True by (cbn; lia). rewrite Hfar. cbn [fst].
  rewrite decide_True by lra. cbn [snd].
  rewrite decide_True by (cbn; lia). now rewrite Hfar.
Qed.

(** Two exposures accumulated out of order: sorted by timestamp, the first
    axis ends at 1 s where the second begins. *)
Example time_axis_two_exposures :
  criar_eixo_temporal_continuo [dados_late; dados_early]
  = Ok (Some ([[0; 1]; [1; 2; 3]],
              [dados_early; dados_late])).
Proof.
  unfold criar_eixo_temporal_continuo, sorted_by_key.
  change (mixed_keys [dados_late; dados_early]) with false.
  cbn [foldr insert_by_key].
  change (key_ltb dados_early dados_late) with true.
  cbn [mbind result_bind eixo_from]. unfold linspace. cbn. decide_reals.
  repeat f_equal; lra.
Qed.

(** In binary64 the parameter [t] of the last point is exactly [1.0] for
    every point count the dialogs accept, so the last point is
    [x1 + 1.0 * (x2 - x1)] with the subtraction and the addition rounded. *)
Example last_parameter_binary64 (n : nat) :
  (3 <= n <= 50)%nat ->
  int_truediv (A := float) (n - 1) (n - 1) = 1%float.
Proof.
  intros Hn.
  do 51 (destruct n as [|n]; [first [lia | vm_compute; reflexivity]|]). lia.
Qed.

End Examples.

(** * Further properties of the program *)

(** ** Samples of an analysed exposure *)

Section SampleFacts.
Local Open Scope R_scope.

Lemma circle_area_nonneg (r : R) : 0 <= circle_area r.
Proof.
  unfold circle_area. pose proof PI_RGT_0. nra.
Qed.

Lemma analysed_sample (p : Photometer) (a : Analysis) (i : nat) (s : Sample) :
  analyze_photometry p = Analysed a -> samples a !! i = Some s ->
  exptime (read_header (header (exposure p))) > 0
  /\ gain (read_header (header (exposure p))) > 0
  /\ exists g o,
       s = measure_point (read_header (header (exposure p)))
             (aperture_radius p) (annulus_inner p) (annulus_outer p) g o.
Proof.
  intros Ha Hs.
  destruct (analyze_photometry_inv p a Ha) as (points & _ & He & Hg & Hss & _).
  rewrite Hss in Hs. apply list_lookup_fmap_Some in Hs as (pt & -> & _).
  split; [exact He|]. split; [exact Hg|]. eauto.
Qed.

Lemma saturation_flag_mag_cases (p : Photometer) (a : Analysis) (i : nat) (s : Sample) :
  analyze_photometry p = Analysed a -> samples a !! i = Some s ->
  (rate s > 0 /\ is_saturated s = false /\ is_Some (mag s))
  \/ (~ (rate s > 0 /\ is_saturated s = false) /\ mag s = None).
Proof.
  intros Ha Hs. destruct (analysed_sample p a i s Ha Hs) as (_ & _ & g & o & ->).
  pose proof (measure_point_mag (read_header (header (exposure p)))
                (aperture_radius p) (annulus_inner p) (annulus_outer p) g o)
    as [Hdef Hundef].
  set (s := measure_point _ _ _ _ _ _) in *.
  destruct (decide (rate s > 0)) as [Hr|Hr], (is_saturated s) eqn:Hsat.
  - right. split; [intros [_ ?]; discriminate|]. apply Hundef. intros [_ ?]. discriminate.
  - left. destruct (Hdef (conj Hr eq_refl)) as [Hm _]. rewrite Hm. eauto.
  - right. split; [tauto|]. apply Hundef. tauto.
  - right. split; [tauto|]. apply Hundef. tauto.
Qed.



End SampleFacts.

(** X1.  For every sample of an analysed exposure the variance under the
    square root of the noise model is non-negative, whatever the header
    holds, so the flux-rate error is a real, non-negative number; the
    signal-to-noise ratio is the rate over the error, and zero when the
    error is zero. *)
Theorem noise_variance_nonnegative
  (p : Photometer) (a : Analysis) (i : nat) (s : Sample) :
  analyze_photometry p = Analysed a ->
  samples a !! i = Some s ->
  let hp := read_header (header (exposure p)) in
  let area := circle_area (aperture_radius p) in
  exists std_local : R,
    let total_var_e := (Rmax 0 (raw_adu s * gain hp) + area * std_local ^ 2 * gain hp
                        + area * readnoise hp ^ 2)%R in
    (0 <= total_var_e)%R
    /\ err_rate s = (sqrt total_var_e / gain hp / exptime hp)%R
    /\ (0 <= err_rate s)%R
    /\ ((err_rate s > 0)%R -> snr s = (rate s / err_rate s)%R)
    /\ (err_rate s = 0%R -> snr s = 0%R).
Proof.
  intros Ha Hs hp area.
  destruct (analysed_sample p a i s Ha Hs) as (He & Hg & g & o & ->).
  fold hp in He, Hg |- *.
  exists (match annulus_std o with Some v => v | None => g end).
  cbn. fold area.
  set (raw := (ap_sum o - an_sum o / annulus_area (annulus_inner p) (annulus_outer p)
                          * area)%R).
  set (std := match annulus_std o with Some v => v | None => g end).
  pose proof (circle_area_nonneg (aperture_radius p)) as Harea. fold area in Harea.
  assert (Hv : (0 <= Rmax 0 (raw * gain hp) + area * std ^ 2 * gain hp
                     + area * readnoise hp ^ 2)%R).
  { pose proof (Rmax_l 0 (raw * gain hp)).
    assert (0 <= std ^ 2)%R by nra. assert (0 <= readnoise hp ^ 2)%R by nra.
    assert (0 <= area * std ^ 2 * gain hp)%R by (apply Rmult_le_pos; nra).
    nra. }
  split; [exact Hv|]. split; [reflexivity|].
  assert (Herr : (0 <= flux_rate_error raw (gain hp) (exptime hp) std area (readnoise hp))%R).
  { unfold flux_rate_error, Rdiv.
    apply Rmult_le_pos; [apply Rmult_le_pos; [apply sqrt_pos|]|];
      apply Rlt_le, Rinv_0_lt_compat; lra. }
  split; [exact Herr|]. split.
  - intros Hpos. now rewrite decide_True by exact Hpos.
  - intros Hz. rewrite decide_False; [reflexivity|]. lra.
Qed.

Lemma noise_variance_nonnegative_witness :
  exists a s,
    analyze_photometry (demo_photometer (Some [(0, 0)%R])) = Analysed a
    /\ samples a !! 0%nat = Some s
    /\ (0 <= err_rate s)%R.
Proof.
  destruct (demo_photometer_runs [(0, 0)%R]) as (a & Ha & Hs).
  exists a, (measure_point (read_header ∅) 5 8 12 1 demo_obs).
  assert (Hl : samples a !! 0%nat
               = Some (measure_point (read_header ∅) 5 8 12 1 demo_obs))
    by now rewrite Hs.
  split; [exact Ha|]. split; [exact Hl|].
  destruct (noise_variance_nonnegative _ a 0 _ Ha Hl) as (std & _ & _ & H & _).
  exact H.
Defined.

(** X2.  For the samples of an analysed exposure the valid mask of the
    analysis and the two masks the plots rebuild ([~saturated & flux > 0] and
    [~isnan(mag) & ...]) are the same mask; a sample is valid iff its
    magnitude is defined, and no valid sample is saturated. *)
Theorem valid_mask_is_magnitude_mask
  (p : Photometer) (a : Analysis) (i : nat) (s : Sample) :
  analyze_photometry p = Analysed a ->
  samples a !! i = Some s ->
  valid a !! i = Some (is_valid s)
  /\ is_valid s = valid_points s
  /\ is_valid s = valid_mags s
  /\ (is_valid s = true <-> is_Some (mag s))
  /\ (is_valid s = true -> is_saturated s = false).
Proof.
  intros Ha Hs.
  destruct (analyze_photometry_inv p a Ha) as (points & _ & _ & _ & _ & Hv & _).
  split; [now rewrite Hv, list_lookup_fmap, Hs|].
  destruct (saturation_flag_mag_cases p a i s Ha Hs) as [(Hr & Hsat & Hm)|(Hno & Hm)].
  - unfold is_valid, valid_mags, valid_points. rewrite Hsat.
    rewrite (bool_decide_eq_true_2 _ Hr).
    rewrite (bool_decide_eq_true_2 (is_Some (mag s)) Hm). cbn.
    repeat split; auto.
  - assert (Hmb : bool_decide (is_Some (mag s)) = false).
    { apply bool_decide_eq_false. rewrite Hm. now intros [? ?]. }
    assert (Hvp : valid_points s = false).
    { unfold valid_points. destruct (is_saturated s); [reflexivity|]. cbn.
      apply bool_decide_eq_false. tauto. }
    unfold is_valid, valid_mags. rewrite Hmb, Hvp, andb_false_r. cbn.
    repeat split; try discriminate. rewrite Hm. now intros [? ?].
Qed.

Lemma valid_mask_is_magnitude_mask_witness :
  exists a s,
    analyze_photometry (demo_photometer (Some [(0, 0)%R])) = Analysed a
    /\ samples a !! 0%nat = Some s
    /\ is_valid s = valid_mags s.
Proof.
  destruct (demo_photometer_runs [(0, 0)%R]) as (a & Ha & Hs).
  exists a, (measure_point (read_header ∅) 5 8 12 1 demo_obs).
  assert (Hl : samples a !! 0%nat
               = Some (measure_point (read_header ∅) 5 8 12 1 demo_obs))
    by now rewrite Hs.
  split; [exact Ha|]. split; [exact Hl|].
  exact (proj1 (proj2 (proj2 (valid_mask_is_magnitude_mask _ a 0 _ Ha Hl)))).
Defined.

(** X3.  For a sample whose magnitude is defined and whose error is
    positive, the signal-to-noise ratio is positive and the magnitude error
    is [2.5 / (ln 10 * snr)]. *)
Theorem magnitude_error_is_inverse_snr
  (p : Photometer) (a : Analysis) (i : nat) (s : Sample) (m : R) :
  analyze_photometry p = Analysed a ->
  samples a !! i = Some s ->
  mag s = Some m ->
  (err_rate s > 0)%R ->
  (snr s > 0)%R /\ mag_err s = Some (25 / 10 / (ln 10 * snr s))%R.
Proof.
  intros Ha Hs Hm Herr.
  destruct (saturation_flag_mag_cases p a i s Ha Hs) as [(Hr & Hsat & _)|(_ & Hno)];
    [|rewrite Hno in Hm; discriminate].
  destruct (analysed_sample p a i s Ha Hs) as (_ & _ & g & o & Heq).
  pose proof (measure_point_mag (read_header (header (exposure p)))
                (aperture_radius p) (annulus_inner p) (annulus_outer p) g o)
    as [Hdef _].
  rewrite <- Heq in Hdef. destruct (Hdef (conj Hr Hsat)) as [_ Hme].
  assert (Hsnr : snr s = (rate s / err_rate s)%R).
  { rewrite Heq in Herr |- *. cbn in Herr |- *. now rewrite decide_True by exact Herr. }
  assert (Hln : (0 < ln 10)%R) by (rewrite <- ln_1; apply ln_increasing; lra).
  split.
  - rewrite Hsnr. apply Rdiv_lt_0_compat; assumption.
  - rewrite Hme, Hsnr. f_equal. field. repeat split; lra.
Qed.




Section DemoSample.
Local Open Scope R_scope.

Lemma demo_sample_facts :
  let s := measure_point (read_header ∅) 5 8 12 1 demo_obs in
  rate s = 100 / (9 / 10) /\ rate s > 0 /\ is_saturated s = false
  /\ err_rate s > 0 /\ exists m, mag s = Some m.
Proof.
  rewrite read_header_empty.
  pose proof (measure_point_mag
                {| gain := 1; readnoise := 10; zp := 25; exptime := 9 / 10;
                   saturation_limit := 65535 |} 5 8 12 1 demo_obs) as [Hdef _].
  cbv zeta in Hdef |- *. set (s := measure_point _ _ _ _ _ _) in *.
  assert (Hzero : 0 / annulus_area 8 12 = 0) by (unfold Rdiv; ring).
  assert (Hrate : rate s = 100 / (9 / 10)).
  { subst s. cbn. rewrite Hzero. f_equal. ring. }
  assert (Hpos : rate s > 0) by (rewrite Hrate; apply Rdiv_lt_0_compat; lra).
  assert (Hsat : is_saturated s = false).
  { subst s. cbn. rewrite Hzero. apply bool_decide_eq_false. lra. }
  split; [exact Hrate|]. split; [exact Hpos|]. split; [exact Hsat|]. split.
  - subst s. cbn. rewrite Hzero. unfold flux_rate_error.
    pose proof (circle_area_nonneg 5) as Ha.
    assert (0 < sqrt (Rmax 0 ((100 - 0 * circle_area 5) * 1) + circle_area 5 * 1 ^ 2 * 1
                      + circle_area 5 * 10 ^ 2)).
    { apply sqrt_lt_R0. pose proof (Rmax_r 0 ((100 - 0 * circle_area 5) * 1)). nra. }
    unfold Rdiv. rewrite Rinv_1, Rmult_1_r. apply Rmult_lt_0_compat; [assumption|].
    apply Rinv_0_lt_compat. lra.
  - destruct (Hdef (conj Hpos Hsat)) as [Hm _]. eauto.
Qed.

End DemoSample.

Lemma magnitude_error_is_inverse_snr_witness :
  exists a s,
    analyze_photometry (demo_photometer (Some [(0, 0)%R])) = Analysed a
    /\ samples a !! 0%nat = Some s
    /\ (snr s > 0)%R.
Proof.
  destruct (demo_photometer_runs [(0, 0)%R]) as (a & Ha & Hs).
  exists a, (measure_point (read_header ∅) 5 8 12 1 demo_obs).
  assert (Hl : samples a !! 0%nat
               = Some (measure_point (read_header ∅) 5 8 12 1 demo_obs))
    by now rewrite Hs.
  destruct demo_sample_facts as (_ & _ & _ & Herr & m & Hm).
  split; [exact Ha|]. split; [exact Hl|].
  exact (proj1 (magnitude_error_is_inverse_snr _ a 0 _ m Ha Hl Hm Herr)).
Defined.


(** ** Positions of the valid subset *)

Section SelectFacts.

Lemma select_np_where_from {A} (mask : list bool) (a : list A) (k i : nat) (x : A) :
  length mask = length a ->
  select mask a !! i = Some x ->
  exists j,
    np_where_from k mask !! i = Some (k + j)
    /\ a !! j = Some x /\ mask !! j = Some true
    /\ j = i + rejected_before mask j.
Proof.
  revert a k i. induction mask as [|b mask IH]; intros [|y a] k i Hlen Hx;
    try discriminate.
  cbn in Hlen. injection Hlen as Hlen. cbn [select np_where_from] in *.
  destruct b.
  - destruct i as [|i].
    + cbn in Hx. injection Hx as ->. exists 0. rewrite Nat.add_0_r.
      repeat split.
    + cbn in Hx. destruct (IH a (S k) i Hlen Hx) as (j & Hj & Ha & Hm & Hr).
      exists (S j). replace (k + S j) with (S k + j) by lia.
      split; [exact Hj|]. split; [exact Ha|]. split; [exact Hm|].
      unfold rejected_before in *. cbn [take]. rewrite filter_cons.
      rewrite decide_False by discriminate. lia.
  - destruct (IH a (S k) i Hlen Hx) as (j & Hj & Ha & Hm & Hr).
    exists (S j). replace (k + S j) with (S k + j) by lia.
    split; [exact Hj|]. split; [exact Ha|]. split; [exact Hm|].
    unfold rejected_before in *. cbn [take]. rewrite filter_cons.
    rewrite decide_True by reflexivity. cbn [length]. lia.
Qed.

End SelectFacts.

(** X6.  The outlier indices count positions in the valid subset, not
    samples: entry [i] of the valid fluxes is the flux of the sample at
    position [np.where(valid)[0][i]], which is [i] plus the number of invalid
    samples before that position. *)
Theorem valid_subset_positions
  (p : Photometer) (a : Analysis) (i : nat) (x : R) :
  analyze_photometry p = Analysed a ->
  select (valid a) (map rate (samples a)) !! i = Some x ->
  exists j s,
    np_where (valid a) !! i = Some j
    /\ samples a !! j = Some s /\ rate s = x /\ is_valid s = true
    /\ j = (i + rejected_before (valid a) j)%nat.
Proof.
  intros Ha Hx.
  destruct (analyze_photometry_inv p a Ha) as (points & _ & _ & _ & _ & Hv & _).
  assert (Hlen : length (valid a) = length (map rate (samples a)))
    by now rewrite Hv, !length_map.
  destruct (select_np_where_from (valid a) (map rate (samples a)) 0 i x Hlen Hx)
    as (j & Hj & Hr & Hm & Hcount).
  apply list_lookup_fmap_Some in Hr as (s & -> & Hs).
  exists j, s. split; [exact Hj|]. split; [exact Hs|]. split; [reflexivity|].
  split; [|exact Hcount].
  rewrite Hv, list_lookup_fmap, Hs in Hm. now injection Hm.
Qed.

Lemma valid_subset_positions_witness :
  exists a j,
    analyze_photometry (demo_photometer (Some [(0, 0); (1, 1)]%R)) = Analysed a
    /\ np_where (valid a) !! 1%nat = Some j
    /\ j = (1 + rejected_before (valid a) j)%nat.
Proof.
  destruct (demo_photometer_runs [(0, 0); (1, 1)]%R) as (a & Ha & Hs).
  destruct (analyze_photometry_inv _ a Ha) as (points & _ & _ & _ & _ & Hv & _).
  destruct demo_sample_facts as (_ & Hr & Hsat & _ & m & Hm).
  assert (Hvalid : is_valid (measure_point (read_header ∅) 5 8 12 1 demo_obs) = true).
  { unfold is_valid. rewrite Hsat, Hm.
    rewrite (bool_decide_eq_true_2 _ Hr). reflexivity. }
  assert (Hx : select (valid a) (map rate (samples a)) !! 1%nat
               = Some (rate (measure_point (read_header ∅) 5 8 12 1 demo_obs))).
  { rewrite Hv, Hs. cbn. now rewrite Hvalid. }
  destruct (valid_subset_positions _ a 1 _ Ha Hx) as (j & s & Hj & _ & _ & _ & Hc).
  exists a, j. split; [exact Ha|]. split; [exact Hj|exact Hc].
Defined.

(** ** The Z-score criterion on few samples *)

Section ZScoreFacts.
Local Open Scope R_scope.

Lemma Rsum_cons (x : R) (l : list R) : Rsum (x :: l) = x + Rsum l.
Proof. reflexivity. Qed.








End ZScoreFacts.



(** ** Order statistics *)

Section PercentileFacts.
Local Open Scope R_scope.

Lemma insert_sorted_perm (x : R) (l : list R) : insert_sorted x l ≡ₚ x :: l.
Proof.
  induction l as [|h t IH]; cbn; [reflexivity|].
  destruct (decide (x <= h)); [reflexivity|].
  rewrite IH. apply Permutation_swap.
Qed.

Lemma sort_R_perm (l : list R) : sort_R l ≡ₚ l.
Proof.
  induction l as [|x l IH]; cbn; [reflexivity|].
  fold (sort_R l). rewrite insert_sorted_perm. now rewrite IH.
Qed.

Lemma sort_R_length (l : list R) : length (sort_R l) = length l.
Proof. apply Permutation_length, sort_R_perm. Qed.

Lemma insert_sorted_sorted (x : R) (l : list R) :
  StronglySorted Rle l -> StronglySorted Rle (insert_sorted x l).
Proof.
  induction 1 as [|h t Hs IH Hh]; cbn.
  - constructor; [constructor|constructor].
  - destruct (decide (x <= h)) as [Hle|Hgt].
    + constructor; [now constructor|].
      constructor; [exact Hle|].
      eapply Forall_impl; [exact Hh|]. intros y Hy. cbn in Hy. lra.
    + constructor; [exact IH|].
      rewrite insert_sorted_perm. constructor; [lra|exact Hh].
Qed.

Lemma sort_R_sorted (l : list R) : StronglySorted Rle (sort_R l).
Proof.
  induction l as [|x l IH]; cbn; [constructor|].
  now apply insert_sorted_sorted.
Qed.

Lemma sorted_nth_le (s : list R) (i j : nat) :
  StronglySorted Rle s -> (i <= j < length s)%nat -> nth i s 0 <= nth j s 0.
Proof.
  intros Hs. revert i j. induction Hs as [|h t Hs IH Hh]; intros i j Hij.
  - cbn in Hij. lia.
  - destruct j as [|j].
    + assert (i = 0)%nat as -> by lia. cbn. lra.
    + cbn [length] in Hij. destruct i as [|i].
      * cbn. rewrite Forall_forall in Hh. apply Hh.
        apply list_elem_of_In, nth_In. lia.
      * cbn. apply IH. lia.
Qed.

(** The quantities [np.percentile] interpolates between. *)
Lemma percentile_parts (l : list R) (q : nat) :
  l <> [] -> (q <= 100)%nat ->
  exists (lo hi : nat) (g : R),
    let s := sort_R l in
    percentile l q = nth lo s 0 + (nth hi s 0 - nth lo s 0) * g
    /\ (lo <= hi < length s)%nat /\ 0 <= g < 1
    /\ lo = ((length s - 1) * q / 100)%nat
    /\ hi = Nat.min (lo + 1) (length s - 1)
    /\ g = INR (((length s - 1) * q) mod 100) / 100.
Proof.
  intros Hl Hq. cbv zeta. unfold percentile.
  set (s := sort_R l). set (n := length s).
  assert (Hn : (1 <= n)%nat).
  { unfold n, s. rewrite sort_R_length. destruct l; [congruence|cbn; lia]. }
  set (k := ((n - 1) * q)%nat).
  assert (Hlo : (k / 100 <= n - 1)%nat).
  { apply Nat.Div0.div_le_upper_bound. unfold k. nia. }
  exists (k / 100)%nat, (Nat.min (k / 100 + 1) (n - 1)), (INR (k mod 100) / 100).
  split; [reflexivity|]. split; [lia|]. split; [|repeat split].
  pose proof (Nat.mod_upper_bound k 100 ltac:(lia)) as Hm.
  pose proof (pos_INR (k mod 100)).
  assert (INR (k mod 100) < 100).
  { replace 100 with (INR 100) by (cbn; lra). apply lt_INR, Hm. }
  lra.
Qed.

Lemma nth_sort_R_elem (l : list R) (i : nat) :
  (i < length (sort_R l))%nat -> nth i (sort_R l) 0 ∈ l.
Proof.
  intros Hi. eapply elem_of_Permutation_proper; [symmetry; apply sort_R_perm|].
  now apply list_elem_of_In, nth_In.
Qed.

(** A percentile lies between any bounds of the data. *)
Lemma percentile_bounds (l : list R) (q : nat) (lower upper : R) :
  l <> [] -> (q <= 100)%nat ->
  Forall (fun x => lower <= x <= upper) l ->
  lower <= percentile l q <= upper.
Proof.
  intros Hl Hq Hall.
  destruct (percentile_parts l q Hl Hq) as (lo & hi & g & Hp & Hi & Hg & _).
  cbv zeta in *. rewrite Hp. rewrite Forall_forall in Hall.
  pose proof (Hall _ (nth_sort_R_elem l lo ltac:(lia))) as Ha.
  pose proof (Hall _ (nth_sort_R_elem l hi ltac:(lia))) as Hb.
  set (a := nth lo (sort_R l) 0) in *. set (b := nth hi (sort_R l) 0) in *.
  replace (a + (b - a) * g) with ((1 - g) * a + g * b) by ring.
  split; nra.
Qed.

(** Percentiles grow with the rank. *)
Lemma percentile_mono (l : list R) (q1 q2 : nat) :
  l <> [] -> (q1 <= q2 <= 100)%nat -> percentile l q1 <= percentile l q2.
Proof.
  intros Hl Hq.
  destruct (percentile_parts l q1 Hl ltac:(lia))
    as (lo1 & hi1 & g1 & Hp1 & Hi1 & Hg1 & Hlo1 & Hhi1 & Hgd1).
  destruct (percentile_parts l q2 Hl ltac:(lia))
    as (lo2 & hi2 & g2 & Hp2 & Hi2 & Hg2 & Hlo2 & Hhi2 & Hgd2).
  cbv zeta in *. rewrite Hp1, Hp2.
  pose proof (sort_R_sorted l) as Hs.
  set (s := sort_R l) in *. set (n := length s) in *.
  assert (Hk : ((n - 1) * q1 <= (n - 1) * q2)%nat) by nia.
  assert (Hlo : (lo1 <= lo2)%nat).
  { subst lo1 lo2. apply Nat.Div0.div_le_mono, Hk. }
  pose proof (sorted_nth_le s lo1 hi1 Hs ltac:(lia)) as Hab1.
  pose proof (sorted_nth_le s lo2 hi2 Hs ltac:(lia)) as Hab2.
  destruct (decide (lo1 = lo2)) as [Heq|Hne].
  - assert (hi1 = hi2) as <- by lia. rewrite <- Heq in *.
    assert (Hg : g1 <= g2).
    { subst g1 g2. apply Rmult_le_compat_r; [lra|]. apply le_INR.
      pose proof (Nat.div_mod_eq ((n - 1) * q1) 100).
      pose proof (Nat.div_mod_eq ((n - 1) * q2) 100). lia. }
    nra.
  - pose proof (sorted_nth_le s hi1 lo2 Hs ltac:(lia)) as Hmid.
    nra.
Qed.

Lemma percentile_lower (l : list R) (q : nat) (lower : R) :
  l <> [] -> (q <= 100)%nat ->
  Forall (fun x => lower <= x) l -> lower <= percentile l q.
Proof.
  intros Hl Hq Hall.
  destruct (percentile_parts l q Hl Hq) as (lo & hi & g & Hp & Hi & Hg & _).
  cbv zeta in *. rewrite Hp. rewrite Forall_forall in Hall.
  pose proof (Hall _ (nth_sort_R_elem l lo ltac:(lia))) as Ha.
  pose proof (Hall _ (nth_sort_R_elem l hi ltac:(lia))) as Hb.
  set (a := nth lo (sort_R l) 0) in *. set (b := nth hi (sort_R l) 0) in *.
  replace (a + (b - a) * g) with ((1 - g) * a + g * b) by ring.
  nra.
Qed.

Lemma valid_fluxes_positive (ss : list Sample) :
  Forall (fun x => 0 < x) (select (map is_valid ss) (map rate ss)).
Proof.
  induction ss as [|s ss IH]; cbn; [constructor|].
  destruct (is_valid s) eqn:Hs; [|exact IH].
  constructor; [|exact IH]. unfold is_valid in Hs.
  apply andb_true_iff in Hs as [Hs _]. apply andb_true_iff in Hs as [Hs _].
  apply bool_decide_eq_true in Hs. lra.
Qed.

Lemma Rsum_positive (l : list R) :
  l <> [] -> Forall (fun x => 0 < x) l -> 0 < Rsum l.
Proof.
  intros Hl Hall. induction Hall as [|x l Hx Hall IH]; [congruence|].
  rewrite Rsum_cons. destruct l as [|y l]; [unfold Rsum; cbn; lra|].
  assert (0 < Rsum (y :: l)) by (apply IH; congruence). lra.
Qed.

Lemma mean_positive (l : list R) :
  l <> [] -> Forall (fun x => 0 < x) l -> 0 < mean l.
Proof.
  intros Hl Hall. unfold mean. apply Rdiv_lt_0_compat.
  - now apply Rsum_positive.
  - apply lt_0_INR. destruct l; [congruence|cbn; lia].
Qed.

End PercentileFacts.

(** X8.  When the IQR criterion runs (two valid samples or more), the first
    quartile of the valid fluxes is positive and not above the third, so the
    fences enclose the interquartile range: every flux the criterion flags
    lies strictly below the first quartile or strictly above the third. *)
Theorem iqr_flags_lie_outside_the_quartiles (p : Photometer) (a : Analysis) :
  analyze_photometry p = Analysed a ->
  (2 <= np_sum (valid a))%nat ->
  let valid_fluxes := select (valid a) (map rate (samples a)) in
  let q1 := percentile valid_fluxes 25 in
  let q3 := percentile valid_fluxes 75 in
  (0 < q1 /\ q1 <= q3)%R
  /\ forall i, i ∈ out_iqr a ->
       exists x, valid_fluxes !! i = Some x /\ (x < q1 \/ q3 < x)%R.
Proof.
  intros Ha Hn. cbv zeta.
  destruct (analyze_photometry_inv p a Ha) as (points & _ & _ & _ & _ & Hv & Ho).
  assert (Hsel : length (select (valid a) (map rate (samples a))) = np_sum (valid a)).
  { apply select_length. now rewrite Hv, !length_map. }
  set (vf := select (valid a) (map rate (samples a))) in *.
  assert (Hne : vf <> []) by (intros E; rewrite E in Hsel; cbn in Hsel; lia).
  assert (Hpos : Forall (fun x => 0 < x)%R vf).
  { unfold vf. rewrite Hv. apply valid_fluxes_positive. }
  assert (Hq : (percentile vf 25 <= percentile vf 75)%R)
    by (apply percentile_mono; [exact Hne|lia]).
  split.
  - split; [|exact Hq].
    destruct (percentile_parts vf 25 Hne ltac:(lia))
      as (lo & hi & g & Hp & Hi & Hg & _). cbv zeta in *.
    rewrite Forall_forall in Hpos.
    pose proof (Hpos _ (nth_sort_R_elem vf lo ltac:(lia))).
    pose proof (Hpos _ (nth_sort_R_elem vf hi ltac:(lia))).
    rewrite Hp.
    replace (nth lo (sort_R vf) 0 + (nth hi (sort_R vf) 0 - nth lo (sort_R vf) 0) * g)%R
      with ((1 - g) * nth lo (sort_R vf) 0 + g * nth hi (sort_R vf) 0)%R by ring.
    nra.
  - intros i Hi. unfold outliers in Ho.
    rewrite decide_True in Ho by exact Hn. injection Ho as _ Hiqr.
    rewrite Hiqr in Hi. apply elem_of_np_where_map in Hi as (x & Hx & Hflag).
    exists x. split; [exact Hx|].
    apply iqr_flag_spec in Hflag. destruct Hflag; [left|right]; nra.
Qed.

Lemma iqr_flags_lie_outside_the_quartiles_witness :
  exists a,
    analyze_photometry (demo_photometer (Some [(0, 0); (1, 1)]%R)) = Analysed a
    /\ (percentile (select (valid a) (map rate (samples a))) 25
        <= percentile (select (valid a) (map rate (samples a))) 75)%R.
Proof.
  destruct (demo_photometer_runs [(0, 0); (1, 1)]%R) as (a & Ha & Hs).
  destruct (analyze_photometry_inv _ a Ha) as (points & _ & _ & _ & _ & Hv & _).
  destruct demo_sample_facts as (_ & Hr & Hsat & _ & m & Hm).
  assert (Hvalid : is_valid (measure_point (read_header ∅) 5 8 12 1 demo_obs) = true).
  { unfold is_valid. rewrite Hsat, Hm.
    rewrite (bool_decide_eq_true_2 _ Hr). reflexivity. }
  assert (Hn : (2 <= np_sum (valid a))%nat).
  { rewrite Hv, Hs. cbn [map]. rewrite Hvalid. unfold np_sum.
    rewrite !filter_cons, !decide_True by reflexivity. cbn. lia. }
  exists a. split; [exact Ha|].
  exact (proj2 (proj1 (iqr_flags_lie_outside_the_quartiles _ a Ha Hn))).
Defined.

Section DemoValid.

Lemma demo_sample_valid :
  is_valid (measure_point (read_header ∅) 5 8 12 1 demo_obs) = true.
Proof.
  destruct demo_sample_facts as (_ & Hr & Hsat & _ & m & Hm).
  unfold is_valid. rewrite Hsat, Hm.
  rewrite (bool_decide_eq_true_2 _ Hr). reflexivity.
Qed.

Lemma demo_all_valid (points : list (R * R)) (a : Analysis) :
  analyze_photometry (demo_photometer (Some points)) = Analysed a ->
  np_sum (valid a) = length points.
Proof.
  intros Ha.
  destruct (demo_photometer_runs points) as (a' & Ha' & Hs).
  rewrite Ha in Ha'. injection Ha' as <-.
  destruct (analyze_photometry_inv _ a Ha) as (_ & _ & _ & _ & _ & Hv & _).
  rewrite Hv, Hs. unfold np_sum. clear.
  induction points as [|pt points IH]; [reflexivity|].
  cbn [map]. rewrite demo_sample_valid, filter_cons, decide_True by reflexivity.
  cbn [length]. now rewrite IH.
Qed.

End DemoValid.

(** X9.  With three valid samples or more the variability block never
    divides by zero: the mean of the valid fluxes is positive, so the
    coefficient of variation is a number and it is not negative; the median
    flux is positive, and the median absolute deviation and the robust
    standard deviation are not negative. *)
Theorem variability_statistics_defined (p : Photometer) (a : Analysis) :
  analyze_photometry p = Analysed a ->
  (3 <= np_sum (valid a))%nat ->
  let valid_fluxes := select (valid a) (map rate (samples a)) in
  exists cv median_flux mad_flux robust_std : R,
    coefficient_variation (np_sum (valid a)) valid_fluxes = Some cv
    /\ robust_stats (np_sum (valid a)) valid_fluxes
       = Some (median_flux, mad_flux, robust_std)
    /\ (0 <= cv /\ 0 < median_flux /\ 0 <= mad_flux /\ 0 <= robust_std)%R.
Proof.
  intros Ha Hn. cbv zeta.
  destruct (analyze_photometry_inv p a Ha) as (points & _ & _ & _ & _ & Hv & _).
  assert (Hsel : length (select (valid a) (map rate (samples a))) = np_sum (valid a)).
  { apply select_length. now rewrite Hv, !length_map. }
  set (vf := select (valid a) (map rate (samples a))) in *.
  assert (Hne : vf <> []) by (intros E; rewrite E in Hsel; cbn in Hsel; lia).
  assert (Hpos : Forall (fun x => 0 < x)%R vf).
  { unfold vf. rewrite Hv. apply valid_fluxes_positive. }
  pose proof (mean_positive vf Hne Hpos) as Hmean.
  unfold coefficient_variation, robust_stats.
  destruct (decide (3 <= np_sum (valid a))%nat) as [_|]; [|lia].
  cbv zeta. rewrite decide_False by lra.
  eexists _, _, _, _. split; [reflexivity|]. split; [reflexivity|].
  assert (Hmed : (0 < np_median vf)%R).
  { unfold np_median.
    destruct (percentile_parts vf 50 Hne ltac:(lia))
      as (lo & hi & g & Hp & Hi & Hg & _). cbv zeta in *.
    rewrite Forall_forall in Hpos.
    pose proof (Hpos _ (nth_sort_R_elem vf lo ltac:(lia))).
    pose proof (Hpos _ (nth_sort_R_elem vf hi ltac:(lia))).
    rewrite Hp.
    replace (nth lo (sort_R vf) 0 + (nth hi (sort_R vf) 0 - nth lo (sort_R vf) 0) * g)%R
      with ((1 - g) * nth lo (sort_R vf) 0 + g * nth hi (sort_R vf) 0)%R by ring.
    nra. }
  assert (Hmad : (0 <= np_median (map (fun x => Rabs (x - np_median vf)) vf))%R).
  { unfold np_median at 1. apply percentile_lower; [|lia|].
    - destruct vf; [congruence|discriminate].
    - apply Forall_forall. intros y Hy.
      apply list_elem_of_fmap in Hy as (x & -> & _). apply Rabs_pos. }
  split; [|split; [exact Hmed|split; [exact Hmad|lra]]].
  apply Rmult_le_pos; [apply sqrt_pos|]. apply Rlt_le, Rinv_0_lt_compat, Hmean.
Qed.

Lemma variability_statistics_defined_witness :
  exists a cv,
    analyze_photometry (demo_photometer (Some [(0, 0); (1, 1); (2, 2)]%R)) = Analysed a
    /\ coefficient_variation (np_sum (valid a))
         (select (valid a) (map rate (samples a))) = Some cv
    /\ (0 <= cv)%R.
Proof.
  destruct (demo_photometer_runs [(0, 0); (1, 1); (2, 2)]%R) as (a & Ha & Hs).
  assert (Hn : (3 <= np_sum (valid a))%nat).
  { rewrite (demo_all_valid _ a Ha). cbn. lia. }
  destruct (variability_statistics_defined _ a Ha Hn)
    as (cv & med & mad & rs & Hcv & _ & Hpos & _).
  exists a, cv. split; [exact Ha|]. split; [exact Hcv|exact Hpos].
Defined.

(** ** Geometry of the sampled streak *)

Section GeometryFacts.
Local Open Scope R_scope.

Lemma np_diff_map_seq (f : nat -> point) (k m : nat) :
  np_diff (map f (seq k (S m)))
  = map (fun i => ((f (S i)).1 - (f i).1, (f (S i)).2 - (f i).2)) (seq k m).
Proof.
  unfold np_diff. revert k. induction m as [|m IH]; intros k; [reflexivity|].
  specialize (IH (S k)). cbn [seq map tail zip_with] in IH |- *.
  f_equal. exact IH.
Qed.

Lemma Rsum_const (A : Type) (h : A -> R) (c : R) (l : list A) :
  (forall i, i ∈ l -> h i = c) -> Rsum (map h l) = INR (length l) * c.
Proof.
  induction l as [|a l IH]; intros Hc; [unfold Rsum; cbn; lra|].
  cbn [map length]. rewrite Rsum_cons, S_INR, IH, (Hc a).
  - ring.
  - apply list_elem_of_here.
  - intros i Hi. apply Hc. now apply list_elem_of_further.
Qed.

Lemma sqrt_scaled (dx dy n : R) :
  0 < n -> sqrt ((dx / n) ^ 2 + (dy / n) ^ 2) = sqrt (dx ^ 2 + dy ^ 2) / n.
Proof.
  intros Hn.
  replace ((dx / n) ^ 2 + (dy / n) ^ 2) with ((dx ^ 2 + dy ^ 2) / (n * n))
    by (field; lra).
  rewrite sqrt_div_alt by nra. now rewrite sqrt_square by lra.
Qed.

Lemma dist_swap_sq (p1 p2 : point) :
  sqrt ((p2.1 - p1.1) ^ 2 + (p2.2 - p1.2) ^ 2) = dist p1 p2.
Proof. unfold dist. f_equal. ring. Qed.

End GeometryFacts.

(** X10.  For the points [confirm_streak] places between two clicked ends
    (two points or more, real arithmetic) the trail length is the distance
    between the two ends, the angular velocity is that distance over a
    positive exposure time, and the position angle is the direction from
    the first end to the second in degrees. *)
Theorem geometry_of_confirmed_streak
  (n_points : nat) (p1 p2 : R * R) (exptime_ : R) :
  (2 <= n_points)%nat ->
  (exptime_ > 0)%R ->
  exists points,
    confirm_streak n_points [p1; p2] = Ok (Some points)
    /\ calculate_trail_length points = Some (dist p1 p2)
    /\ calculate_angular_velocity points exptime_ = Some (dist p1 p2 / exptime_)%R
    /\ calculate_position_angle points
       = Some (arctan2 (p2.2 - p1.2) (p2.1 - p1.1) * 180 / PI)%R.
Proof.
  intros Hn He. destruct n_points as [|[|m]]; [lia|lia|].
  eexists. split; [reflexivity|].
  assert (Hlen : calculate_trail_length
                   (map (analysis_point (S (S m)) p1 p2) (seq 0 (S (S m))))
                 = Some (dist p1 p2)).
  { unfold calculate_trail_length.
    rewrite decide_False by (rewrite length_map, length_seq; lia).
    f_equal. rewrite np_diff_map_seq, map_map.
    rewrite (Rsum_const _ _ (dist p1 p2 / INR (S m))).
    - rewrite length_seq. field. pose proof (pos_INR m). rewrite S_INR. lra.
    - intros i _. destruct p1 as [x1 y1], p2 as [x2 y2].
      destruct (analysis_point_step (S (S m)) x1 y1 x2 y2 i ltac:(lia)) as [Hx Hy].
      cbv zeta in Hx, Hy. cbn [fst snd]. rewrite Hx, Hy.
      change (S (S m) - 1)%nat with (S m - 0)%nat. rewrite Nat.sub_0_r.
      rewrite sqrt_scaled by (apply lt_0_INR; lia).
      now rewrite <- (dist_swap_sq (x1, y1) (x2, y2)). }
  split; [exact Hlen|]. split.
  - unfold calculate_angular_velocity. rewrite decide_True by exact He.
    rewrite Hlen. reflexivity.
  - unfold calculate_position_angle.
    rewrite decide_False by (rewrite length_map, length_seq; lia).
    assert (Hh : head (map (analysis_point (S (S m)) p1 p2) (seq 0 (S (S m))))
                 = Some p1).
    { cbn [seq map head]. now rewrite analysis_point_first by lia. }
    assert (Hl : last (map (analysis_point (S (S m)) p1 p2) (seq 0 (S (S m))))
                 = Some p2).
    { replace (seq 0 (S (S m))) with (seq 0 (S m) ++ [S m])
        by (rewrite <- seq_S; reflexivity).
      rewrite map_app. cbn [map]. rewrite last_snoc.
      change (S m) with (S (S m) - 1)%nat at 2.
      now rewrite analysis_point_last by lia. }
    unfold point in *. rewrite Hh. cbn [mbind option_bind]. rewrite Hl. reflexivity.
Qed.

Lemma geometry_of_confirmed_streak_witness :
  exists points,
    confirm_streak 10 [(0, 0); (3, 4)]%R = Ok (Some points)
    /\ calculate_trail_length points = Some (dist (0, 0) (3, 4))%R.
Proof.
  destruct (geometry_of_confirmed_streak 10 (0, 0)%R (3, 4)%R 1
              ltac:(lia) ltac:(lra)) as (points & Hc & Hl & _).
  exists points. split; [exact Hc|exact Hl].
Defined.

Section TrailFacts.
Local Open Scope R_scope.

Lemma dist_triangle (a b c : point) : dist a c <= dist a b + dist b c.
Proof.
  pose proof (triangle a.1 a.2 c.1 c.2 b.1 b.2) as H.
  unfold dist_euc in H. unfold dist. now rewrite <- !Rsqr_pow2.
Qed.

(** The length of the path through [p :: l], as [calculate_trail_length]
    sums it. *)
Lemma path_length_ge (p : point) (l : list point) (final : point) :
  last (p :: l) = Some final ->
  dist p final
  <= Rsum (map (fun d => sqrt (d.1 ^ 2 + d.2 ^ 2)) (np_diff (p :: l))).
Proof.
  revert p. induction l as [|q l IH]; intros p Hlast.
  - cbn in Hlast. injection Hlast as <-. rewrite dist_self. unfold Rsum. cbn. lra.
  - change (last (p :: q :: l)) with (last (q :: l)) in Hlast.
    specialize (IH q Hlast).
    change (np_diff (p :: q :: l))
      with ((q.1 - p.1, q.2 - p.2) :: np_diff (q :: l)).
    cbn [map]. rewrite Rsum_cons. cbn [fst snd].
    rewrite (dist_swap_sq p q). pose proof (dist_triangle p q final). lra.
Qed.

End TrailFacts.

(** X11.  The trail length is [nan] exactly for fewer than two points;
    otherwise it is the length of the path through the points in order,
    which is never shorter than the distance from the first point to the
    last.  The angular velocity is [nan] for an exposure time that is not
    positive. *)
Theorem trail_length_bounds (points : list point) :
  (calculate_trail_length points = None <-> (length points < 2)%nat)
  /\ (forall first final trail_length,
        head points = Some first -> last points = Some final ->
        calculate_trail_length points = Some trail_length ->
        (dist first final <= trail_length)%R)
  /\ (forall exptime_, (exptime_ <= 0)%R ->
        calculate_angular_velocity points exptime_ = None).
Proof.
  split; [|split].
  - unfold calculate_trail_length.
    destruct (decide (length points < 2)%nat); split; intros; (done || lia).
  - intros first final L Hh Hl. unfold calculate_trail_length.
    destruct (decide (length points < 2)%nat); [discriminate|].
    intros [= <-]. destruct points as [|p l]; [discriminate|].
    cbn in Hh. injection Hh as ->. now apply path_length_ge.
  - intros e He. unfold calculate_angular_velocity.
    rewrite decide_False by lra. reflexivity.
Qed.

(** ** Second moments of a cutout *)

Section FwhmFacts.
Local Open Scope R_scope.

Lemma Rsum_imap_nonneg (f : nat -> R -> R) (l : list R) :
  Forall (fun c => 0 <= c) l ->
  (forall i c, 0 <= c -> 0 <= f i c) ->
  0 <= Rsum (imap f l).
Proof.
  intros Hl. revert f. induction Hl as [|c l Hc Hl IH]; intros f Hf.
  - unfold Rsum. cbn. lra.
  - cbn [imap]. rewrite Rsum_cons.
    pose proof (Hf 0%nat c Hc). pose proof (IH (f ∘ S) (fun i => Hf (S i))). lra.
Qed.

Lemma Rsum_imap_rows_nonneg (G : nat -> list R -> R) (cutout : list (list R)) :
  Forall (Forall (fun c => 0 <= c)) cutout ->
  (forall y row, Forall (fun c => 0 <= c) row -> 0 <= G y row) ->
  0 <= Rsum (imap G cutout).
Proof.
  intros Hc. revert G. induction Hc as [|row cutout Hrow Hc IH]; intros G HG.
  - unfold Rsum. cbn. lra.
  - cbn [imap]. rewrite Rsum_cons.
    pose proof (HG 0%nat row Hrow). pose proof (IH (G ∘ S) (fun y => HG (S y))). lra.
Qed.

Lemma weighted_sum_nonneg (w : nat -> nat -> R) (cutout : list (list R)) :
  Forall (Forall (fun c => 0 <= c)) cutout ->
  (forall y x, 0 <= w y x) ->
  0 <= weighted_sum w cutout.
Proof.
  intros Hc Hw. unfold weighted_sum. apply Rsum_imap_rows_nonneg; [exact Hc|].
  intros y row Hrow. apply Rsum_imap_nonneg; [exact Hrow|].
  intros x c Hx. apply Rmult_le_pos; [apply Hw|exact Hx].
Qed.

Lemma Rsum_nonneg (l : list R) : Forall (fun c => 0 <= c) l -> 0 <= Rsum l.
Proof.
  induction 1 as [|c l Hc Hl IH]; [unfold Rsum; cbn; lra|].
  rewrite Rsum_cons. lra.
Qed.

Lemma Rsum_pos_exists (l : list R) (x : R) :
  Forall (fun c => 0 <= c) l -> x ∈ l -> 0 < x -> 0 < Rsum l.
Proof.
  intros Hl Hx Hpos. induction Hl as [|c l Hc Hl IH]; [inversion Hx|].
  rewrite Rsum_cons. pose proof (Rsum_nonneg l Hl).
  apply elem_of_cons in Hx as [->|Hx]; [lra|].
  specialize (IH Hx). lra.
Qed.

Lemma Rsum_imap_unit (row : list R) :
  Rsum (imap (fun (_ : nat) c => 1 * c) row) = Rsum row.
Proof.
  induction row as [|c row IH]; [reflexivity|].
  cbn [imap]. rewrite !Rsum_cons.
  change ((fun (_ : nat) (c0 : R) => 1 * c0) ∘ S) with (fun (_ : nat) (c0 : R) => 1 * c0).
  rewrite IH. ring.
Qed.

Lemma weighted_sum_unit (cutout : list (list R)) :
  weighted_sum (fun _ _ => 1) cutout = Rsum (map Rsum cutout).
Proof.
  unfold weighted_sum. induction cutout as [|row cutout IH]; [reflexivity|].
  cbn [imap map]. rewrite !Rsum_cons, Rsum_imap_unit. f_equal. exact IH.
Qed.

Lemma all_zero_false (cutout : list (list R)) :
  all_zero cutout = false ->
  exists row c, row ∈ cutout /\ c ∈ row /\ c <> 0.
Proof.
  unfold all_zero. induction cutout as [|row cutout IH]; [discriminate|].
  cbn [forallb]. intros H. apply andb_false_iff in H as [H|H].
  - exists row. clear IH. induction row as [|c row IHr]; [discriminate|].
    cbn [forallb] in H. apply andb_false_iff in H as [H|H].
    + exists c. apply bool_decide_eq_false in H.
      split; [apply list_elem_of_here|]. split; [apply list_elem_of_here|exact H].
    + destruct (IHr H) as (c' & _ & Hc' & Hne). exists c'.
      split; [apply list_elem_of_here|].
      split; [now apply list_elem_of_further|exact Hne].
  - destruct (IH H) as (row' & c & Hrow & Hc & Hne). exists row', c.
    split; [now apply list_elem_of_further|]. split; assumption.
Qed.

Lemma total_positive (cutout : list (list R)) :
  Forall (Forall (fun c => 0 <= c)) cutout ->
  all_zero cutout = false ->
  0 < weighted_sum (fun _ _ => 1) cutout.
Proof.
  intros Hc Hz. rewrite weighted_sum_unit.
  destruct (all_zero_false cutout Hz) as (row & c & Hrow & Hcin & Hne).
  rewrite Forall_forall in Hc.
  apply (Rsum_pos_exists _ (Rsum row)).
  - apply Forall_forall. intros s Hs.
    apply list_elem_of_fmap in Hs as (r & -> & Hr). apply Rsum_nonneg, Hc, Hr.
  - apply list_elem_of_fmap. exists row. split; [reflexivity|exact Hrow].
  - pose proof (Hc row Hrow) as Hr. apply (Rsum_pos_exists _ c Hr Hcin).
    rewrite Forall_forall in Hr. specialize (Hr c Hcin). lra.
Qed.

(** Scaling every pixel scales every weighted sum. *)
Lemma Rsum_imap_scale (k : R) (f : nat -> R -> R) (row : list R) :
  (forall i c, f i (k * c) = k * f i c) ->
  Rsum (imap f (map (Rmult k) row)) = k * Rsum (imap f row).
Proof.
  revert f. induction row as [|c row IH]; intros f Hf.
  - unfold Rsum. cbn. ring.
  - cbn [map imap]. rewrite !Rsum_cons, Hf, (IH (f ∘ S)); [ring|].
    intros i c'. apply Hf.
Qed.

Lemma Rsum_imap_rows_scale (k : R) (F : nat -> nat -> R -> R) (cutout : list (list R)) :
  (forall y x c, F y x (k * c) = k * F y x c) ->
  Rsum (imap (fun y row => Rsum (imap (F y) row)) (map (map (Rmult k)) cutout))
  = k * Rsum (imap (fun y row => Rsum (imap (F y) row)) cutout).
Proof.
  revert F. induction cutout as [|row cutout IH]; intros F HF.
  - unfold Rsum. cbn. ring.
  - cbn [map imap]. rewrite !Rsum_cons, Rsum_imap_scale by apply HF.
    specialize (IH (fun y => F (S y)) (fun y => HF (S y))).
    change ((fun y row0 => Rsum (imap (F y) row0)) ∘ S)
      with (fun y row0 => Rsum (imap (F (S y)) row0)).
    rewrite IH. ring.
Qed.

Lemma weighted_sum_scale (k : R) (w : nat -> nat -> R) (cutout : list (list R)) :
  weighted_sum w (map (map (Rmult k)) cutout) = k * weighted_sum w cutout.
Proof.
  unfold weighted_sum.
  apply (Rsum_imap_rows_scale k (fun y x c => w y x * c)). intros. ring.
Qed.

Lemma all_zero_scale (k : R) (cutout : list (list R)) :
  k <> 0 -> all_zero (map (map (Rmult k)) cutout) = all_zero cutout.
Proof.
  intros Hk. unfold all_zero. induction cutout as [|row cutout IH]; [reflexivity|].
  cbn [map forallb]. rewrite IH. f_equal.
  induction row as [|c row IHr]; [reflexivity|].
  cbn [map forallb]. rewrite IHr. f_equal.
  apply bool_decide_ext. split; intros H; [|rewrite H; ring].
  apply Rmult_integral in H as [H|H]; [contradiction|exact H].
Qed.

End FwhmFacts.

(** X12.  On a cutout without negative pixels the FWHM estimate is [nan]
    only when every pixel is zero; with some positive pixel the total flux
    is positive, both second moments are non-negative, and the estimate is
    a number that is not negative. *)
Theorem fwhm_of_nonnegative_cutout (pixels : list (list R)) :
  Forall (Forall (fun c => 0 <= c)%R) pixels ->
  (all_zero pixels = true -> estimate_fwhm_from_cutout (Some pixels) = None)
  /\ (all_zero pixels = false ->
      exists v, estimate_fwhm_from_cutout (Some pixels) = Some v /\ (0 <= v)%R).
Proof.
  intros Hc. unfold estimate_fwhm_from_cutout. split; intros Hz; rewrite Hz.
  - reflexivity.
  - pose proof (total_positive pixels Hc Hz) as Htot. cbv zeta.
    rewrite decide_False by lra.
    set (total := weighted_sum (fun _ _ => 1%R) pixels) in *.
    set (x_mean := (weighted_sum (fun _ x => INR x) pixels / total)%R).
    set (y_mean := (weighted_sum (fun y _ => INR y) pixels / total)%R).
    pose proof (weighted_sum_nonneg (fun _ x => (INR x - x_mean) ^ 2)%R pixels Hc
                  (fun _ x => pow2_ge_0 _)) as Hx.
    pose proof (weighted_sum_nonneg (fun y _ => (INR y - y_mean) ^ 2)%R pixels Hc
                  (fun y _ => pow2_ge_0 _)) as Hy.
    set (sx := weighted_sum (fun _ x => (INR x - x_mean) ^ 2)%R pixels) in *.
    set (sy := weighted_sum (fun y _ => (INR y - y_mean) ^ 2)%R pixels) in *.
    assert (Hv : (0 <= (sx / total + sy / total) / 2)%R).
    { assert (0 <= sx / total)%R by (apply Rmult_le_pos;
        [exact Hx|apply Rlt_le, Rinv_0_lt_compat, Htot]).
      assert (0 <= sy / total)%R by (apply Rmult_le_pos;
        [exact Hy|apply Rlt_le, Rinv_0_lt_compat, Htot]).
      lra. }
    unfold np_sqrt. rewrite decide_False by lra. cbn [mbind option_bind].
    eexists. split; [reflexivity|].
    pose proof (sqrt_pos ((sx / total + sy / total) / 2)). lra.
Qed.

Lemma fwhm_of_nonnegative_cutout_witness :
  exists v, estimate_fwhm_from_cutout (Some [[0; 1]; [2; 0]]%R) = Some v /\ (0 <= v)%R.
Proof.
  assert (Hc : Forall (Forall (fun c => 0 <= c)%R) [[0; 1]; [2; 0]]%R)
    by (repeat constructor; lra).
  apply (proj2 (fwhm_of_nonnegative_cutout _ Hc)).
  unfold all_zero. cbn [forallb].
  rewrite (bool_decide_eq_true_2 (0 = 0)%R) by reflexivity.
  rewrite (bool_decide_eq_false_2 (1 = 0)%R) by lra. reflexivity.
Defined.

(** X13.  The FWHM estimate does not depend on the brightness scale:
    multiplying every pixel of the cutout by the same positive factor
    leaves it unchanged. *)
Theorem fwhm_scale_invariant (k : R) (pixels : list (list R)) :
  (0 < k)%R ->
  estimate_fwhm_from_cutout (Some (map (map (Rmult k)) pixels))
  = estimate_fwhm_from_cutout (Some pixels).
Proof.
  intros Hk. unfold estimate_fwhm_from_cutout.
  rewrite all_zero_scale by lra. destruct (all_zero pixels); [reflexivity|].
  cbv zeta. rewrite !weighted_sum_scale.
  set (total := weighted_sum (fun _ _ => 1%R) pixels).
  destruct (decide (total <= 0)%R) as [Hle|Hgt].
  - rewrite decide_True by nra. reflexivity.
  - rewrite decide_False by nra.
    replace (k * weighted_sum (fun _ x => INR x) pixels / (k * total))%R
      with (weighted_sum (fun _ x => INR x) pixels / total)%R by (field; lra).
    replace (k * weighted_sum (fun y _ => INR y) pixels / (k * total))%R
      with (weighted_sum (fun y _ => INR y) pixels / total)%R by (field; lra).
    set (sx := weighted_sum (fun _ x => (INR x - _) ^ 2)%R pixels).
    set (sy := weighted_sum (fun y _ => (INR y - _) ^ 2)%R pixels).
    replace (k * sx / (k * total))%R with (sx / total)%R by (field; lra).
    replace (k * sy / (k * total))%R with (sy / total)%R by (field; lra).
    reflexivity.
Qed.

Lemma fwhm_scale_invariant_witness :
  estimate_fwhm_from_cutout (Some (map (map (Rmult 2)) [[0; 1]; [2; 0]]%R))
  = estimate_fwhm_from_cutout (Some [[0; 1]; [2; 0]]%R).
Proof. apply fwhm_scale_invariant. lra. Defined.

(** ** Direction angles *)

Section AngleFacts.
Local Open Scope R_scope.

Lemma atan_pos (t : R) : 0 < t -> 0 < atan t.
Proof. intros H. rewrite <- atan_0. now apply atan_increasing. Qed.

Lemma atan_neg (t : R) : t < 0 -> atan t < 0.
Proof. intros H. rewrite <- atan_0. now apply atan_increasing. Qed.

Lemma deg_lt_0 (a : R) : a * 180 / PI < 0 <-> a < 0.
Proof.
  pose proof PI_RGT_0 as Hpi. pose proof (Rinv_0_lt_compat PI Hpi) as Hinv.
  unfold Rdiv. split; intros H; nra.
Qed.

Lemma deg_shift (a : R) : (a + PI) * 180 / PI = a * 180 / PI + 180.
Proof. pose proof PI_RGT_0. field. lra. Qed.

Lemma deg_unshift (a : R) : (a - PI) * 180 / PI = a * 180 / PI - 180.
Proof. pose proof PI_RGT_0. field. lra. Qed.

Lemma arctan2_range (y x : R) : - PI < arctan2 y x <= PI.
Proof.
  pose proof PI_RGT_0 as Hpi. unfold arctan2.
  pose proof (atan_bound (y / x)) as [Hlo Hhi].
  destruct (decide (0 < x)); [lra|].
  destruct (decide (x < 0)) as [Hx|].
  - assert (Hinv : / x < 0) by now apply Rinv_lt_0_compat.
    destruct (decide (0 <= y)) as [Hy|Hy].
    + destruct (Req_dec y 0) as [->|Hne].
      * unfold Rdiv. rewrite Rmult_0_l, atan_0. lra.
      * assert (atan (y / x) < 0) by (apply atan_neg; unfold Rdiv; nra). lra.
    + assert (0 < atan (y / x)) by (apply atan_pos; unfold Rdiv; nra). lra.
  - destruct (decide (0 < y)); [lra|]. destruct (decide (y < 0)); lra.
Qed.

Lemma fold_angle_range (dy dx : R) : 0 <= fold_angle dy dx <= 180.
Proof.
  pose proof PI_RGT_0 as Hpi. pose proof (Rinv_0_lt_compat PI Hpi) as Hinv.
  pose proof (arctan2_range dy dx) as [Hlo Hhi].
  unfold fold_angle. cbv zeta.
  assert (Hlo' : -180 < arctan2 dy dx * 180 / PI).
  { replace (-180) with (- PI * 180 / PI) by (field; lra). unfold Rdiv. nra. }
  assert (Hhi' : arctan2 dy dx * 180 / PI <= 180).
  { replace 180 with (PI * 180 / PI) at 2 by (field; lra). unfold Rdiv. nra. }
  destruct (decide (arctan2 dy dx * 180 / PI < 0)); lra.
Qed.

Lemma fold_angle_opp (dy dx : R) :
  fold_angle (- dy) (- dx) = fold_angle dy dx
  \/ (fold_angle dy dx = 0 /\ fold_angle (- dy) (- dx) = 180)
  \/ (fold_angle dy dx = 180 /\ fold_angle (- dy) (- dx) = 0).
Proof.
  pose proof PI_RGT_0 as Hpi. pose proof (Rinv_0_lt_compat PI Hpi) as Hinv.
  assert (Hq : - dy / - dx = dy / dx).
  { destruct (Req_dec dx 0) as [->|Hne].
    - unfold Rdiv. rewrite Ropp_0, Rinv_0. ring.
    - field. exact Hne. }
  pose proof (atan_bound (dy / dx)) as [Hlo Hhi].
  assert (Hhalf : PI / 2 * 180 / PI = 90) by (field; lra).
  assert (Hmhalf : - (PI / 2) * 180 / PI = -90) by (field; lra).
  assert (Hzero : 0 * 180 / PI = 0) by (unfold Rdiv; ring).
  assert (Hpi180 : PI * 180 / PI = 180) by (field; lra).
  unfold fold_angle, arctan2. cbv zeta. rewrite Hq.
  destruct (Rtotal_order dx 0) as [Hx|[Hx|Hx]].
  - (* dx < 0 *)
    assert (Hix : / dx < 0) by now apply Rinv_lt_0_compat.
    rewrite (decide_True (P := 0 < - dx)) by lra.
    rewrite (decide_False (P := 0 < dx)) by lra.
    rewrite (decide_True (P := dx < 0)) by lra.
    destruct (Rtotal_order dy 0) as [Hy|[Hy|Hy]].
    + assert (Ha : 0 < atan (dy / dx)) by (apply atan_pos; unfold Rdiv; nra).
      rewrite (decide_False (P := 0 <= dy)) by lra. rewrite deg_unshift.
      assert (Hd : ~ atan (dy / dx) * 180 / PI < 0) by (rewrite deg_lt_0; lra).
      assert (Hd' : atan (dy / dx) * 180 / PI - 180 < 0).
      { rewrite <- deg_unshift. apply deg_lt_0. lra. }
      rewrite (decide_False (P := atan (dy / dx) * 180 / PI < 0)) by exact Hd.
      rewrite (decide_True (P := atan (dy / dx) * 180 / PI - 180 < 0)) by exact Hd'. left. ring.
    + subst dy. replace (0 / dx) with 0 by (unfold Rdiv; ring). rewrite atan_0.
      rewrite (decide_True (P := 0 <= 0)) by lra.
      rewrite Rplus_0_l, Hzero, Hpi180.
      rewrite (decide_False (P := 0 < 0)), (decide_False (P := 180 < 0)) by lra.
      right. right. split; reflexivity.
    + assert (Ha : atan (dy / dx) < 0) by (apply atan_neg; unfold Rdiv; nra).
      rewrite (decide_True (P := 0 <= dy)) by lra. rewrite deg_shift.
      assert (Hd : atan (dy / dx) * 180 / PI < 0) by (rewrite deg_lt_0; lra).
      assert (Hd' : ~ atan (dy / dx) * 180 / PI + 180 < 0).
      { rewrite <- deg_shift. rewrite deg_lt_0. lra. }
      rewrite (decide_True (P := atan (dy / dx) * 180 / PI < 0)) by exact Hd.
      rewrite (decide_False (P := atan (dy / dx) * 180 / PI + 180 < 0)) by exact Hd'. left. reflexivity.
  - (* dx = 0 *)
    subst dx. rewrite Ropp_0.
    rewrite !(decide_False (P := 0 < 0)) by lra.
    destruct (Rtotal_order dy 0) as [Hy|[Hy|Hy]].
    + rewrite (decide_True (P := 0 < - dy)) by lra.
      rewrite (decide_False (P := 0 < dy)) by lra.
      rewrite (decide_True (P := dy < 0)) by lra.
      rewrite Hhalf, Hmhalf.
      rewrite (decide_False (P := 90 < 0)), (decide_True (P := -90 < 0)) by lra.
      left. ring.
    + subst dy. rewrite Ropp_0.
      rewrite !(decide_False (P := 0 < 0)) by lra. left. reflexivity.
    + rewrite (decide_False (P := 0 < - dy)) by lra.
      rewrite (decide_True (P := - dy < 0)) by lra.
      rewrite (decide_True (P := 0 < dy)) by lra.
      rewrite Hhalf, Hmhalf.
      rewrite (decide_False (P := 90 < 0)), (decide_True (P := -90 < 0)) by lra.
      left. ring.
  - (* 0 < dx *)
    assert (Hix : 0 < / dx) by now apply Rinv_0_lt_compat.
    rewrite (decide_False (P := 0 < - dx)) by lra.
    rewrite (decide_True (P := - dx < 0)) by lra.
    rewrite (decide_True (P := 0 < dx)) by lra.
    destruct (Rtotal_order dy 0) as [Hy|[Hy|Hy]].
    + assert (Ha : atan (dy / dx) < 0) by (apply atan_neg; unfold Rdiv; nra).
      rewrite (decide_True (P := 0 <= - dy)) by lra. rewrite deg_shift.
      assert (Hd : atan (dy / dx) * 180 / PI < 0) by (rewrite deg_lt_0; lra).
      assert (Hd' : ~ atan (dy / dx) * 180 / PI + 180 < 0).
      { rewrite <- deg_shift. rewrite deg_lt_0. lra. }
      rewrite (decide_True (P := atan (dy / dx) * 180 / PI < 0)) by exact Hd.
      rewrite (decide_False (P := atan (dy / dx) * 180 / PI + 180 < 0)) by exact Hd'. left. reflexivity.
    + subst dy. rewrite Ropp_0. replace (0 / dx) with 0 by (unfold Rdiv; ring). rewrite atan_0.
      rewrite (decide_True (P := 0 <= 0)) by lra.
      rewrite Rplus_0_l, Hzero, Hpi180.
      rewrite (decide_False (P := 0 < 0)), (decide_False (P := 180 < 0)) by lra.
      right. left. split; reflexivity.
    + assert (Ha : 0 < atan (dy / dx)) by (apply atan_pos; unfold Rdiv; nra).
      rewrite (decide_False (P := 0 <= - dy)) by lra. rewrite deg_unshift.
      assert (Hd : ~ atan (dy / dx) * 180 / PI < 0) by (rewrite deg_lt_0; lra).
      assert (Hd' : atan (dy / dx) * 180 / PI - 180 < 0).
      { rewrite <- deg_unshift. apply deg_lt_0. lra. }
      rewrite (decide_False (P := atan (dy / dx) * 180 / PI < 0)) by exact Hd.
      rewrite (decide_True (P := atan (dy / dx) * 180 / PI - 180 < 0)) by exact Hd'. left. ring.
Qed.

Lemma get_angle_fold (s : Streak.t) :
  get_angle s
  = fold_angle (Streak.y_end s - Streak.y_start s) (Streak.x_end s - Streak.x_start s).
Proof. reflexivity. Qed.

Lemma get_angle_reversed (s : Streak.t) :
  get_angle (reversed s) = get_angle s
  \/ (get_angle s = 0 /\ get_angle (reversed s) = 180)
  \/ (get_angle s = 180 /\ get_angle (reversed s) = 0).
Proof.
  rewrite !get_angle_fold. cbn [reversed Streak.x_start Streak.y_start Streak.x_end Streak.y_end].
  replace (Streak.y_start s - Streak.y_end s)
    with (- (Streak.y_end s - Streak.y_start s)) by ring.
  replace (Streak.x_start s - Streak.x_end s)
    with (- (Streak.x_end s - Streak.x_start s)) by ring.
  apply fold_angle_opp.
Qed.

End AngleFacts.

(** X14.  The direction angle of a fragment lies in [0, 180] degrees, the
    wrap-around difference of two such angles lies in [0, 90] and does not
    depend on the order of the two fragments, and it does not depend on the
    end from which a fragment is reported: reversing a fragment changes no
    angle difference, so it changes no grouping decision. *)
Theorem angle_ignores_direction (s1 s2 : Streak.t) :
  (0 <= get_angle s1 <= 180)%R
  /\ (0 <= angle_diff (get_angle s1) (get_angle s2) <= 90)%R
  /\ angle_diff (get_angle s1) (get_angle s2) = angle_diff (get_angle s2) (get_angle s1)
  /\ angle_diff (get_angle s1) (get_angle (reversed s2))
     = angle_diff (get_angle s1) (get_angle s2)
  /\ angle_diff (get_angle s1) (get_angle (reversed s1)) = 0%R.
Proof.
  pose proof (fold_angle_range (Streak.y_end s1 - Streak.y_start s1)
                (Streak.x_end s1 - Streak.x_start s1)) as H1.
  pose proof (fold_angle_range (Streak.y_end s2 - Streak.y_start s2)
                (Streak.x_end s2 - Streak.x_start s2)) as H2.
  rewrite <- get_angle_fold in H1, H2.
  pose proof (get_angle_reversed s1) as R1. pose proof (get_angle_reversed s2) as R2.
  set (a1 := get_angle s1) in *. set (a2 := get_angle s2) in *.
  set (r1 := get_angle (reversed s1)) in *. set (r2 := get_angle (reversed s2)) in *.
  unfold angle_diff, Rmin, Rabs.
  split; [exact H1|].
  repeat split;
    repeat (match goal with
            | |- context [Rle_dec ?a ?b] => destruct (Rle_dec a b)
            | |- context [Rcase_abs ?a] => destruct (Rcase_abs a)
            end);
    lra.
Qed.

(** ** Every fragment is grouped *)

Section GroupCoverage.
Local Open Scope R_scope.
Variable streak_eqb : Streak.t -> Streak.t -> bool.
Variables tol max_d : R.
Variable valid_streaks : list Streak.t.

Hypothesis distinct :
  forall k j sk sj,
    (k < j)%nat -> valid_streaks !! k = Some sk -> valid_streaks !! j = Some sj ->
    streak_eqb sk sj = false.

Lemma elem_of_concat {A} (x : A) (ls : list (list A)) :
  x ∈ concat ls <-> exists l, x ∈ l /\ l ∈ ls.
Proof.
  rewrite list_elem_of_In, in_concat. split.
  - intros (l & Hl & Hx). exists l. now rewrite !list_elem_of_In.
  - intros (l & Hx & Hl). exists l. now rewrite <- !list_elem_of_In.
Qed.

Lemma group_loop_covers (l : list Streak.t) :
  forall (pre : list Streak.t) (used : gset nat),
    valid_streaks = pre ++ l ->
    (forall k, (k < length pre)%nat -> k ∈ used) ->
    forall j,
      (j < length valid_streaks)%nat -> j ∉ used ->
      j ∈ (concat (group_loop streak_eqb tol max_d valid_streaks
                     (enumerate_from (length pre) l) used)).*1.
Proof.
  induction l as [|s1 l IH]; intros pre used Hv Hpre j Hj Hju.
  - exfalso. apply Hju, Hpre. rewrite Hv, app_nil_r in Hj. exact Hj.
  - cbn [enumerate_from group_loop].
    assert (Hv' : valid_streaks = (pre ++ [s1]) ++ l) by now rewrite <- app_assoc.
    assert (Hlen : length (pre ++ [s1]) = S (length pre))
      by (rewrite length_app; cbn; lia).
    destruct (decide (length pre ∈ used)) as [Hin|Hnin].
    + specialize (IH (pre ++ [s1]) used Hv'). rewrite Hlen in IH.
      apply IH; [|exact Hj|exact Hju].
      intros k Hk. destruct (decide (k = length pre)) as [->|]; [exact Hin|].
      apply Hpre. lia.
    + assert (Hs1 : valid_streaks !! length pre = Some s1).
      { rewrite Hv. now rewrite list_lookup_middle. }
      destruct (seed_group_spec streak_eqb tol max_d valid_streaks distinct
                  used (length pre) s1 Hs1 Hnin Hpre)
        as (Hhead & _ & _ & Hfinal & _).
      set (g0 := stitch max_d [(length pre, s1)]
                   (similar_angle tol valid_streaks used (length pre) s1)) in *.
      set (used' := used ∪ final_indices streak_eqb valid_streaks (length pre) g0).
      assert (Hused' : forall k, k ∈ used' <-> k ∈ used \/ k ∈ g0.*1).
      { intros k. unfold used'. now rewrite elem_of_union, Hfinal. }
      assert (Hseed : length pre ∈ g0.*1).
      { destruct g0 as [|x g0']; [discriminate|]. cbn in Hhead.
        injection Hhead as ->. now left. }
      cbn [concat]. rewrite fmap_app, elem_of_app.
      destruct (decide (j ∈ used')) as [Hu|Hu].
      * left. apply Hused' in Hu as [Hu|Hu]; [contradiction|exact Hu].
      * right. specialize (IH (pre ++ [s1]) used' Hv'). rewrite Hlen in IH.
        apply IH; [|exact Hj|exact Hu].
        intros k Hk. apply Hused'.
        destruct (decide (k = length pre)) as [->|]; [now right|].
        left. apply Hpre. lia.
Qed.

Lemma streak_groups_cover (j : nat) (sj : Streak.t) :
  valid_streaks !! j = Some sj ->
  exists g, g ∈ streak_groups streak_eqb tol max_d valid_streaks /\ (j, sj) ∈ g.
Proof.
  intros Hj.
  assert (Hpre : forall k, (k < length (@nil Streak.t))%nat -> k ∈ (∅ : gset nat))
    by (cbn; lia).
  pose proof (group_loop_covers valid_streaks [] ∅ eq_refl Hpre j
                (lookup_lt_Some _ _ _ Hj) (not_elem_of_empty j)) as Hin.
  cbn [length] in Hin. fold (enumerate valid_streaks) in Hin.
  fold (streak_groups streak_eqb tol max_d valid_streaks) in Hin.
  apply list_elem_of_fmap in Hin as ([j' s'] & Hjj & Hin). cbn in Hjj. subst j'.
  apply elem_of_concat in Hin as (g & Hin & Hg).
  exists g. split; [exact Hg|].
  assert (Hs : (j, s') ∈ enumerate valid_streaks).
  { apply (group_loop_members streak_eqb tol max_d valid_streaks
             (enumerate valid_streaks) ∅ (fun js H => H) g (j, s') Hg Hin). }
  apply elem_of_enumerate in Hs. rewrite Hj in Hs. injection Hs as ->. exact Hin.
Qed.

End GroupCoverage.

(** X15.  When no surviving fragment compares equal to a later one, the
    groups partition the surviving fragments: the positions held by the
    groups, taken together, are each position of the list exactly once, and
    every member of a group is the fragment at its position. *)
Theorem grouping_partitions_fragments
  (streak_eqb : Streak.t -> Streak.t -> bool) (tol max_d : R)
  (valid_streaks : list Streak.t) :
  (forall k j sk sj,
     (k < j)%nat -> valid_streaks !! k = Some sk -> valid_streaks !! j = Some sj ->
     streak_eqb sk sj = false) ->
  let groups := streak_groups streak_eqb tol max_d valid_streaks in
  (concat groups).*1 ≡ₚ seq 0 (length valid_streaks)
  /\ forall j sj, (j, sj) ∈ concat groups -> valid_streaks !! j = Some sj.
Proof.
  intros Hdistinct groups.
  assert (Hpre : forall k, (k < length (@nil Streak.t))%nat -> k ∈ (∅ : gset nat))
    by (cbn; lia).
  pose proof (group_loop_spec streak_eqb tol max_d valid_streaks Hdistinct
                valid_streaks [] ∅ eq_refl Hpre) as (Hnodup & _ & _).
  cbn [length] in Hnodup. fold (enumerate valid_streaks) in Hnodup.
  fold (streak_groups streak_eqb tol max_d valid_streaks) in Hnodup. fold groups in Hnodup.
  assert (Hmem : forall j sj, (j, sj) ∈ concat groups -> valid_streaks !! j = Some sj).
  { intros j sj Hin. apply elem_of_concat in Hin as (g & Hin & Hg).
    apply elem_of_enumerate.
    apply (group_loop_members streak_eqb tol max_d valid_streaks
             (enumerate valid_streaks) ∅ (fun js H => H) g (j, sj) Hg Hin). }
  split; [|exact Hmem].
  apply NoDup_Permutation; [exact Hnodup|apply NoDup_seq|].
  intros j. rewrite elem_of_seq. split.
  - intros Hin. apply list_elem_of_fmap in Hin as ([j' s'] & -> & Hin).
    apply Hmem, lookup_lt_Some in Hin. cbn. lia.
  - intros [_ Hj]. cbn in Hj.
    destruct (lookup_lt_is_Some_2 valid_streaks j Hj) as [sj Hsj].
    destruct (streak_groups_cover streak_eqb tol max_d valid_streaks Hdistinct j sj Hsj)
      as (g & Hg & Hin).
    apply list_elem_of_fmap. exists (j, sj). split; [reflexivity|].
    apply elem_of_concat. exists g. split; [exact Hin|exact Hg].
Qed.

Lemma grouping_partitions_fragments_witness :
  (concat (streak_groups (fun _ _ => false) angle_tolerance max_distance
             [streak_a; streak_b])).*1 ≡ₚ [0; 1]%nat.
Proof.
  exact (proj1 (grouping_partitions_fragments (fun _ _ => false) angle_tolerance
                  max_distance [streak_a; streak_b] ltac:(reflexivity))).
Defined.

Section SpanFacts.
Local Open Scope R_scope.

Lemma two_distinct_elements {A} (l : list A) (x y : A) :
  x ∈ l -> y ∈ l -> x <> y -> (2 <= length l)%nat.
Proof.
  intros Hx Hy Hne. destruct l as [|a [|b l]]; [inversion Hx| |cbn; lia].
  apply list_elem_of_singleton in Hx, Hy. congruence.
Qed.

Lemma coords_in_group (g : list (nat * Streak.t)) (j : nat) (s : Streak.t) (q : point) :
  (j, s) ∈ g -> q ∈ zip (Streak.x_coords s) (Streak.y_coords s) -> q ∈ all_coords g.
Proof.
  intros Hg Hq. unfold all_coords. apply list_elem_of_bind.
  exists (j, s). split; [exact Hq|exact Hg].
Qed.

End SpanFacts.

(** X16.  When two or more fragments survive the length filter and none
    compares equal to a later one, the resolver returns two points that are
    at least as far apart as any two pixels of any single surviving
    fragment. *)
Theorem resolved_span_covers_every_fragment
  (streak_eqb : Streak.t -> Streak.t -> bool) (streaks : list Streak.t)
  (first second : Streak.t) (rest : list Streak.t) :
  filter (fun s => Streak.length s >= min_length)%R streaks = first :: second :: rest ->
  (forall k j sk sj,
     (k < j)%nat -> (first :: second :: rest) !! k = Some sk ->
     (first :: second :: rest) !! j = Some sj -> streak_eqb sk sj = false) ->
  exists p1 p2,
    detect_streak_endpoints streak_eqb streaks = Some (p1, p2)
    /\ forall s q1 q2,
         s ∈ first :: second :: rest ->
         q1 ∈ zip (Streak.x_coords s) (Streak.y_coords s) ->
         q2 ∈ zip (Streak.x_coords s) (Streak.y_coords s) ->
         (dist q1 q2 <= dist p1 p2)%R.
Proof.
  intros Hfilter Hdistinct.
  set (r := resolve_groups streak_eqb first (second :: rest)).
  exists r.1, r.2. split.
  - unfold detect_streak_endpoints. rewrite Hfilter.
    destruct streaks as [|s0 streaks']; [discriminate|].
    now rewrite <- surjective_pairing.
  - intros s q1 q2 Hs Hq1 Hq2.
    destruct (decide (q1 = q2)) as [->|Hne]; [rewrite dist_self; apply dist_nonneg|].
    apply list_elem_of_lookup in Hs as [j Hj].
    destruct (streak_groups_cover streak_eqb angle_tolerance max_distance
                (first :: second :: rest) Hdistinct j s Hj) as (g & Hg & Hin).
    pose proof (coords_in_group g j s q1 Hin Hq1) as Hc1.
    pose proof (coords_in_group g j s q2 Hin Hq2) as Hc2.
    pose proof (two_distinct_elements _ q1 q2 Hc1 Hc2 Hne) as Hlen.
    assert (Hscore : score g = Some (farthest (all_coords g)).1).
    { unfold score. now rewrite decide_True by exact Hlen. }
    destruct (score_spec g _ Hscore) as [Hmax _].
    specialize (Hmax q1 q2 Hc1 Hc2).
    destruct (resolve_groups_spec streak_eqb first (second :: rest)) as [Hbest _].
    cbv zeta in Hbest.
    destruct (Rlt_le_dec 0 (farthest (all_coords g)).1) as [Hpos|Hzero].
    + destruct Hbest as (g' & p1 & p2 & Hr & _ & _ & Hall & _).
      { exists g, (farthest (all_coords g)).1. split; [exact Hg|]. split; [exact Hscore|lra]. }
      fold r in Hr. rewrite Hr. cbn [fst snd].
      specialize (Hall g _ Hg Hscore). lra.
    + pose proof (dist_nonneg r.1 r.2). lra.
Qed.

Lemma resolved_span_covers_every_fragment_witness :
  exists p1 p2,
    detect_streak_endpoints (fun _ _ => false) [streak_a; streak_b] = Some (p1, p2)
    /\ (dist (0, 0) (10, 0) <= dist p1 p2)%R.
Proof.
  assert (Hfilter : filter (fun s => Streak.length s >= min_length)%R [streak_a; streak_b]
                    = [streak_a; streak_b]).
  { rewrite !filter_cons, filter_nil.
    rewrite !decide_True by (unfold min_length; cbn; lra). reflexivity. }
  destruct (resolved_span_covers_every_fragment (fun _ _ => false) [streak_a; streak_b]
              streak_a streak_b [] Hfilter ltac:(reflexivity))
    as (p1 & p2 & Hd & Hspan).
  exists p1, p2. split; [exact Hd|].
  apply (Hspan streak_a); cbn; [left|left|right; left].
Defined.

(** ** Accumulated exposures *)

Section AccumulateFacts.
Local Open Scope R_scope.

Lemma accumulate_snoc (inputs : list (option FitsFile * list nat * list R))
  (x : option FitsFile * list nat * list R) :
  accumulate (inputs ++ [x])
  = adicionar_dados_temporais (accumulate inputs) x.1.1 x.1.2 x.2.
Proof. unfold accumulate. now rewrite foldl_app. Qed.

Lemma omap_snoc {A B} (f : A -> option B) (l : list A) (x : A) :
  omap f (l ++ [x]) = omap f l ++ match f x with Some y => [y] | None => [] end.
Proof.
  induction l as [|a l IH]; cbn.
  - destruct (f x); reflexivity.
  - rewrite IH. destruct (f a); reflexivity.
Qed.

Lemma accumulate_invariant (inputs : list (option FitsFile * list nat * list R)) :
  let st := accumulate inputs in
  length (dados_temporais_satelite st) = length inputs
  /\ tempo_base_satelite st = head (omap timestamp (dados_temporais_satelite st))
  /\ forall i d,
       dados_temporais_satelite st !! i = Some d ->
       match timestamp d with
       | Some t => exists b, tempo_base_satelite st = Some b
                             /\ tempo_relativo d = total_seconds t b
       | None => tempo_relativo d = INR i * 30
       end.
Proof.
  induction inputs as [|x inputs IH] using rev_ind; cbv zeta.
  - cbn. split; [reflexivity|]. split; [reflexivity|]. intros i d H. discriminate.
  - rewrite accumulate_snoc. cbv zeta in IH. destruct IH as (Hlen & Hbase & Hrec).
    set (st := accumulate inputs) in *.
    unfold adicionar_dados_temporais.
    destruct (extrair_tempo_fits x.1.1) as [ts e] eqn:Hext.
    cbn [tempo_base_satelite dados_temporais_satelite].
    split; [rewrite !length_app, Hlen; reflexivity|]. split.
    + rewrite omap_snoc. cbn [timestamp].
      destruct (tempo_base_satelite st) as [b|] eqn:Hb.
      * destruct (omap timestamp (dados_temporais_satelite st)) as [|t0 l0];
          [discriminate|]. cbn in Hbase |- *. exact Hbase.
      * destruct (omap timestamp (dados_temporais_satelite st)) as [|t0 l0];
          [|discriminate]. destruct ts; reflexivity.
    + intros i d Hi. apply lookup_app_Some in Hi as [Hi|[Hge Hi]].
      * specialize (Hrec i d Hi). destruct (timestamp d) as [t|]; [|exact Hrec].
        destruct Hrec as (b & Hb & Hrel). exists b. rewrite Hb. split; [|exact Hrel].
        reflexivity.
      * apply list_lookup_singleton_Some in Hi as [Hi <-]. cbn [timestamp tempo_relativo].
        assert (i = length (dados_temporais_satelite st)) as -> by lia.
        destruct ts as [t|]; [|reflexivity].
        destruct (tempo_base_satelite st) as [b|]; eexists; split; reflexivity.
Qed.

End AccumulateFacts.


(** ** Sorting the accumulated exposures *)

Section SortFacts.
Local Open Scope R_scope.

Lemma StronglySorted_of_lookup {A} (Rel : A -> A -> Prop) (l : list A) :
  (forall i j a b, (i < j)%nat -> l !! i = Some a -> l !! j = Some b -> Rel a b) ->
  StronglySorted Rel l.
Proof.
  induction l as [|x l IH]; intros H; constructor.
  - apply IH. intros i j a b Hij Ha Hb. apply (H (S i) (S j)); [lia|exact Ha|exact Hb].
  - apply Forall_forall. intros y Hy. apply list_elem_of_lookup in Hy as [j Hj].
    apply (H 0%nat (S j)); [lia|reflexivity|exact Hj].
Qed.

Lemma Sorted_adjacent {A} (Rel : A -> A -> Prop) (l : list A) (k : nat) (a b : A) :
  Sorted Rel l -> l !! k = Some a -> l !! S k = Some b -> Rel a b.
Proof.
  intros Hs. revert k. induction Hs as [|x l Hs IH Hhd]; intros k Ha Hb; [discriminate|].
  destruct k as [|k].
  - cbn in Ha, Hb. injection Ha as ->. destruct l as [|y l]; [discriminate|].
    cbn in Hb. injection Hb as ->. now inversion Hhd.
  - cbn in Ha, Hb. now apply (IH k).
Qed.

(** Stable insertion leaves a sorted list as it is. *)
Lemma insertion_sorted_id (l : list Dados) :
  StronglySorted key_le l -> foldr insert_by_key [] l = l.
Proof.
  induction 1 as [|x l Hs IH Hx]; [reflexivity|].
  cbn [foldr]. rewrite IH. destruct l as [|h t]; [reflexivity|].
  cbn [insert_by_key]. apply Forall_inv in Hx. unfold key_le in Hx.
  now rewrite Hx.
Qed.

Lemma existsb_false {A} (f : A -> bool) (l : list A) :
  (forall x, x ∈ l -> f x = false) -> existsb f l = false.
Proof.
  induction l as [|a l IH]; intros H; [reflexivity|].
  cbn. rewrite (H a) by apply list_elem_of_here.
  apply IH. intros x Hx. apply H. now apply list_elem_of_further.
Qed.

End SortFacts.

(** X18.  How the sort of the time axis meets the accumulated records.  When
    no accumulated exposure has a timestamp, the relative times [30 * i]
    are the keys and the records keep their arrival order.  When every
    accumulated exposure has a timestamp, the records are sorted by
    timestamp and their relative times never decrease along the sorted
    list. *)
Theorem sorted_exposures_follow_relative_time
  (inputs : list (option FitsFile * list nat * list R)) :
  inputs <> [] ->
  let dados := dados_temporais_satelite (accumulate inputs) in
  ((forall d, d ∈ dados -> timestamp d = None) ->
   criar_eixo_temporal_continuo dados = Ok (Some (eixo_from 0 dados, dados)))
  /\ ((forall d, d ∈ dados -> is_Some (timestamp d)) ->
      exists eixo ord,
        criar_eixo_temporal_continuo dados = Ok (Some (eixo, ord))
        /\ ord ≡ₚ dados
        /\ forall k d1 d2,
             ord !! k = Some d1 -> ord !! S k = Some d2 ->
             (tempo_relativo d1 <= tempo_relativo d2)%R).
Proof.
  intros Hne dados.
  destruct (accumulate_invariant inputs) as (Hlen & Hbase & Hrec). cbv zeta in *.
  fold dados in Hlen, Hbase, Hrec.
  assert (Hdne : dados <> []).
  { intros E. rewrite E in Hlen. destruct inputs; [congruence|discriminate]. }
  split.
  - intros Hnone.
    assert (Hmix : mixed_keys dados = false).
    { unfold mixed_keys. rewrite existsb_false; [reflexivity|].
      intros d Hd. unfold has_timestamp. rewrite (Hnone d Hd).
      apply bool_decide_eq_false. intros [? ?]. discriminate. }
    assert (Hsorted : StronglySorted key_le dados).
    { apply StronglySorted_of_lookup. intros i j a b Hij Ha Hb.
      pose proof (Hrec i a Ha) as Hra. pose proof (Hrec j b Hb) as Hrb.
      pose proof (Hnone a (list_elem_of_lookup_2 _ _ _ Ha)) as Hta.
      pose proof (Hnone b (list_elem_of_lookup_2 _ _ _ Hb)) as Htb.
      rewrite Hta in Hra. rewrite Htb in Hrb.
      unfold key_le, key_ltb, key_of. rewrite Hta, Htb. cbn [key_lt].
      apply bool_decide_eq_false. rewrite Hra, Hrb.
      assert (INR i < INR j)%R by (apply lt_INR; exact Hij). lra. }
    unfold criar_eixo_temporal_continuo, sorted_by_key.
    destruct dados as [|d0 dados'] eqn:Hd; [congruence|].
    rewrite Hmix. cbn [mbind result_bind]. rewrite <- Hd in *.
    rewrite (insertion_sorted_id dados Hsorted). rewrite Hd. reflexivity.
  - intros Hall.
    assert (Hmix : mixed_keys dados = false).
    { unfold mixed_keys. rewrite (existsb_false (fun x => negb (has_timestamp x)));
        [apply andb_false_r|].
      intros d Hd. unfold has_timestamp.
      rewrite (bool_decide_eq_true_2 _ (Hall d Hd)). reflexivity. }
    destruct (sorted_by_key_ok dados Hmix) as (ord & Hord & Hperm & Hsorted).
    exists (eixo_from 0 ord), ord. split.
    { unfold criar_eixo_temporal_continuo. destruct dados; [congruence|].
      now rewrite Hord. }
    split; [exact Hperm|].
    intros k d1 d2 H1 H2.
    pose proof (Sorted_adjacent key_le ord k d1 d2 Hsorted H1 H2) as Hle.
    assert (Hin1 : d1 ∈ dados).
    { rewrite <- Hperm. eapply list_elem_of_lookup_2, H1. }
    assert (Hin2 : d2 ∈ dados).
    { rewrite <- Hperm. eapply list_elem_of_lookup_2, H2. }
    destruct (Hall d1 Hin1) as [t1 Ht1]. destruct (Hall d2 Hin2) as [t2 Ht2].
    apply list_elem_of_lookup in Hin1 as [i1 Hi1].
    apply list_elem_of_lookup in Hin2 as [i2 Hi2].
    pose proof (Hrec i1 d1 Hi1) as Hr1. pose proof (Hrec i2 d2 Hi2) as Hr2.
    rewrite Ht1 in Hr1. rewrite Ht2 in Hr2.
    destruct Hr1 as (b & Hb & ->). destruct Hr2 as (b' & Hb' & ->).
    rewrite Hb in Hb'. injection Hb' as <-.
    unfold key_le, key_ltb, key_of in Hle. rewrite Ht1, Ht2 in Hle. cbn [key_lt] in Hle.
    apply bool_decide_eq_false in Hle. unfold total_seconds.
    assert (IZR (t1 - b) <= IZR (t2 - b))%R by (apply IZR_le; lia). lra.
Qed.

Lemma sorted_exposures_follow_relative_time_witness :
  let dados := dados_temporais_satelite
                 (accumulate [(Some fits_without_date, [0; 1; 2]%nat, [1; 1; 1]%R);
                              (None, [0; 1; 2]%nat, [1; 1; 1]%R)]) in
  criar_eixo_temporal_continuo dados = Ok (Some (eixo_from 0 dados, dados)).
Proof.
  apply (sorted_exposures_follow_relative_time
           [(Some fits_without_date, [0; 1; 2]%nat, [1; 1; 1]%R);
            (None, [0; 1; 2]%nat, [1; 1; 1]%R)]); [discriminate|].
  intros d Hd. cbn in Hd.
  apply elem_of_cons in Hd as [->|Hd]; [reflexivity|].
  apply list_elem_of_singleton in Hd as ->. reflexivity.
Defined.

(** ** Totals of the temporal summary *)

Section SummaryFacts.
Local Open Scope R_scope.

Lemma foldl_Rmax_spec (x : R) (rest : list R) :
  let m := foldl Rmax x rest in
  x <= m /\ Forall (fun y => y <= m) rest /\ (m = x \/ m ∈ rest).
Proof.
  revert x. induction rest as [|y rest IH]; intros x; cbn [foldl].
  - split; [lra|]. split; [constructor|now left].
  - destruct (IH (Rmax x y)) as (Hle & Hall & Hin).
    pose proof (Rmax_l x y). pose proof (Rmax_r x y).
    split; [lra|]. split; [constructor; [lra|exact Hall]|].
    destruct Hin as [Hin|Hin]; [|right; now right].
    rewrite Hin. unfold Rmax. destruct (Rle_dec x y); [right; now left|now left].
Qed.

Lemma py_max_intro (l : list R) (m : R) :
  m ∈ l -> Forall (fun y => y <= m) l -> py_max l = Some m.
Proof.
  intros Hin Hall. destruct l as [|x rest]; [inversion Hin|].
  cbn [py_max]. f_equal.
  destruct (foldl_Rmax_spec x rest) as (Hle & Hrest & Hwho). cbv zeta in *.
  set (r := foldl Rmax x rest) in *.
  rewrite Forall_forall in Hall, Hrest.
  assert (r <= m).
  { destruct Hwho as [->|Hr]; [apply Hall; now left|apply Hall; now right]. }
  assert (m <= r).
  { apply elem_of_cons in Hin as [->|Hin]; [exact Hle|now apply Hrest]. }
  lra.
Qed.

Lemma linspace_bounds (a b : R) (n : nat) (t : R) :
  a <= b -> t ∈ linspace a b n -> a <= t <= b.
Proof.
  intros Hab Ht. destruct n as [|[|n]].
  - inversion Ht.
  - apply list_elem_of_singleton in Ht as ->. lra.
  - apply list_elem_of_lookup in Ht as [i Hi].
    assert (Hlt : (i < S (S n))%nat).
    { apply lookup_lt_Some in Hi. now rewrite linspace_length in Hi. }
    rewrite linspace_lookup in Hi by lia. apply (inj Some) in Hi. subst t.
    match goal with |- context [decide ?P] => destruct (decide P) end; [lra|].
    assert (Hn : 0 < INR (S (S n) - 1)) by (apply lt_0_INR; lia).
    assert (Hi : 0 <= INR i <= INR (S (S n) - 1)).
    { split; [apply pos_INR|apply le_INR; lia]. }
    set (N := INR (S (S n) - 1)) in *.
    assert (Hstep : 0 <= (b - a) / N).
    { apply Rmult_le_pos; [lra|]. apply Rlt_le, Rinv_0_lt_compat, Hn. }
    assert (HN : N * ((b - a) / N) = b - a) by (field; lra).
    nra.
Qed.

Lemma py_max_linspace (a b : R) (n : nat) :
  a <= b -> (2 <= n)%nat -> py_max (linspace a b n) = Some b.
Proof.
  intros Hab Hn. apply py_max_intro.
  - pose proof (linspace_last a b n Hn) as Hl. rewrite last_lookup in Hl.
    eapply list_elem_of_lookup_2, Hl.
  - apply Forall_forall. intros t Ht. now apply (linspace_bounds a b n).
Qed.

Lemma Rsum_perm (l k : list R) : l ≡ₚ k -> Rsum l = Rsum k.
Proof.
  induction 1 as [|x l k _ IH|x y l|l k m _ IH1 _ IH2]; rewrite ?Rsum_cons;
    [reflexivity|rewrite IH; reflexivity|lra|congruence].
Qed.

Lemma total_pontos_perm (l k : list Dados) : l ≡ₚ k -> total_pontos l = total_pontos k.
Proof.
  unfold total_pontos.
  induction 1 as [|x l k _ IH|x y l|l k m _ IH1 _ IH2]; cbn in *; lia.
Qed.

Lemma eixo_from_bounds (acc : R) (ds : list Dados) :
  Forall (fun d => 0 <= exp_time d) ds ->
  forall row t, row ∈ eixo_from acc ds -> t ∈ row ->
    acc <= t <= acc + Rsum (map exp_time ds).
Proof.
  intros Hds. revert acc. induction Hds as [|d ds Hd Hds IH]; intros acc row t Hrow Ht.
  - inversion Hrow.
  - cbn [eixo_from map] in *. rewrite Rsum_cons.
    assert (Hrest : 0 <= Rsum (map exp_time ds)).
    { apply Rsum_nonneg, Forall_fmap. exact Hds. }
    apply elem_of_cons in Hrow as [->|Hrow].
    + apply linspace_bounds in Ht; lra.
    + specialize (IH _ _ _ Hrow Ht). lra.
Qed.

Lemma eixo_from_maxima (acc : R) (ds : list Dados) :
  Forall (fun d => 0 <= exp_time d /\ (2 <= length (positions d))%nat) ds ->
  exists maxima,
    mapM py_max (eixo_from acc ds) = Some maxima
    /\ Forall (fun m => m <= acc + Rsum (map exp_time ds)) maxima
    /\ (ds <> [] -> acc + Rsum (map exp_time ds) ∈ maxima).
Proof.
  intros Hds. revert acc. induction Hds as [|d ds [Hd Hn] Hds IH]; intros acc.
  - exists []. split; [reflexivity|]. split; [constructor|congruence].
  - destruct (IH (acc + exp_time d)) as (maxima & Hmap & Hall & Hin).
    assert (Hrest : 0 <= Rsum (map exp_time ds)).
    { apply Rsum_nonneg, Forall_fmap. eapply Forall_impl; [exact Hds|].
      intros x [Hx _]. exact Hx. }
    exists ((acc + exp_time d) :: maxima). cbn [eixo_from map]. rewrite Rsum_cons.
    split; [|split].
    + cbn [mapM]. rewrite py_max_linspace by (lra || exact Hn).
      cbn [mbind option_bind]. rewrite Hmap. reflexivity.
    + constructor; [lra|]. eapply Forall_impl; [exact Hall|]. intros m Hm. cbn in Hm. lra.
    + intros _. destruct ds as [|d' ds'].
      * replace (acc + (exp_time d + Rsum (map exp_time []))) with (acc + exp_time d)
          by (unfold Rsum; cbn; lra).
        now left.
      * right. replace (acc + (exp_time d + Rsum (map exp_time (d' :: ds'))))
          with (acc + exp_time d + Rsum (map exp_time (d' :: ds'))) by lra.
        apply Hin. congruence.
Qed.

End SummaryFacts.

(** X19.  When the accumulated records sort (no timestamp key meets a
    float key), no exposure time is negative and every exposure has two
    samples or more, the total observation time the summary prints is the
    sum of the exposure times, whatever the timestamps are; every time of
    the axis lies between 0 and that total; and the total of analysed points
    is the number of positions of all records. *)
Theorem total_time_is_sum_of_exposures (dados : list Dados) :
  dados <> [] -> mixed_keys dados = false ->
  Forall (fun d => (0 <= exp_time d)%R /\ (2 <= length (positions d))%nat) dados ->
  exists eixo ord,
    criar_eixo_temporal_continuo dados = Ok (Some (eixo, ord))
    /\ tempo_total eixo = Some (Rsum (map exp_time dados))
    /\ (forall row t, row ∈ eixo -> t ∈ row ->
          (0 <= t <= Rsum (map exp_time dados))%R)
    /\ total_pontos ord = length (concat (map positions dados)).
Proof.
  intros Hne Hmix Hall.
  destruct (sorted_by_key_ok dados Hmix) as (ord & Hord & Hperm & _).
  exists (eixo_from 0 ord), ord.
  assert (Hall' : Forall (fun d => (0 <= exp_time d)%R
                                   /\ (2 <= length (positions d))%nat) ord).
  { rewrite Forall_forall in Hall |- *. intros d Hd. apply Hall. now rewrite <- Hperm. }
  assert (Hsum : Rsum (map exp_time ord) = Rsum (map exp_time dados)).
  { apply Rsum_perm. now apply fmap_Permutation. }
  assert (Hone : ord <> []).
  { intros E. rewrite E in Hperm. apply Permutation_nil_l in Hperm. congruence. }
  split; [|split; [|split]].
  - unfold criar_eixo_temporal_continuo. destruct dados; [congruence|].
    now rewrite Hord.
  - destruct (eixo_from_maxima 0 ord Hall') as (maxima & Hmap & Hle & Hin).
    unfold tempo_total. rewrite Hmap. cbn [mbind option_bind].
    rewrite <- Hsum. replace (Rsum (map exp_time ord)) with (0 + Rsum (map exp_time ord))%R
      by lra.
    apply py_max_intro; [now apply Hin|exact Hle].
  - intros row t Hrow Ht. rewrite <- Hsum.
    assert (Hexp : Forall (fun d => (0 <= exp_time d)%R) ord).
    { eapply Forall_impl; [exact Hall'|]. intros d [Hd _]. exact Hd. }
    pose proof (eixo_from_bounds 0 ord Hexp row t Hrow Ht). lra.
  - rewrite (total_pontos_perm ord dados Hperm). unfold total_pontos.
    clear. induction dados as [|d dados IH]; [reflexivity|].
    cbn [map concat foldr]. rewrite length_app, IH. reflexivity.
Qed.

Lemma total_time_is_sum_of_exposures_witness :
  exists eixo ord,
    criar_eixo_temporal_continuo [dados_late; dados_early] = Ok (Some (eixo, ord))
    /\ tempo_total eixo = Some (Rsum (map exp_time [dados_late; dados_early])).
Proof.
  destruct (total_time_is_sum_of_exposures [dados_late; dados_early])
    as (eixo & ord & Hrun & Htot & _).
  - discriminate.
  - reflexivity.
  - repeat constructor; cbn; (lra || lia).
  - exists eixo, ord. split; [exact Hrun|exact Htot].
Defined.

(** ** Moving through the image list *)

Section NavigationFacts.
Variable opens : string -> bool.






End NavigationFacts.






(** ** Settings *)

Section ConfigFacts.
Local Open Scope R_scope.

Lemma errors_nil (new : Config.t) : Config.errors new = [] <-> accepted new.
Proof.
  unfold Config.errors, accepted.
  destruct (decide ((Config.n_points new < 3)%Z \/ (Config.n_points new > 50)%Z));
  destruct (decide (Config.aperture_radius new < 1 \/ Config.aperture_radius new > 20));
  destruct (decide (Config.annulus_inner new <= Config.aperture_radius new));
  destruct (decide (Config.annulus_outer new <= Config.annulus_inner new));
  destruct (decide (Config.zoom_factor new < 11 / 10 \/ Config.zoom_factor new > 10));
  cbn; split; try discriminate; try (intros _; repeat split; first [lia|lra]);
  intros (Hn & Ha & Hi & Ho & Hz); exfalso;
  repeat match goal with H : _ \/ _ |- _ => destruct H end; first [lia|lra].
Qed.

Lemma accepted_defaults : accepted Config.defaults.
Proof. unfold accepted. cbn. repeat split; first [lia|lra]. Qed.

End ConfigFacts.

(** X23.  The settings dialog applies all five values or none: it applies
    them exactly when every check passes, and otherwise (a failed check or
    an unreadable entry) leaves every setting as it was.  So settings the
    checks accept, such as the defaults, stay accepted through any use of
    the dialog; with accepted settings the annulus and the aperture have
    positive area, and confirming two clicked points yields [n_points]
    analysis points without a division by zero. *)
Theorem settings_stay_accepted (self : Config.t) (entries : option Config.t) :
  accepted self ->
  let after := Config.settings (Config.apply_config self entries) in
  (forall new, entries = Some new -> accepted new ->
     Config.apply_config self entries = Config.Applied new)
  /\ (forall new, entries = Some new -> ~ accepted new -> after = self)
  /\ (entries = None -> after = self)
  /\ accepted after
  /\ (0 < annulus_area (Config.annulus_inner after) (Config.annulus_outer after))%R
  /\ (0 < circle_area (Config.aperture_radius after))%R
  /\ forall p1 p2 : R * R,
       exists points,
         confirm_streak (Z.to_nat (Config.n_points after)) [p1; p2] = Ok (Some points)
         /\ Z.of_nat (length points) = Config.n_points after.
Proof.
  intros Hself after.
  assert (Happ : forall new, entries = Some new -> accepted new ->
            Config.apply_config self entries = Config.Applied new).
  { intros new -> Hnew. apply errors_nil in Hnew. unfold Config.apply_config.
    now rewrite Hnew. }
  assert (Hrej : forall new, entries = Some new -> ~ accepted new -> after = self).
  { intros new Hent Hnew. subst after. rewrite Hent. unfold Config.apply_config.
    destruct (Config.errors new) eqn:He; [|reflexivity].
    exfalso. now apply Hnew, errors_nil. }
  assert (Hnone : entries = None -> after = self) by (intros Hent; subst after; now rewrite Hent).
  assert (Hacc : accepted after).
  { destruct entries as [new|]; [|now rewrite Hnone].
    destruct (Config.errors new) eqn:He.
    - subst after. rewrite (Happ new eq_refl) by now apply errors_nil.
      now apply errors_nil.
    - rewrite (Hrej new eq_refl); [exact Hself|].
      intros Hn. apply errors_nil in Hn. congruence. }
  split; [exact Happ|]. split; [exact Hrej|]. split; [exact Hnone|].
  split; [exact Hacc|].
  destruct Hacc as (Hn & Ha & Hi & Ho & Hz). pose proof PI_RGT_0 as Hpi.
  split.
  { unfold annulus_area. apply Rmult_lt_0_compat; [exact Hpi|].
    set (r_in := Config.annulus_inner after) in *.
    set (r_out := Config.annulus_outer after) in *.
    replace (r_out ^ 2 - r_in ^ 2)%R with ((r_out - r_in) * (r_out + r_in))%R by ring.
    apply Rmult_lt_0_compat; lra. }
  split.
  { unfold circle_area. apply Rmult_lt_0_compat; [exact Hpi|].
    apply pow_lt. lra. }
  intros p1 p2. eexists. unfold confirm_streak.
  destruct (Nat.eqb_spec (Z.to_nat (Config.n_points after)) 1) as [E|_]; [lia|].
  split; [reflexivity|]. rewrite length_map, length_seq. lia.
Qed.

Lemma settings_stay_accepted_witness :
  accepted (Config.settings
              (Config.apply_config Config.defaults
                 (Some {| Config.n_points := 1; Config.aperture_radius := 5;
                          Config.annulus_inner := 8; Config.annulus_outer := 12;
                          Config.zoom_factor := 2 |}))).
Proof.
  exact (proj1 (proj2 (proj2 (proj2
    (settings_stay_accepted Config.defaults
       (Some {| Config.n_points := 1; Config.aperture_radius := 5;
                Config.annulus_inner := 8; Config.annulus_outer := 12;
                Config.zoom_factor := 2 |}) accepted_defaults))))).
Defined.

(** X24.  Zooming on a point of the image, from a view of positive width
    and height and with a positive zoom factor, gives a view that stays
    inside the image and contains the point; it is at most [7 / 12] of the
    old width over the zoom factor wide (a third of the reduced width to the
    left of the point, a quarter to the right) and at most the old height
    over the zoom factor high. *)
Theorem zoom_keeps_the_point_in_view
  (zoom_factor : R) (xlim ylim : R * R) (img_width img_height : nat) (x y : R) :
  (0 < zoom_factor)%R ->
  (xlim.1 < xlim.2)%R -> (ylim.1 < ylim.2)%R ->
  (0 <= x <= INR img_width)%R -> (0 <= y <= INR img_height)%R ->
  let v := zoom_to_point zoom_factor xlim ylim img_width img_height x y in
  (0 <= v.1.1 /\ v.1.1 <= x /\ x <= v.1.2 /\ v.1.2 <= INR img_width)%R
  /\ (0 <= v.2.1 /\ v.2.1 <= y /\ y <= v.2.2 /\ v.2.2 <= INR img_height)%R
  /\ (v.1.2 - v.1.1 <= 7 / 12 * ((xlim.2 - xlim.1) / zoom_factor))%R
  /\ (v.2.2 - v.2.1 <= (ylim.2 - ylim.1) / zoom_factor)%R.
Proof.
  intros Hz Hx Hy Hpx Hpy v. subst v. unfold zoom_to_point. cbv zeta. cbn [fst snd].
  assert (Hxr : (0 < (xlim.2 - xlim.1) / zoom_factor)%R)
    by (apply Rdiv_lt_0_compat; lra).
  assert (Hyr : (0 < (ylim.2 - ylim.1) / zoom_factor)%R)
    by (apply Rdiv_lt_0_compat; lra).
  set (x_range := ((xlim.2 - xlim.1) / zoom_factor)%R) in *.
  set (y_range := ((ylim.2 - ylim.1) / zoom_factor)%R) in *.
  unfold Rmax, Rmin.
  repeat match goal with
         | |- context [Rle_dec ?a ?b] => destruct (Rle_dec a b)
         end;
    repeat split; lra.
Qed.

Lemma zoom_keeps_the_point_in_view_witness :
  let v := zoom_to_point 2 (0, 100)%R (0, 100)%R 100 100 50 50 in
  (v.1.1 <= 50 /\ 50 <= v.1.2)%R.
Proof.
  assert (H100 : INR 100 = 100%R) by (rewrite INR_IZR_INZ; reflexivity).
  destruct (zoom_keeps_the_point_in_view 2 (0, 100)%R (0, 100)%R 100 100 50 50)
    as ((_ & H1 & H2 & _) & _); cbn [fst snd]; rewrite ?H100; try lra.
Defined.

(** X25.  The endpoint distance used for stitching is the smallest of the
    four distances between an end of one fragment and an end of the other:
    it is not negative, it is the same in both orders of the two fragments,
    and it does not change when either fragment is reported from its other
    end. *)
Theorem min_dist_ignores_direction (s1 s2 : Streak.t) :
  (0 <= min_dist s1 s2)%R
  /\ (forall e1 e2, e1 ∈ endpoints s1 -> e2 ∈ endpoints s2 ->
        (min_dist s1 s2 <= dist e1 e2)%R)
  /\ (exists e1 e2, e1 ∈ endpoints s1 /\ e2 ∈ endpoints s2
                    /\ min_dist s1 s2 = dist e1 e2)
  /\ min_dist s1 s2 = min_dist s2 s1
  /\ min_dist s1 (reversed s2) = min_dist s1 s2
  /\ min_dist (reversed s1) s2 = min_dist s1 s2.
Proof.
  unfold min_dist, endpoints, reversed.
  cbn [mbind list_bind Streak.x_start Streak.y_start Streak.x_end Streak.y_end
       app list_min foldl].
  set (a := (Streak.x_start s1, Streak.y_start s1)).
  set (b := (Streak.x_end s1, Streak.y_end s1)).
  set (c := (Streak.x_start s2, Streak.y_start s2)).
  set (d := (Streak.x_end s2, Streak.y_end s2)).
  rewrite (dist_sym c a), (dist_sym c b), (dist_sym d a), (dist_sym d b).
  pose proof (dist_nonneg a c). pose proof (dist_nonneg a d).
  pose proof (dist_nonneg b c). pose proof (dist_nonneg b d).
  set (ac := dist a c) in *. set (ad := dist a d) in *.
  set (bc := dist b c) in *. set (bd := dist b d) in *.
  assert (Hmin : (Rmin (Rmin (Rmin ac ad) bc) bd <= ac
                  /\ Rmin (Rmin (Rmin ac ad) bc) bd <= ad
                  /\ Rmin (Rmin (Rmin ac ad) bc) bd <= bc
                  /\ Rmin (Rmin (Rmin ac ad) bc) bd <= bd)%R).
  { unfold Rmin. repeat destruct (Rle_dec _ _); lra. }
  split; [unfold Rmin; repeat destruct (Rle_dec _ _); lra|].
  split.
  { intros e1 e2 He1 He2.
    apply elem_of_cons in He1 as [->|He1]; [|apply list_elem_of_singleton in He1 as ->];
      (apply elem_of_cons in He2 as [->|He2]; [|apply list_elem_of_singleton in He2 as ->]);
      fold ac ad bc bd; lra. }
  split.
  { assert (Hwho : Rmin (Rmin (Rmin ac ad) bc) bd = ac
                   \/ Rmin (Rmin (Rmin ac ad) bc) bd = ad
                   \/ Rmin (Rmin (Rmin ac ad) bc) bd = bc
                   \/ Rmin (Rmin (Rmin ac ad) bc) bd = bd).
    { unfold Rmin. repeat destruct (Rle_dec _ _); tauto. }
    destruct Hwho as [E|[E|[E|E]]]; rewrite E;
      [exists a, c|exists a, d|exists b, c|exists b, d];
      (split; [|split; [|reflexivity]]);
      first [apply list_elem_of_here|apply list_elem_of_further, list_elem_of_here]. }
  repeat split; unfold Rmin; repeat destruct (Rle_dec _ _); lra.
Qed.

(** X26.  Clicks define the streak only until two points are held.  From a
    state without clicked points and with the zoom mode off, three clicks
    inside the axes leave the first two points, in order: the third click
    is ignored.  With one point [confirm_streak] only warns; with the two
    points (and two analysis points or more, real arithmetic) it places the
    analysis points from the first click to the second.  A click outside
    the axes or in zoom mode changes nothing. *)
Theorem third_click_is_ignored
  (s : App.t) (x1 y1 x2 y2 x3 y3 : R) (n_points : nat) :
  App.streak_points s = [] -> App.zoom_active s = false ->
  let s1 := App.on_click s true x1 y1 in
  let s2 := App.on_click s1 true x2 y2 in
  let s3 := App.on_click s2 true x3 y3 in
  App.streak_points s3 = [(x1, y1); (x2, y2)]
  /\ confirm_streak n_points (App.streak_points s1) = Ok None
  /\ ((2 <= n_points)%nat ->
      exists points,
        confirm_streak n_points (App.streak_points s3) = Ok (Some points)
        /\ head points = Some (x1, y1) /\ last points = Some (x2, y2))
  /\ (forall x y, App.on_click s false x y = s)
  /\ (forall x y, App.on_click s3 true x y = s3).
Proof.
  intros Hpts Hzoom s1 s2 s3.
  assert (H1 : App.streak_points s1 = [(x1, y1)] /\ App.zoom_active s1 = false).
  { subst s1. unfold App.on_click. cbn [negb]. rewrite Hzoom, Hpts.
    rewrite decide_True by (cbn; lia). cbn. split; first [reflexivity|assumption]. }
  destruct H1 as [Hp1 Hz1].
  assert (H2 : App.streak_points s2 = [(x1, y1); (x2, y2)] /\ App.zoom_active s2 = false).
  { subst s2. unfold App.on_click. cbn [negb]. rewrite Hz1, Hp1.
    rewrite decide_True by (cbn; lia). cbn. split; first [reflexivity|assumption]. }
  destruct H2 as [Hp2 Hz2].
  assert (H3 : forall x y, App.on_click s2 true x y = s2).
  { intros x y. unfold App.on_click. cbn [negb]. rewrite Hz2, Hp2.
    now rewrite decide_False by (cbn; lia). }
  assert (Hs3 : s3 = s2) by apply H3.
  split; [now rewrite Hs3|]. split; [now rewrite Hp1|]. split; [|split].
  - intros Hn. rewrite Hs3, Hp2. destruct n_points as [|[|m]]; [lia|lia|].
    eexists. split; [reflexivity|]. split.
    + cbn [seq map head]. now rewrite analysis_point_first by lia.
    + replace (seq 0 (S (S m))) with (seq 0 (S m) ++ [S m])
        by (rewrite <- seq_S; reflexivity).
      rewrite map_app. cbn [map]. rewrite last_snoc.
      change (S m) with (S (S m) - 1)%nat at 2.
      now rewrite analysis_point_last by lia.
  - intros x y. reflexivity.
  - intros x y. rewrite Hs3. apply H3.
Qed.

Lemma third_click_is_ignored_witness :
  App.streak_points
    (App.on_click
       (App.on_click
          (App.on_click
             {| App.fits_files := ["a.fits"]; App.current_file_index := 0;
                App.current_data := Some "a.fits"; App.streak_points := [];
                App.analysis_points := None; App.zoom_active := false |}
             true 1 2) true 3 4) true 5 6)
  = [(1, 2); (3, 4)]%R.
Proof.
  exact (proj1 (third_click_is_ignored
                  {| App.fits_files := ["a.fits"]; App.current_file_index := 0;
                     App.current_data := Some "a.fits"; App.streak_points := [];
                     App.analysis_points := None; App.zoom_active := false |}
                  1 2 3 4 5 6 10 eq_refl eq_refl)).
Defined.
